(** * unionfs: a stack of filesystems behind one [fs]-like interface

    Shallow embedding of [src/union.ts] (class [Union]) and the properties
    of its resolution engine: ordered fallback, capability gating of
    [open]/[openSync], error chaining through [prev], directory merging,
    and stream construction. *)

From Stdlib Require Import ZArith Ascii String.
From stdpp Require Import base option list gmap strings pretty sorting.

(** Conventions of the embedding.

    - An entry of the registry is the object stored in [this.fss], i.e. the
      result of [createFS].  Its methods are deterministic: a blocking or a
      promise method returns (resolves) or throws (rejects); a callback
      method calls the callback it is given once, or throws.
    - Errors are objects in a store, referred to by address, because
      [err.prev = lastError] writes to the thrown object.  Errors made by
      the union itself are allocated at the end of the store.
    - The loops that count down from [this.fss.length - 1], and the
      [iterate] recursions, take the list of the entries still to visit,
      highest index first (they start from [reverse fss]); the index of the
      entry at the head is the length of the tail.
    - Callback-style methods of the union are modelled for calls whose last
      argument is a callback.
    - The world also keeps a trace of the backend methods that were
      invoked; it is not part of the program state and only serves to say
      which backends a call reaches. *)

(** ** JavaScript values *)

(** The values that cross the interface: arguments, results, stream objects
    and constructor references ([JObj] is an object reference). *)
Inductive jsval :=
| JUndefined
| JNull
| JBool (b : bool)
| JNum (z : Z)
| JStr (s : string)
| JObj (r : nat).

(** JavaScript truthiness, as used by [if (!stream)] and [if (fs.existsSync(path))]. *)
Definition truthy (v : jsval) : bool :=
  match v with
  | JUndefined | JNull => false
  | JBool b => b
  | JNum z => negb (z =? 0)%Z
  | JStr s => negb (String.eqb s EmptyString)
  | JObj _ => true
  end.

(** [String(v)] for an array element, as produced by the template literal
    [`${args}`]: [undefined] and [null] render as the empty string.  A
    number is an integer written in decimal; the exponent notation that
    JavaScript uses from [1e21] on is not modelled. *)
Definition String_of (v : jsval) : string :=
  match v with
  | JUndefined | JNull => EmptyString
  | JBool true => "true"
  | JBool false => "false"
  | JNum z => pretty z
  | JStr s => s
  | JObj _ => "[object Object]"
  end.

(** [`${args}`]: the elements joined by commas. *)
Fixpoint String_of_args (args : list jsval) : string :=
  match args with
  | [] => EmptyString
  | [v] => String_of v
  | v :: rest => String_of v +:+ "," +:+ String_of_args rest
  end.

Definition dquote : string := String "034"%char EmptyString.

(** ** Error objects and the [prev] back-reference *)

(** Errors are objects, thrown and caught by reference; [err.prev = lastError]
    mutates the object.  An address is an index into the store. *)
Definition addr := nat.

(** [prev?: IUnionFsError | null]: absent, [null], or a reference. *)
Inductive prev_field :=
| PrevUndefined
| PrevNull
| PrevRef (a : addr).

Record error_obj := Error_obj { message : string; prev : prev_field }.

(** The value of [lastError] (an error or [null]) as stored into [prev]. *)
Definition prev_of (lastError : option addr) : prev_field :=
  match lastError with
  | None => PrevNull
  | Some a => PrevRef a
  end.

(** A call either returns or throws an error object. *)
Inductive completion (V : Type) :=
| Return (v : V)
| Throw (e : addr).
Arguments Return {V} v.
Arguments Throw {V} e.

(** What a callback-style backend method does with the callback it is given:
    it calls it with an error, calls it with a result, or throws before. *)
Inductive async_outcome (V : Type) :=
| CbError (e : addr)
| CbResult (v : V)
| SyncThrow (e : addr).
Arguments CbError {V} e.
Arguments CbResult {V} v.
Arguments SyncThrow {V} e.

(** How the caller's callback [cb] is invoked: [cb(err)], [cb(null, v)]
    (or [cb.apply(cb, arguments)] with a falsy first argument), or
    [cb(undefined)]. *)
Inductive cb_call (V : Type) :=
| CbErr (e : addr)
| CbOk (v : V)
| CbUndefined.
Arguments CbErr {V} e.
Arguments CbOk {V} v.
Arguments CbUndefined {V}.

(** A callback-style method of the union calls [cb] or lets an exception
    escape. *)
Inductive cb_result (V : Type) :=
| Called (c : cb_call V)
| Threw (e : addr).
Arguments Called {V} c.
Arguments Threw {V} e.

(** ** Directory entries *)

(** [type readdirEntry = string | Buffer | Dirent]; a [Dirent] carries its
    name and the metadata of the backend that reported it. *)
Inductive readdirEntry :=
| EString (s : string)
| EBuffer (bytes : string)
| EDirent (name : string) (meta : nat).

(** ** Backends *)

(** [VolOptions]: both flags are optional. *)
Record VolOptions := { readable : option bool; writable : option bool }.

(** [flag === false] *)
Definition is_false (flag : option bool) : bool :=
  match flag with
  | Some false => true
  | _ => false
  end.

(** The state of the object passed as [options] to [createWriteStream];
    [opt_fs] is its [fs] property, a reference to an entry of [this.fss]
    (by index). *)
Record options_obj := { opt_fs : option nat; opt_rest : list (string * jsval) }.

(** [fs.promises] of an entry. *)
Record promises_obj := {
  p_method : string -> option (list jsval -> completion jsval);
  p_readdir : option (list jsval -> completion (list readdirEntry));
}.

(** An entry of [this.fss], as the methods of [Union] use it ([IFS]).
    Every member may be missing.  Generic methods are looked up by name
    ([fs[method]]); the special methods have their own signatures. *)
Record IFS := {
  fs_method : string -> option (list jsval -> completion jsval);
  fs_async : string -> option (list jsval -> async_outcome jsval);
  fs_promises : option promises_obj;
  fs_open : option (list jsval -> async_outcome jsval);
  fs_openSync : option (list jsval -> completion jsval);
  fs_readdir : option (list jsval -> async_outcome (list readdirEntry));
  fs_readdirSync : option (list jsval -> completion (list readdirEntry));
  fs_existsSync : option (string -> completion jsval);
  fs_createReadStream : option (string -> completion jsval);
  fs_createWriteStream : option (string -> options_obj -> completion jsval);
  fs_ReadStream : jsval;
  fs_WriteStream : jsval;
}.

(** [private fss: [IFS, VolOptions][]] *)
Abbreviation entry := (IFS * VolOptions)%type.

(** ** The world: mutable objects and the record of backend invocations *)

Inductive event :=
| Invoked (i : nat) (method : string)
| InvokedWith (i : nat) (method : string) (options : options_obj).

Record world := World {
  errors : list error_obj;      (* error objects, by address *)
  ReadStream : jsval;           (* this.ReadStream *)
  WriteStream : jsval;          (* this.WriteStream *)
  calls : list event;           (* backend methods invoked so far, oldest first *)
}.

Definition with_errors (h : list error_obj) (w : world) : world :=
  World h (ReadStream w) (WriteStream w) (calls w).
Definition with_ReadStream (c : jsval) (w : world) : world :=
  World (errors w) c (WriteStream w) (calls w).
Definition with_WriteStream (c : jsval) (w : world) : world :=
  World (errors w) (ReadStream w) c (calls w).
Definition with_calls (l : list event) (w : world) : world :=
  World (errors w) (ReadStream w) (WriteStream w) l.

(** State monad over the world. *)
Definition M (A : Type) : Type := world -> A * world.

Definition ret {A} (a : A) : M A := fun w => (a, w).
Definition bind {A B} (m : M A) (k : A -> M B) : M B :=
  fun w => let '(a, w') := m w in k a w'.

Declare Scope js_scope.
Delimit Scope js_scope with js.
Notation "x <- c ;; k" := (bind c (fun x => k))
  (at level 100, c at next level, right associativity) : js_scope.
Notation "c ;;; k" := (bind c (fun _ => k))
  (at level 100, right associativity) : js_scope.
Local Open Scope js_scope.

(** [new Error(msg)] / [Error(msg)]: a fresh object, [prev] absent. *)
Definition new_Error (msg : string) : M addr :=
  fun w => (length (errors w), with_errors (errors w ++ [Error_obj msg PrevUndefined]) w).

(** [err.prev = lastError].  A thrown error is an object of the store; for
    an address outside the store [alter] leaves the store as it is. *)
Definition set_prev (err : addr) (lastError : option addr) : M unit :=
  fun w => (tt, with_errors
                  (alter (fun o => Error_obj (message o) (prev_of lastError)) err (errors w)) w).

(** A backend method is entered. *)
Definition invoke (i : nat) (method : string) : M unit :=
  fun w => (tt, with_calls (calls w ++ [Invoked i method]) w).

(** Following [prev] from [e]: the errors met, [e] first.  [None] when the
    walk does not end within [fuel] steps or leaves the store. *)
Fixpoint chain (fuel : nat) (h : list error_obj) (e : addr) : option (list addr) :=
  match fuel with
  | 0 => None
  | S fuel' =>
      match h !! e with
      | None => None
      | Some o =>
          match prev o with
          | PrevRef p => cons e <$> chain fuel' h p
          | _ => Some [e]
          end
      end
  end.

(** ** Registration *)

Section Registration.
(** [createFS] wraps the methods named in the tables of [./lists]. *)
Variable createFS : IFS -> VolOptions -> IFS.

(** [use(fs, options)]: [this.fss.push([this.createFS(fs, options), options])] *)
Definition use (fss : list entry) (fs : IFS) (options : VolOptions) : list entry :=
  fss ++ [(createFS fs options, options)].
End Registration.

(** ** Generic single-target methods *)

Definition not_supported (method : string) (args : list jsval) : string :=
  "Method not supported: " +:+ dquote +:+ method +:+ dquote +:+
  " with args " +:+ dquote +:+ String_of_args args +:+ dquote.

Definition promise_not_supported (method : string) (args : list jsval) : string :=
  "Promise of method not supported: " +:+ dquote +:+ method +:+ dquote +:+
  " with args " +:+ dquote +:+ String_of_args args +:+ dquote.

(** The loop of [syncMethod].  [todo] holds the entries still to visit,
    [this.fss[i]] first, so [i] is the number of entries after the head. *)
Fixpoint syncMethod_loop (method : string) (args : list jsval)
    (todo : list entry) (lastError : option addr) : M (completion jsval) :=
  match todo with
  | [] => ret (Return JUndefined)
  | (fs, _) :: rest =>
      let i := length rest in
      r <- match fs_method fs method with
           | None => e <- new_Error (not_supported method args) ;; ret (Throw e)
           | Some f => invoke i method ;;; ret (f args)
           end ;;
      match r with
      | Return v => ret (Return v)
      | Throw err =>
          set_prev err lastError ;;;
          if bool_decide (i = 0) then ret (Throw err)
          else syncMethod_loop method args rest (Some err)
      end
  end.

Definition syncMethod (fss : list entry) (method : string) (args : list jsval)
    : M (completion jsval) :=
  if bool_decide (length fss = 0) then
    e <- new_Error "No file systems attached" ;; ret (Throw e)
  else syncMethod_loop method args (reverse fss) None.

(** [if (err) { err.prev = lastError; lastError = err; }] at the head of
    [iterate]; the result is the new value of [lastError]. *)
Definition note_error (err : option addr) (lastError : option addr) : M (option addr) :=
  match err with
  | Some e => set_prev e lastError ;;; ret (Some e)
  | None => ret lastError
  end.

(** [cb(err ?? (!this.fss.length ? new Error('No file systems attached.') : undefined))];
    [n] is [this.fss.length]. *)
Definition last_one (n : nat) (err : option addr) : M (cb_call jsval) :=
  match err with
  | Some e => ret (CbErr e)
  | None =>
      if bool_decide (n = 0) then
        e <- new_Error "No file systems attached." ;; ret (CbErr e)
      else ret CbUndefined
  end.

(** [iterate] of [asyncMethod], for a call whose last argument is a callback
    ([args] are the arguments before it).  [todo] holds the entries from
    [this.fss[j]] down, [j = this.fss.length - i - 1]. *)
Fixpoint asyncMethod_iterate (n : nat) (method : string) (args : list jsval)
    (todo : list entry) (err : option addr) (lastError : option addr)
    : M (cb_call jsval) :=
  lastError' <- note_error err lastError ;;
  match todo with
  | [] => last_one n err
  | (fs, _) :: rest =>
      let j := length rest in
      match fs_async fs method with
      | None =>
          e <- new_Error ("Method not supported: " +:+ method) ;;
          asyncMethod_iterate n method args rest (Some e) lastError'
      | Some func =>
          invoke j method ;;;
          match func args with
          | CbError e => asyncMethod_iterate n method args rest (Some e) lastError'
          | CbResult v => ret (CbOk v)
          | SyncThrow e => asyncMethod_iterate n method args rest (Some e) lastError'
          end
      end
  end.

Definition asyncMethod (fss : list entry) (method : string) (args : list jsval)
    : M (cb_call jsval) :=
  asyncMethod_iterate (length fss) method args (reverse fss) None None.

(** The loop of [promiseMethod]; [Return] is a resolved promise, [Throw] a
    rejected one. *)
Fixpoint promiseMethod_loop (method : string) (args : list jsval)
    (todo : list entry) (lastError : option addr) : M (completion jsval) :=
  match todo with
  | [] => ret (Return JUndefined)
  | (theFs, _) :: rest =>
      let i := length rest in
      r <- match fs_promises theFs with
           | None => e <- new_Error (promise_not_supported method args) ;; ret (Throw e)
           | Some promises =>
               match p_method promises method with
               | None => e <- new_Error (promise_not_supported method args) ;; ret (Throw e)
               | Some f => invoke i method ;;; ret (f args)
               end
           end ;;
      match r with
      | Return v => ret (Return v)
      | Throw err =>
          set_prev err lastError ;;;
          if bool_decide (i = 0) then ret (Throw err)
          else promiseMethod_loop method args rest (Some err)
      end
  end.

Definition promiseMethod (fss : list entry) (method : string) (args : list jsval)
    : M (completion jsval) :=
  promiseMethod_loop method args (reverse fss) None.

(** ** open / openSync *)

(** The three tests on [flags] in [open] and [openSync]: does the access
    mode exclude an entry with these options? *)
Definition mode_skips (flags : string) (o : VolOptions) : bool :=
  (String.prefix "r" flags && is_false (readable o))
  || (String.prefix "w" flags && is_false (writable o))
  || (String.prefix "a" flags && (is_false (writable o) || is_false (readable o))).

(** [flags.startsWith] on a value that is not a string.  One text stands
    for the engine's message, which reads differently when [flags] is
    [undefined] or [null]. *)
Definition flags_TypeError : string := "TypeError: flags.startsWith is not a function".

(** [flags] in [open]: ['r'] when [args.length < 3], else [args[1]]; the
    callback is the last of the JavaScript arguments, after [args]. *)
Definition open_flags (args : list jsval) : jsval :=
  if bool_decide (length args + 1 < 3) then JStr "r" else default JUndefined (args !! 1).

(** [iterate] of [open], for a call whose last argument is a callback.  An
    entry that the mode excludes leads to [iterate(i + 1)], without error. *)
Fixpoint open_iterate (n : nat) (flags : jsval) (args : list jsval)
    (todo : list entry) (err : option addr) (lastError : option addr)
    : M (cb_result jsval) :=
  lastError' <- note_error err lastError ;;
  match todo with
  | [] => c <- last_one n err ;; ret (Called c)
  | (fs, o) :: rest =>
      let j := length rest in
      match flags with
      | JStr s =>
          if mode_skips s o then open_iterate n flags args rest None lastError'
          else
            match fs_open fs with
            | None =>
                e <- new_Error "Method not supported: open" ;;
                open_iterate n flags args rest (Some e) lastError'
            | Some func =>
                invoke j "open" ;;;
                match func args with
                | CbError e => open_iterate n flags args rest (Some e) lastError'
                | CbResult v => ret (Called (CbOk v))
                | SyncThrow e => open_iterate n flags args rest (Some e) lastError'
                end
            end
      | _ => e <- new_Error flags_TypeError ;; ret (Threw e)
      end
  end.

Definition open (fss : list entry) (args : list jsval) : M (cb_result jsval) :=
  open_iterate (length fss) (open_flags args) args (reverse fss) None None.

(** The loop of [openSync]; [flags] is [args[1]].  An entry that the mode
    excludes is passed over by [continue], before the [try] block. *)
Fixpoint openSync_loop (args : list jsval) (todo : list entry)
    (lastError : option addr) : M (completion jsval) :=
  match todo with
  | [] => ret (Return JUndefined)
  | (fs, o) :: rest =>
      let i := length rest in
      match default JUndefined (args !! 1) with
      | JStr flags =>
          if mode_skips flags o then openSync_loop args rest lastError
          else
            r <- match fs_openSync fs with
                 | None => e <- new_Error (not_supported "openSync" args) ;; ret (Throw e)
                 | Some f => invoke i "openSync" ;;; ret (f args)
                 end ;;
            match r with
            | Return v => ret (Return v)
            | Throw err =>
                set_prev err lastError ;;;
                if bool_decide (i = 0) then ret (Throw err)
                else openSync_loop args rest (Some err)
            end
      | _ => e <- new_Error flags_TypeError ;; ret (Throw e)
      end
  end.

Definition openSync (fss : list entry) (args : list jsval) : M (completion jsval) :=
  openSync_loop args (reverse fss) None.

(** ** Directory listing *)

Definition pathFromReaddirEntry (readdirEntry : readdirEntry) : string :=
  match readdirEntry with
  | EString s => s
  | EBuffer bytes => bytes
  | EDirent name _ => name
  end.

(** [Array.from(readdirResult.keys()).sort()], then the values in that
    order.  The [Map] is a finite map keyed by name; [sort()] orders the
    keys by their code units. *)
Definition sortedArrayFromReaddirResult (readdirResult : gmap string readdirEntry)
    : list readdirEntry :=
  omap (fun key => readdirResult !! key)
       (merge_sort String.le (map_to_list readdirResult).*1).

(** [for (const res of entries) result.set(this.pathFromReaddirEntry(res), res)] *)
Definition add_entries (entries : list readdirEntry) (result : gmap string readdirEntry)
    : gmap string readdirEntry :=
  foldl (fun m res => <[pathFromReaddirEntry res := res]> m) result entries.

(** The loop of [readdirSync]: every readable entry is visited; [result]
    is the [Map] built so far. *)
Fixpoint readdirSync_loop (args : list jsval) (todo : list entry)
    (lastError : option addr) (result : gmap string readdirEntry)
    : M (completion (list readdirEntry)) :=
  match todo with
  | [] => ret (Return (sortedArrayFromReaddirResult result))
  | (fs, o) :: rest =>
      let i := length rest in
      if is_false (readable o) then readdirSync_loop args rest lastError result
      else
        r <- match fs_readdirSync fs with
             | None => e <- new_Error (not_supported "readdirSync" args) ;; ret (Throw e)
             | Some f => invoke i "readdirSync" ;;; ret (f args)
             end ;;
        match r with
        | Return entries => readdirSync_loop args rest lastError (add_entries entries result)
        | Throw err =>
            set_prev err lastError ;;;
            if bool_decide (size result = 0) && bool_decide (i = 0) then ret (Throw err)
            else readdirSync_loop args rest (Some err) result
        end
  end.

Definition readdirSync (fss : list entry) (args : list jsval)
    : M (completion (list readdirEntry)) :=
  readdirSync_loop args (reverse fss) None ∅.

(** The loop of [readdirPromise], with [fs.promises.readdir] awaited. *)
Fixpoint readdirPromise_loop (args : list jsval) (todo : list entry)
    (lastError : option addr) (result : gmap string readdirEntry)
    : M (completion (list readdirEntry)) :=
  match todo with
  | [] => ret (Return (sortedArrayFromReaddirResult result))
  | (fs, o) :: rest =>
      let i := length rest in
      if is_false (readable o) then readdirPromise_loop args rest lastError result
      else
        r <- match fs_promises fs with
             | None => e <- new_Error (not_supported "readdirSync" args) ;; ret (Throw e)
             | Some promises =>
                 match p_readdir promises with
                 | None => e <- new_Error (not_supported "readdirSync" args) ;; ret (Throw e)
                 | Some f => invoke i "promises.readdir" ;;; ret (f args)
                 end
             end ;;
        match r with
        | Return entries => readdirPromise_loop args rest lastError (add_entries entries result)
        | Throw err =>
            set_prev err lastError ;;;
            if bool_decide (size result = 0) && bool_decide (i = 0) then ret (Throw err)
            else readdirPromise_loop args rest (Some err) result
        end
  end.

Definition readdirPromise (fss : list entry) (args : list jsval)
    : M (completion (list readdirEntry)) :=
  readdirPromise_loop args (reverse fss) None ∅.

(** [iterate] of the callback-style [readdir], called with a callback as
    last argument.  The backend's call is not guarded by [try]. *)
Fixpoint readdir_iterate (n : nat) (args : list jsval) (todo : list entry)
    (error : option addr) (lastError : option addr)
    (result : gmap string readdirEntry) : M (cb_result (list readdirEntry)) :=
  lastError' <- note_error error lastError ;;
  match todo with
  | [] =>
      e <- match error with
           | Some e => ret e
           | None => new_Error "No file systems attached."
           end ;;
      ret (Called (CbErr e))
  | (fs, o) :: rest =>
      let j := length rest in
      let i := n - j - 1 in
      match fs_readdir fs with
      | None =>
          e <- new_Error "Method not supported: readdir" ;;
          readdir_iterate n args rest (Some e) lastError' result
      | Some func =>
          if is_false (readable o) then
            e <- new_Error ("Readable disabled for vol '" +:+ pretty i +:+ "': readdir") ;;
            readdir_iterate n args rest (Some e) lastError' result
          else
            invoke j "readdir" ;;;
            match func args with
            | SyncThrow e => ret (Threw e)
            | CbError err =>
                if bool_decide (size result = 0) then
                  readdir_iterate n args rest (Some err) lastError' result
                else if bool_decide (i = n - 1) then
                  ret (Called (CbOk (sortedArrayFromReaddirResult result)))
                else readdir_iterate n args rest error lastError' result
            | CbResult resArg =>
                let result' := add_entries resArg result in
                if bool_decide (i = n - 1) then
                  ret (Called (CbOk (sortedArrayFromReaddirResult result')))
                else readdir_iterate n args rest error lastError' result'
            end
      end
  end.

Definition readdir (fss : list entry) (args : list jsval)
    : M (cb_result (list readdirEntry)) :=
  readdir_iterate (length fss) args (reverse fss) None None ∅.

(** ** Streams *)

(** [return stream] or [throw lastError], where [lastError] may still be
    [null]. *)
Inductive stream_completion :=
| StreamReturn (stream : jsval)
| StreamThrow (lastError : option addr).

Definition set_ReadStream (c : jsval) : M unit := fun w => (tt, with_ReadStream c w).
Definition set_WriteStream (c : jsval) : M unit := fun w => (tt, with_WriteStream c w).

(** The [try] block of [createReadStream] for entry [i]. *)
Definition createReadStream_try (i : nat) (fs : IFS) (path : string) : M (completion jsval) :=
  match fs_createReadStream fs with
  | None =>
      e <- new_Error ("Method not supported: " +:+ dquote +:+ "createReadStream" +:+ dquote) ;;
      ret (Throw e)
  | Some create =>
      found <- match fs_existsSync fs with
               | None => ret (Return (JBool true))
               | Some existsSync => invoke i "existsSync" ;;; ret (existsSync path)
               end ;;
      match found with
      | Throw e => ret (Throw e)
      | Return b =>
          if negb (truthy b) then
            e <- new_Error ("file " +:+ dquote +:+ path +:+ dquote +:+ " does not exists") ;;
            ret (Throw e)
          else
            invoke i "createReadStream" ;;;
            match create path with
            | Throw e => ret (Throw e)
            | Return stream =>
                if negb (truthy stream) then
                  e <- new_Error "no valid stream" ;; ret (Throw e)
                else set_ReadStream (fs_ReadStream fs) ;;; ret (Return stream)
            end
      end
  end.

(** [for (const [fs, { readable }] of this.fss)]: [todo] holds the entries
    from index [i] on. *)
Fixpoint createReadStream_loop (path : string) (todo : list entry) (i : nat)
    (lastError : option addr) : M stream_completion :=
  match todo with
  | [] => ret (StreamThrow lastError)
  | (fs, o) :: rest =>
      if is_false (readable o) then createReadStream_loop path rest (S i) lastError
      else
        r <- createReadStream_try i fs path ;;
        match r with
        | Return stream => ret (StreamReturn stream)
        | Throw err => createReadStream_loop path rest (S i) (Some err)
        end
  end.

Definition createReadStream (fss : list entry) (path : string) : M stream_completion :=
  createReadStream_loop path fss 0 None.

(** [options.fs = fs] *)
Definition set_fs (i : nat) (options : options_obj) : options_obj :=
  {| opt_fs := Some i; opt_rest := opt_rest options |}.

Definition invoke_with (i : nat) (method : string) (options : options_obj) : M unit :=
  fun w => (tt, with_calls (calls w ++ [InvokedWith i method options]) w).

(** The [try] block of [createWriteStream] for entry [i]; the second
    component is the state of the [options] object afterwards. *)
Definition createWriteStream_try (i : nat) (fs : IFS) (path : string)
    (options : options_obj) : M (completion jsval * options_obj) :=
  match fs_createWriteStream fs with
  | None =>
      e <- new_Error ("Method not supported: " +:+ dquote +:+ "createWriteStream" +:+ dquote) ;;
      ret (Throw e, options)
  | Some create =>
      let options' := set_fs i options in
      invoke_with i "createWriteStream" options' ;;;
      match create path options' with
      | Throw e => ret (Throw e, options')
      | Return stream =>
          if negb (truthy stream) then
            e <- new_Error "no valid stream" ;; ret (Throw e, options')
          else set_WriteStream (fs_WriteStream fs) ;;; ret (Return stream, options')
      end
  end.

Fixpoint createWriteStream_loop (path : string) (todo : list entry) (i : nat)
    (options : options_obj) (lastError : option addr)
    : M (stream_completion * options_obj) :=
  match todo with
  | [] => ret (StreamThrow lastError, options)
  | (fs, o) :: rest =>
      if is_false (writable o) then createWriteStream_loop path rest (S i) options lastError
      else
        r <- createWriteStream_try i fs path options ;;
        match r with
        | (Return stream, options') => ret (StreamReturn stream, options')
        | (Throw err, options') => createWriteStream_loop path rest (S i) options' (Some err)
        end
  end.

(** [createWriteStream(path, options)].  [options] is the state of the
    caller's object, or [None] when the argument is omitted
    ([options = options || {}]); the second component of the result is the
    state of that object when the call ends. *)
Definition createWriteStream (fss : list entry) (path : string)
    (options : option options_obj) : M (stream_completion * options_obj) :=
  createWriteStream_loop path fss 0
    (default {| opt_fs := None; opt_rest := [] |} options) None.


(** ** The access-mode requirement, in the words of the specification *)

(** A mode beginning with [r] excludes an entry with [readable = false], one
    beginning with [w] an entry with [writable = false], one beginning with
    [a] an entry lacking either flag. *)
Definition mode_excludes (flags : string) (o : VolOptions) : Prop :=
  (String.prefix "r" flags = true /\ readable o = Some false)
  \/ (String.prefix "w" flags = true /\ writable o = Some false)
  \/ (String.prefix "a" flags = true /\
      (readable o = Some false \/ writable o = Some false)).

(** The failure of an entry at [openSync]: the error its method throws, or,
    when it has no such method, an error object that did not exist in the
    store [h0] before the call (the union makes one). *)
Definition openSync_failure (args : list jsval) (h0 : list error_obj) (fs : IFS)
    (a : addr) : Prop :=
  match fs_openSync fs with
  | Some f => f args = Throw a
  | None => length h0 <= a
  end.

(** The failure of an entry at [open]: the error passed to the callback or
    thrown, or a fresh error object when the method is missing. *)
Definition open_failure (args : list jsval) (h0 : list error_obj) (fs : IFS)
    (a : addr) : Prop :=
  match fs_open fs with
  | Some func => func args = CbError a \/ func args = SyncThrow a
  | None => length h0 <= a
  end.

(** ** Auxiliary notions *)

(** An invocation of [method] on an entry of [reverse todo] that the mode
    [flags] does not exclude. *)
Definition eligible_call (flags : string) (method : string) (todo : list entry)
    (ev : event) : Prop :=
  exists j fs o, ev = Invoked j method /\ reverse todo !! j = Some (fs, o)
                 /\ mode_skips flags o = false.

(** Two entries with the same options and, unless the mode [flags] excludes
    them, the same backend. *)
Definition same_unless_skipped (flags : string) (e1 e2 : entry) : Prop :=
  e1.2 = e2.2 /\ (mode_skips flags e1.2 = false -> e1.1 = e2.1).

(** [linked h l]: in the store [h] the errors [l] are chained through
    [prev], each to the next one, the last to [null], and none occurs
    twice. *)
Fixpoint linked (h : list error_obj) (l : list addr) : Prop :=
  match l with
  | [] => True
  | e :: l' =>
      (exists o, h !! e = Some o /\ prev o = prev_of (head l'))
      /\ (e ∉ l') /\ linked h l'
  end.

(** The failure of an entry at the blocking [method]: the error its method
    throws, or, when it has no such method, an error object that did not
    exist in the store [h0] before the call. *)
Definition sync_failure (method : string) (args : list jsval) (h0 : list error_obj)
    (fs : IFS) (a : addr) : Prop :=
  match fs_method fs method with
  | Some f => f args = Throw a
  | None => length h0 <= a
  end.

(** The error object that the backend of an entry throws at [method], if it
    throws one. *)
Definition thrown_sync (method : string) (args : list jsval) (e : entry) : option addr :=
  match fs_method e.1 method with
  | Some f => match f args with Throw a => Some a | Return _ => None end
  | None => None
  end.

(** The same for [openSync] and [open], for entries that the mode [flags]
    does not exclude. *)
Definition thrown_openSync (flags : string) (args : list jsval) (e : entry) : option addr :=
  if mode_skips flags e.2 then None
  else match fs_openSync e.1 with
       | Some f => match f args with Throw a => Some a | Return _ => None end
       | None => None
       end.

Definition thrown_open (flags : string) (args : list jsval) (e : entry) : option addr :=
  if mode_skips flags e.2 then None
  else match fs_open e.1 with
       | Some func =>
           match func args with
           | CbError a | SyncThrow a => Some a
           | CbResult _ => None
           end
       | None => None
       end.

(** The entries that the mode [flags] does not exclude, in registry order. *)
Definition eligible_entries (flags : string) (fss : list entry) : list entry :=
  filter (fun e => mode_skips flags e.2 = false) fss.

(** The errors thrown by the entries of [todo] are distinct objects that
    exist in the store [h0] and are not in the chain [l]. *)
Definition unchained (h0 : list error_obj) (thrown : entry -> option addr)
    (todo : list entry) (l : list addr) : Prop :=
  NoDup (omap thrown todo)
  /\ Forall (fun a => a < length h0 /\ (a ∉ l)) (omap thrown todo).

(** ** Directory listings: what the entries report *)

(** The entry that a listing reports under [name]: the last one with that
    name. *)
Definition reported (entries : list readdirEntry) (name : string) : option readdirEntry :=
  last (filter (fun r => pathFromReaddirEntry r = name) entries).

(** What an entry adds to a blocking listing: the result of its
    [readdirSync] when it is readable, has the method and returns. *)
Definition listing_sync (args : list jsval) (e : entry) : option (list readdirEntry) :=
  if is_false (readable e.2) then None
  else match fs_readdirSync e.1 with
       | Some f => match f args with Return l => Some l | Throw _ => None end
       | None => None
       end.

(** The same for [promises.readdir]. *)
Definition listing_promise (args : list jsval) (e : entry) : option (list readdirEntry) :=
  if is_false (readable e.2) then None
  else match fs_promises e.1 with
       | Some promises =>
           match p_readdir promises with
           | Some f => match f args with Return l => Some l | Throw _ => None end
           | None => None
           end
       | None => None
       end.

(** The same for the callback-style [readdir]. *)
Definition listing_async (args : list jsval) (e : entry) : option (list readdirEntry) :=
  if is_false (readable e.2) then None
  else match fs_readdir e.1 with
       | Some func => match func args with CbResult l => Some l | _ => None end
       | None => None
       end.

(** Visiting an entry writes its listing, if it has one, into the map. *)
Definition merge_entry (listing : entry -> option (list readdirEntry))
    (m : gmap string readdirEntry) (e : entry) : gmap string readdirEntry :=
  match listing e with
  | Some l => add_entries l m
  | None => m
  end.

(** The map after the entries of [fss] have been visited, last one first. *)
Definition merged (listing : entry -> option (list readdirEntry)) (fss : list entry)
    : gmap string readdirEntry :=
  foldr (fun e m => merge_entry listing m e) ∅ fss.

(** Some entry of [fss] contributed a directory entry. *)
Definition contributed (listing : entry -> option (list readdirEntry)) (fss : list entry)
    : Prop :=
  exists e l r, e ∈ fss /\ listing e = Some l /\ r ∈ l.

(** Every key of the map is the name of the entry stored under it. *)
Definition keys_are_names (m : gmap string readdirEntry) : Prop :=
  forall k r, m !! k = Some r -> pathFromReaddirEntry r = k.

(** An entry that is visited (readable) and has no listing: its method is
    missing or fails. *)
Definition visited_and_failed (listing : entry -> option (list readdirEntry)) (e : entry)
    : bool :=
  negb (is_false (readable e.2))
  && match listing e with None => true | Some _ => false end.

(** Does the loop over [todo], started with the map [result], end in the
    branch that throws?  It does when the last entry visited fails while
    the map is still empty. *)
Fixpoint surfaces (listing : entry -> option (list readdirEntry)) (todo : list entry)
    (result : gmap string readdirEntry) : bool :=
  match todo with
  | [] => false
  | x :: rest =>
      match rest with
      | [] => visited_and_failed listing x && bool_decide (size result = 0)
      | _ => surfaces listing rest (merge_entry listing result x)
      end
  end.

(** ** The composite directory result, in the words of the specification *)

(** [entries] is sorted by name, holds no two entries of the same name, and
    for every name the entry it holds is the one reported by the entry of
    [fss] with the lowest index (the lowest priority) that reports it. *)
Definition composite_listing (listing : entry -> option (list readdirEntry))
    (fss : list entry) (entries : list readdirEntry) : Prop :=
  Sorted String.le (pathFromReaddirEntry <$> entries)
  /\ NoDup (pathFromReaddirEntry <$> entries)
  /\ forall i e l k r,
       fss !! i = Some e -> listing e = Some l -> reported l k = Some r ->
       (forall j e' l', j < i -> fss !! j = Some e' -> listing e' = Some l' ->
                        reported l' k = None) ->
       r ∈ entries
       /\ forall r', r' ∈ entries -> pathFromReaddirEntry r' = k -> r' = r.

(** The error condition of a listing as the specification states it: an
    error surfaces if and only if no backend contributed any entry. *)
Definition error_iff_nothing_contributed (fss : list entry) (args : list jsval)
    (w : world) : Prop :=
  (exists e w', readdirSync fss args w = (Throw e, w'))
  <-> ~ contributed (listing_sync args) fss.

(** ** Streams: which entry serves a request *)

(** The index of the entry on which a backend method was invoked. *)
Definition event_index (ev : event) : nat :=
  match ev with
  | Invoked i _ => i
  | InvokedWith i _ _ => i
  end.

(** The entry has [createReadStream], its existence check (when it has
    one) finds [path], and the method returns the truthy value [stream]. *)
Definition serves_read (path : string) (fs : IFS) (stream : jsval) : Prop :=
  exists create,
    fs_createReadStream fs = Some create
    /\ match fs_existsSync fs with
       | Some existsSync => exists b, existsSync path = Return b /\ truthy b = true
       | None => True
       end
    /\ create path = Return stream /\ truthy stream = true.

(** The entry at index [i] has [createWriteStream] and, given [options] with
    its [fs] property set to that entry, returns the truthy value [stream]. *)
Definition serves_write (path : string) (options : options_obj) (i : nat) (fs : IFS)
    (stream : jsval) : Prop :=
  exists create,
    fs_createWriteStream fs = Some create
    /\ create path (set_fs i options) = Return stream /\ truthy stream = true.

(** The delegations that [createWriteStream] makes when it tries every
    entry of [todo], the first of which has index [i]: one to each writable
    entry that has the method, in ascending order, each with the caller's
    object whose [fs] property holds that entry. *)
Fixpoint delegations (options : options_obj) (todo : list entry) (i : nat) : list event :=
  match todo with
  | [] => []
  | (fs, o) :: rest =>
      if is_false (writable o) then delegations options rest (S i)
      else
        match fs_createWriteStream fs with
        | None => delegations options rest (S i)
        | Some _ =>
            InvokedWith i "createWriteStream"
                        {| opt_fs := Some i; opt_rest := opt_rest options |}
            :: delegations options rest (S i)
        end
  end.

(** The order of attempts as the specification states it: the most recently
    registered entry first.  If a readable entry serves the request and
    every readable entry registered after it fails, its stream is the
    result. *)
Definition most_recent_first (fss : list entry) (path : string) (w : world) : Prop :=
  forall pre fs o post stream,
    fss = pre ++ (fs, o) :: post ->
    readable o <> Some false ->
    serves_read path fs stream ->
    Forall (fun x => readable x.2 = Some false \/ forall s, ~ serves_read path x.1 s) post ->
    (createReadStream fss path w).1 = StreamReturn stream.

(** The failure of an entry at the callback-style [method]. *)
Definition async_failure (method : string) (args : list jsval) (h0 : list error_obj)
    (fs : IFS) (a : addr) : Prop :=
  match fs_async fs method with
  | Some func => func args = CbError a \/ func args = SyncThrow a
  | None => length h0 <= a
  end.

Definition thrown_async (method : string) (args : list jsval) (e : entry) : option addr :=
  match fs_async e.1 method with
  | Some func =>
      match func args with
      | CbError a | SyncThrow a => Some a
      | CbResult _ => None
      end
  | None => None
  end.

(** The failure of an entry at the promise-style [method]. *)
Definition promise_failure (method : string) (args : list jsval) (h0 : list error_obj)
    (fs : IFS) (a : addr) : Prop :=
  match fs_promises fs with
  | Some promises =>
      match p_method promises method with
      | Some f => f args = Throw a
      | None => length h0 <= a
      end
  | None => length h0 <= a
  end.

Definition thrown_promise (method : string) (args : list jsval) (e : entry) : option addr :=
  match fs_promises e.1 with
  | Some promises =>
      match p_method promises method with
      | Some f => match f args with Throw a => Some a | Return _ => None end
      | None => None
      end
  | None => None
  end.

(** The error chain as the specification states it, for a generic blocking
    operation: whenever every backend fails, the error that surfaces heads
    a chain through [prev] that ends after one node per backend. *)
Definition chain_counts_attempts (fss : list entry) (method : string) (args : list jsval)
    (w : world) : Prop :=
  (forall fs o f v, (fs, o) ∈ fss -> fs_method fs method = Some f -> f args <> Return v) ->
  exists e w' fuel es,
    syncMethod fss method args w = (Throw e, w')
    /\ chain fuel (errors w') e = Some es
    /\ length es = length fss.

(** ** Sample backends and worlds *)

(** An entry all of whose single-target methods complete the same way in the
    three calling conventions: [Return v] is a returned value, a callback
    called with [(null, v)] and a resolved promise; [Throw e] is a thrown
    error, a callback called with [(e)] and a rejected promise. *)
Definition file_backend (r : completion jsval) : IFS := {|
  fs_method := fun _ => Some (fun _ => r);
  fs_async := fun _ => Some (fun _ => match r with Return v => CbResult v | Throw e => CbError e end);
  fs_promises := Some {| p_method := fun _ => Some (fun _ => r); p_readdir := None |};
  fs_open := Some (fun _ => match r with Return v => CbResult v | Throw e => CbError e end);
  fs_openSync := Some (fun _ => r);
  fs_readdir := None; fs_readdirSync := None;
  fs_existsSync := None; fs_createReadStream := None; fs_createWriteStream := None;
  fs_ReadStream := JUndefined; fs_WriteStream := JUndefined |}.

(** An entry that lists a directory the same way in the three conventions. *)
Definition dir_backend (r : completion (list readdirEntry)) : IFS := {|
  fs_method := fun _ => None; fs_async := fun _ => None;
  fs_promises := Some {| p_method := fun _ => None; p_readdir := Some (fun _ => r) |};
  fs_open := None; fs_openSync := None;
  fs_readdir := Some (fun _ => match r with Return l => CbResult l | Throw e => CbError e end);
  fs_readdirSync := Some (fun _ => r);
  fs_existsSync := None; fs_createReadStream := None; fs_createWriteStream := None;
  fs_ReadStream := JUndefined; fs_WriteStream := JUndefined |}.

(** An entry that creates streams; [found] is what its [existsSync]
    returns, when it has one. *)
Definition stream_backend (found : option jsval) (stream : completion jsval) (class : jsval)
    : IFS := {|
  fs_method := fun _ => None; fs_async := fun _ => None; fs_promises := None;
  fs_open := None; fs_openSync := None; fs_readdir := None; fs_readdirSync := None;
  fs_existsSync := (fun v => fun _ : string => Return v) <$> found;
  fs_createReadStream := Some (fun _ => stream);
  fs_createWriteStream := Some (fun _ _ => stream);
  fs_ReadStream := class; fs_WriteStream := class |}.

Definition readable_writable : VolOptions := {| readable := None; writable := None |}.
Definition not_readable : VolOptions := {| readable := Some false; writable := None |}.

(** Wrapping left out: the registered object is used as it is. *)
Definition plain_createFS (fs : IFS) (_ : VolOptions) : IFS := fs.

(** A world with three error objects that backends may throw. *)
Definition sample_world : world :=
  World [Error_obj "ENOENT: a" PrevUndefined; Error_obj "ENOENT: b" PrevUndefined;
         Error_obj "EACCES: c" PrevUndefined]
        JUndefined JUndefined [].

(** Three backends that fail, each with its own error object. *)
Definition failing_registry : list entry :=
  [(file_backend (Throw 0), readable_writable);
   (file_backend (Throw 1), readable_writable);
   (file_backend (Throw 2), readable_writable)].

(** Backend A (registered first) lists [a] and [b], backend B (registered
    second, higher priority) lists [b] and [c]. *)
Definition two_directories : list entry :=
  [(dir_backend (Return [EDirent "a" 1; EDirent "b" 1]), readable_writable);
   (dir_backend (Return [EDirent "b" 2; EDirent "c" 2]), readable_writable)].

(** A single readable backend whose directory is empty. *)
Definition empty_directory : list entry :=
  [(dir_backend (Return []), readable_writable)].

(** A backend that fails, registered before one that lists a file. *)
Definition failing_then_listing : list entry :=
  [(dir_backend (Throw 0), readable_writable);
   (dir_backend (Return [EString "file.txt"]), readable_writable)].

(** Two backends that both serve any stream request: A (registered first)
    with stream object 1, B (registered second) with stream object 2. *)
Definition two_streams : list entry :=
  [(stream_backend (Some (JBool true)) (Return (JObj 1)) (JObj 10), readable_writable);
   (stream_backend (Some (JBool true)) (Return (JObj 2)) (JObj 20), readable_writable)].

(** An entry registered as not readable, then a readable one that lists a
    file. *)
Definition unreadable_then_listing : list entry :=
  [(dir_backend (Return [EString "hidden.txt"]), not_readable);
   (dir_backend (Return [EString "file.txt"]), readable_writable)].

(** Two backends that fail with one and the same error object. *)
Definition shared_error_registry : list entry :=
  [(file_backend (Throw 0), readable_writable);
   (file_backend (Throw 0), readable_writable)].

(** * The rest of [Union] *)

(** ** existsSync *)

(** Calling a member that the entry does not have. *)
Definition not_a_function (member : string) : string :=
  "TypeError: fs." +:+ member +:+ " is not a function".

(** [existsSync(path)]: the entries are visited from index 0; whatever the
    [try] block throws, also the [TypeError] of a missing [fs.existsSync],
    is dropped by the empty [catch]. *)
Fixpoint existsSync_loop (path : string) (todo : list entry) (i : nat) : M bool :=
  match todo with
  | [] => ret false
  | (fs, o) :: rest =>
      if is_false (readable o) then existsSync_loop path rest (S i)
      else
        r <- match fs_existsSync fs with
             | None => e <- new_Error (not_a_function "existsSync") ;; ret (Throw e)
             | Some f => invoke i "existsSync" ;;; ret (f path)
             end ;;
        match r with
        | Return v => if truthy v then ret true else existsSync_loop path rest (S i)
        | Throw _ => existsSync_loop path rest (S i)
        end
  end.

Definition existsSync (fss : list entry) (path : string) : M bool :=
  existsSync_loop path fss 0.

(** ** watch / watchFile *)

(** [fs.watch] and [fs.watchFile] are the members [fs["watch"]] and
    [fs["watchFile"]] of the entry. *)

(** [fs.watch.apply(fs, args)] on an entry without the member: the engine's
    [TypeError] for reading [apply] of [undefined]. *)
Definition no_apply : string :=
  "TypeError: Cannot read properties of undefined (reading 'apply')".

(** The loop of [watch]; [watchers] is the array built so far. *)
Fixpoint watch_loop (args : list jsval) (todo : list entry) (i : nat)
    (watchers : list jsval) : M (list jsval) :=
  match todo with
  | [] => ret watchers
  | (fs, o) :: rest =>
      if is_false (readable o) then watch_loop args rest (S i) watchers
      else
        r <- match fs_method fs "watch" with
             | None => e <- new_Error no_apply ;; ret (Throw e)
             | Some f => invoke i "watch" ;;; ret (f args)
             end ;;
        match r with
        | Return watcher => watch_loop args rest (S i) (watchers ++ [watcher])
        | Throw _ => watch_loop args rest (S i) watchers
        end
  end.

(** [watch(...args)]: the result is the array handed to [createFSProxy]. *)
Definition watch (fss : list entry) (args : list jsval) : M (list jsval) :=
  watch_loop args fss 0 [].

Fixpoint watchFile_loop (args : list jsval) (todo : list entry) (i : nat) : M unit :=
  match todo with
  | [] => ret tt
  | (fs, o) :: rest =>
      if is_false (readable o) then watchFile_loop args rest (S i)
      else
        r <- match fs_method fs "watchFile" with
             | None => e <- new_Error no_apply ;; ret (Throw e)
             | Some f => invoke i "watchFile" ;;; ret (f args)
             end ;;
        match r with
        | Return _ => watchFile_loop args rest (S i)
        | Throw _ => watchFile_loop args rest (S i)
        end
  end.

Definition watchFile (fss : list entry) (args : list jsval) : M unit :=
  watchFile_loop args fss 0.

(** ** createFSProxy *)

(** The value of a property of a watcher: a function, or anything else. *)
Inductive property_value :=
| PFunction (f : list jsval -> completion jsval)
| PValue (v : jsval).

(** What the [get] trap of the proxy returns: the function that calls
    [funcCallers], or [prop]. *)
Inductive proxy_property :=
| PBroadcast (funcCallers : list (jsval * (list jsval -> completion jsval)))
| PReturn (prop : property_value).

Section Proxy.
(** [watcher[property]], for the watcher objects of the backends. *)
Variable get : jsval -> string -> property_value.

(** The [for] loop of the [get] trap. *)
Fixpoint get_loop (property : string) (watchers : list jsval)
    (funcCallers : list (jsval * (list jsval -> completion jsval)))
    (prop : property_value)
    : list (jsval * (list jsval -> completion jsval)) * property_value :=
  match watchers with
  | [] => (funcCallers, prop)
  | watcher :: rest =>
      let prop' := get watcher property in
      get_loop property rest
        match prop' with
        | PFunction f => funcCallers ++ [(watcher, f)]
        | PValue _ => funcCallers
        end
        prop'
  end.

(** [get(_obj, property)] of [createFSProxy(watchers)]; [prop] starts as
    [undefined]. *)
Definition proxy_get (watchers : list jsval) (property : string) : proxy_property :=
  let '(funcCallers, prop) := get_loop property watchers [] (PValue JUndefined) in
  if bool_decide (length funcCallers = 0) then PReturn prop
  else PBroadcast funcCallers.
End Proxy.

(** The function returned for a property that some watcher has as a
    function: [for (const [watcher, func] of funcCallers) func.apply(watcher, args)].
    The result lists the watchers whose function was entered, and how the
    call ends; nothing catches what a function throws. *)
Fixpoint broadcast (funcCallers : list (jsval * (list jsval -> completion jsval)))
    (args : list jsval) : list jsval * completion jsval :=
  match funcCallers with
  | [] => ([], Return JUndefined)
  | (watcher, func) :: rest =>
      match func args with
      | Throw e => ([watcher], Throw e)
      | Return _ =>
          let '(called, r) := broadcast rest args in (watcher :: called, r)
      end
  end.

(** ** createFS *)

Section CreateFS.
(** The tables of [./lists]. *)
Variables fsSyncMethodsWrite fsSyncMethodsRead : list string.
Variables fsAsyncMethodsWrite fsAsyncMethodsRead : list string.
Variables fsPromiseMethodsWrite fsPromiseMethodsRead : list string.

(** [{ readable = true, writable = true }]: the defaults of the parameter. *)
Definition is_readable (o : VolOptions) : bool := default true (readable o).
Definition is_writable (o : VolOptions) : bool := default true (writable o).

(** Which table decides about the member [method] of the object that
    [createFS] returns: the spreads are applied in the order sync read, sync
    write, async read, async write, so the last table that has the name
    wins.  The result is the direction of that table and whether the
    options allow it; [None] when no table has the name. *)
Definition createFS_table (o : VolOptions) (method : string) : option (string * bool) :=
  if bool_decide (method ∈ fsAsyncMethodsWrite) then Some ("writable", is_writable o)
  else if bool_decide (method ∈ fsAsyncMethodsRead) then Some ("readable", is_readable o)
  else if bool_decide (method ∈ fsSyncMethodsWrite) then Some ("writable", is_writable o)
  else if bool_decide (method ∈ fsSyncMethodsRead) then Some ("readable", is_readable o)
  else None.

(** [createErroringFn(state)], as a blocking function. *)
Definition createErroringFn (state : string) (args : list jsval) : M (completion jsval) :=
  e <- new_Error ("Filesystem is not " +:+ state) ;; ret (Throw e).

(** [createFunc(method)], as a blocking function. *)
Definition createFunc (fs : IFS) (method : string) (args : list jsval)
    : M (completion jsval) :=
  match fs_method fs method with
  | None => e <- new_Error (not_supported method args) ;; ret (Throw e)
  | Some f => ret (f args)
  end.

(** The member [method] of [createFS(fs, options)], called as a blocking
    function; [None] when the object has no such member.  A name that is in
    no table is a member only if the spread [...fs] copies it from [fs]. *)
Definition createFS_method (fs : IFS) (o : VolOptions) (method : string)
    : option (list jsval -> M (completion jsval)) :=
  match createFS_table o method with
  | Some (state, allowed) =>
      Some (if allowed then createFunc fs method else createErroringFn state)
  | None => (fun f args => ret (f args)) <$> fs_method fs method
  end.

(** The same member called with a callback as last argument: what the
    wrappers throw is thrown by the call itself.  The message of a missing
    method lists [args] without the source text of the callback. *)
Definition createFS_async (fs : IFS) (o : VolOptions) (method : string)
    : option (list jsval -> M (async_outcome jsval)) :=
  match createFS_table o method with
  | Some (state, allowed) =>
      Some (fun args =>
              if allowed then
                match fs_async fs method with
                | None => e <- new_Error (not_supported method args) ;; ret (SyncThrow e)
                | Some f => ret (f args)
                end
              else e <- new_Error ("Filesystem is not " +:+ state) ;; ret (SyncThrow e))
  | None => (fun f args => ret (f args)) <$> fs_async fs method
  end.

(** [fs.promises[method]] of the entry, if there is one. *)
Definition raw_promise (fs : IFS) (method : string)
    : option (list jsval -> completion jsval) :=
  match fs_promises fs with
  | Some promises => p_method promises method
  | None => None
  end.

(** One step of the two [reduce] calls that build [promises]. *)
Definition promise_wrapper (fs : IFS) (method : string) (state : string) (allowed : bool)
    (args : list jsval) : M (completion jsval) :=
  match raw_promise fs method with
  | None => e <- new_Error (promise_not_supported method args) ;; ret (Throw e)
  | Some f =>
      if allowed then ret (f args)
      else e <- new_Error ("Filesystem is not " +:+ state) ;; ret (Throw e)
  end.

(** The member [method] of [createFS(fs, options).promises]. *)
Definition createFS_promise (fs : IFS) (o : VolOptions) (method : string)
    : option (list jsval -> M (completion jsval)) :=
  if bool_decide (method ∈ fsPromiseMethodsWrite) then
    Some (promise_wrapper fs method "writable" (is_writable o))
  else if bool_decide (method ∈ fsPromiseMethodsRead) then
    Some (promise_wrapper fs method "readable" (is_readable o))
  else (fun f args => ret (f args)) <$> raw_promise fs method.
End CreateFS.

(** ** Auxiliary notions for the properties of the rest *)

(** A blocking completion as the call of a callback. *)
Definition as_callback (r : completion jsval) : cb_call jsval :=
  match r with
  | Return v => CbOk v
  | Throw e => CbErr e
  end.

(** A callback-style method that does what a blocking one does. *)
Definition mirrors (r : completion jsval) (a : async_outcome jsval) : Prop :=
  match r with
  | Return v => a = CbResult v
  | Throw e => a = CbError e \/ a = SyncThrow e
  end.

(** The watcher that an entry hands to [watch], if it hands one. *)
Definition watcher_of (args : list jsval) (e : entry) : option jsval :=
  if is_false (readable e.2) then None
  else match fs_method e.1 "watch" with
       | Some f => match f args with Return watcher => Some watcher | Throw _ => None end
       | None => None
       end.

(** Does the entry answer the existence check with a truthy value? *)
Definition answers_exists (path : string) (e : entry) : bool :=
  negb (is_false (readable e.2))
  && match fs_existsSync e.1 with
     | Some f => match f path with Return v => truthy v | Throw _ => false end
     | None => false
     end.

(** The entry implements [method] in its three forms, and for [args] they
    complete alike: the promise settles as the blocking call completes, and
    the callback form reports that value, or that error by callback or by
    throwing it. *)
Definition mirrored (method : string) (args : list jsval) (x : entry) : Prop :=
  exists f g p f',
    fs_method x.1 method = Some f
    /\ fs_async x.1 method = Some g
    /\ fs_promises x.1 = Some p /\ p_method p method = Some f'
    /\ f' args = f args
    /\ mirrors (f args) (g args).

(** An entry whose [open] and [openSync] are its generic members of these
    names. *)
Definition generic_open (x : entry) : entry :=
  ({| fs_method := fs_method x.1; fs_async := fs_async x.1;
      fs_promises := fs_promises x.1;
      fs_open := fs_async x.1 "open"; fs_openSync := fs_method x.1 "openSync";
      fs_readdir := fs_readdir x.1; fs_readdirSync := fs_readdirSync x.1;
      fs_existsSync := fs_existsSync x.1;
      fs_createReadStream := fs_createReadStream x.1;
      fs_createWriteStream := fs_createWriteStream x.1;
      fs_ReadStream := fs_ReadStream x.1; fs_WriteStream := fs_WriteStream x.1 |}, x.2).

(** ** Which entries a listing visits *)

(** Does the backend have the member? *)
Definition implements {A} (member : option A) : bool :=
  match member with Some _ => true | None => false end.

(** [fs.promises.readdir], when both exist. *)
Definition promised_readdir (fs : IFS)
    : option (list jsval -> completion (list readdirEntry)) :=
  match fs_promises fs with
  | Some promises => p_readdir promises
  | None => None
  end.

(** The invocations of [method] on the readable entries of [todo] that have
    it, from the head of [todo] on; the head has the highest index. *)
Fixpoint visited (method : string) (has : IFS -> bool) (todo : list entry) : list event :=
  match todo with
  | [] => []
  | (fs, o) :: rest =>
      if is_false (readable o) || negb (has fs) then visited method has rest
      else Invoked (length rest) method :: visited method has rest
  end.

(** No readable entry's [readdir] throws instead of calling back. *)
Definition calls_back (args : list jsval) (x : entry) : Prop :=
  readable x.2 <> Some false ->
  forall func e, fs_readdir x.1 = Some func -> func args <> SyncThrow e.

(** Every entry of the array was reported by an entry of the registry, and
    every name that an entry of the registry reported is in the array. *)
Definition holds_what_was_reported (listing : entry -> option (list readdirEntry))
    (fss : list entry) (entries : list readdirEntry) : Prop :=
  (forall r, r ∈ entries -> exists e l, e ∈ fss /\ listing e = Some l /\ r ∈ l)
  /\ (forall e l r, e ∈ fss -> listing e = Some l -> r ∈ l ->
                    pathFromReaddirEntry r ∈ pathFromReaddirEntry <$> entries).

(** ** The outcome of the callback-style listing *)

(** The callback-style [readdir] makes an error of its own for an entry
    that is registered as not readable or has no [readdir]. *)
Definition refused (x : entry) : bool :=
  is_false (readable x.2) || negb (implements (fs_readdir x.1)).

(** The entry visited last ends the listing with an error: it is refused,
    or it has no listing while the map is still empty. *)
Definition last_fails (args : list jsval) (x : entry) (result : gmap string readdirEntry)
    : bool :=
  refused x || (negb (implements (listing_async args x)) && bool_decide (size result = 0)).

(** Does [iterate] over [todo], started with the map [result], end with an
    error handed to the callback? *)
Fixpoint cb_surfaces (args : list jsval) (todo : list entry)
    (result : gmap string readdirEntry) : bool :=
  match todo with
  | [] => true
  | x :: rest =>
      match rest with
      | [] => last_fails args x result
      | _ => cb_surfaces args rest (merge_entry (listing_async args) result x)
      end
  end.

(** How a run of the callback-style listing ended, against what is
    expected: an error handed to the callback when [fails], the sorted
    array of the map [m] otherwise. *)
Definition cb_outcome (fails : bool) (m : gmap string readdirEntry)
    (r : cb_result (list readdirEntry) * world) : Prop :=
  if fails then exists e, r.1 = Called (CbErr e)
  else r.1 = Called (CbOk (sortedArrayFromReaddirResult m)).

(** The registry is empty, or the entry registered first is not readable,
    has no [readdir], or fails while no entry registered after it has
    contributed a directory entry. *)
Definition callback_listing_fails (args : list jsval) (fss : list entry) : Prop :=
  fss = []
  \/ exists x rest,
       fss = x :: rest
       /\ (readable x.2 = Some false
           \/ fs_readdir x.1 = None
           \/ (listing_async args x = None /\ ~ contributed (listing_async args) rest)).

(** [readdirSync] and [promises.readdir] of the entry are both missing, or
    both complete alike for [args]. *)
Definition readdir_mirrored (args : list jsval) (x : entry) : Prop :=
  (fun f => f args) <$> promised_readdir x.1 = (fun f => f args) <$> fs_readdirSync x.1.

(** ** Loops that drop errors *)

(** From [w] to [w'] error objects were only created: the objects of [w]
    are as they were, and no [prev] of a new one has been assigned. *)
Definition only_appends (w w' : world) : Prop :=
  exists new, errors w' = errors w ++ new /\ Forall (fun e => prev e = PrevUndefined) new.

(** The invocations of [method] on the readable entries of [todo] that have
    it, in a loop that goes forward from index [i]. *)
Fixpoint asked (method : string) (has : IFS -> bool) (todo : list entry) (i : nat)
    : list event :=
  match todo with
  | [] => []
  | (fs, o) :: rest =>
      if is_false (readable o) || negb (has fs) then asked method has rest (S i)
      else Invoked i method :: asked method has rest (S i)
  end.

(** ** The proxy over the watchers *)

(** The watchers that have [property] as a function, with that function,
    in the order of the array. *)
Definition holders (get : jsval -> string -> property_value) (watchers : list jsval)
    (property : string) : list (jsval * (list jsval -> completion jsval)) :=
  omap (fun watcher => match get watcher property with
                       | PFunction f => Some (watcher, f)
                       | PValue _ => None
                       end) watchers.

(** The state in which a call that creates the error [message] and throws
    it leaves [w]. *)
Definition thrown_new (message : string) (w : world) : world :=
  with_errors (errors w ++ [Error_obj message PrevUndefined]) w.

(** Sample tables: one method that reads, one that writes, in each form. *)
Definition sample_tables (form : string) : list string :=
  if bool_decide (form = "syncRead") then ["readFileSync"]
  else if bool_decide (form = "syncWrite") then ["writeFileSync"]
  else if bool_decide (form = "asyncRead") then ["readFile"]
  else if bool_decide (form = "asyncWrite") then ["writeFile"]
  else if bool_decide (form = "promiseRead") then ["readFile"]
  else ["writeFile"].

(** ** The generic blocking operation over what [use] stores *)

(** The blocking members of an object stored in [fss].  The members of
    [createFS(fs, options)] create an error object when they throw one of
    their own, so a call acts on the state. *)
Definition stored_fs : Type := string -> option (list jsval -> M (completion jsval)).

(** The [try] block of [syncMethod] for the stored object [fs] at index [i];
    the event records that the member of the stored object is entered. *)
Definition syncMethod_try (method : string) (args : list jsval) (i : nat) (fs : stored_fs)
    : M (completion jsval) :=
  match fs method with
  | None => e <- new_Error (not_supported method args) ;; ret (Throw e)
  | Some f => invoke i method ;;; f args
  end.

(** The loop of [syncMethod] over stored objects; the head of [todo] has
    the highest index. *)
Fixpoint syncMethod_stored_loop (method : string) (args : list jsval)
    (todo : list stored_fs) (lastError : option addr) : M (completion jsval) :=
  match todo with
  | [] => ret (Return JUndefined)
  | fs :: rest =>
      let i := length rest in
      r <- syncMethod_try method args i fs ;;
      match r with
      | Return v => ret (Return v)
      | Throw err =>
          set_prev err lastError ;;;
          if bool_decide (i = 0) then ret (Throw err)
          else syncMethod_stored_loop method args rest (Some err)
      end
  end.

Definition syncMethod_stored (fss : list stored_fs) (method : string) (args : list jsval)
    : M (completion jsval) :=
  if bool_decide (length fss = 0) then
    e <- new_Error "No file systems attached" ;; ret (Throw e)
  else syncMethod_stored_loop method args (reverse fss) None.

Section Registered.
Variables fsSyncMethodsWrite fsSyncMethodsRead : list string.
Variables fsAsyncMethodsWrite fsAsyncMethodsRead : list string.

(** What [use] has stored after the backends of [fss] were registered in
    this order with these options: [createFS(fs, options)] for each. *)
Definition registered (fss : list entry) : list stored_fs :=
  (fun x => createFS_method fsSyncMethodsWrite fsSyncMethodsRead
              fsAsyncMethodsWrite fsAsyncMethodsRead x.1 x.2) <$> fss.

(** The capability that the options deny to [method], if they deny it one. *)
Definition denial (o : VolOptions) (method : string) : option string :=
  match createFS_table fsSyncMethodsWrite fsSyncMethodsRead
          fsAsyncMethodsWrite fsAsyncMethodsRead o method with
  | Some (state, false) => Some state
  | _ => None
  end.

(** The options of the entry deny [method], or its backend has the method
    and does not return from it for [args], or has no such method. *)
Definition denied_or_fails (method : string) (args : list jsval) (x : entry) : Prop :=
  is_Some (denial x.2 method)
  \/ forall g u, fs_method x.1 method = Some g -> g args <> Return u.
End Registered.
(** * Properties *)

(** Unfolds the monadic plumbing of one step. *)
Ltac mstep :=
  cbn [bind ret new_Error set_prev invoke invoke_with note_error last_one
       set_ReadStream set_WriteStream].
Tactic Notation "mstep" "in" hyp(H) :=
  cbn [bind ret new_Error set_prev invoke invoke_with note_error last_one
       set_ReadStream set_WriteStream] in H.

Lemma bool_decide_length_snoc {A} (l : list A) (x : A) :
  bool_decide (length (l ++ [x]) = 0) = false.
Proof. apply bool_decide_eq_false. rewrite length_app. simpl. lia. Qed.

(** ** Ordered fallback: the first attempt *)

(** C1. On a registry whose most recently registered entry (the highest
    priority) has the method and succeeds, a generic operation, in its
    blocking, callback and promise forms, returns that entry's result; the
    only backend method invoked is that entry's, and nothing else changes. *)
Theorem highest_priority_success_wins
    (createFS : IFS -> VolOptions -> IFS) (fss : list entry) (fs0 : IFS)
    (options : VolOptions) (method : string) (args : list jsval) (w : world) :
  let fs := createFS fs0 options in
  let registry := use createFS fss fs0 options in
  let w' := with_calls (calls w ++ [Invoked (length fss) method]) w in
  (forall f v, fs_method fs method = Some f -> f args = Return v ->
     syncMethod registry method args w = (Return v, w'))
  /\ (forall f v, fs_async fs method = Some f -> f args = CbResult v ->
     asyncMethod registry method args w = (CbOk v, w'))
  /\ (forall p f v, fs_promises fs = Some p -> p_method p method = Some f ->
     f args = Return v ->
     promiseMethod registry method args w = (Return v, w')).
Proof.
  intros fs registry w'. subst fs registry w'. unfold use.
  split; [|split].
  - intros f v Hm Hf. unfold syncMethod.
    rewrite bool_decide_length_snoc, reverse_snoc. simpl.
    rewrite Hm. mstep. rewrite Hf, length_reverse. reflexivity.
  - intros f v Hm Hf. unfold asyncMethod. rewrite reverse_snoc. simpl.
    rewrite Hm. mstep. rewrite Hf, length_reverse. reflexivity.
  - intros p f v Hp Hm Hf. unfold promiseMethod. rewrite reverse_snoc. simpl.
    rewrite Hp, Hm. mstep. rewrite Hf, length_reverse. reflexivity.
Qed.

Lemma highest_priority_success_wins_witness :
  syncMethod (use plain_createFS [(file_backend (Throw 0), readable_writable)]
                  (file_backend (Return (JNum 7))) readable_writable)
             "statSync" [JStr "/f"] sample_world
  = (Return (JNum 7), with_calls [Invoked 1 "statSync"] sample_world).
Proof.
  apply (proj1 (highest_priority_success_wins plain_createFS
                  [(file_backend (Throw 0), readable_writable)]
                  (file_backend (Return (JNum 7))) readable_writable
                  "statSync" [JStr "/f"] sample_world) (fun _ => Return (JNum 7)) (JNum 7));
    reflexivity.
Defined.

(** ** The empty registry *)

(** On an empty registry the guarded forms fail with their own fresh error:
    [syncMethod] throws it, [asyncMethod] and [open] pass it to the callback. *)
Lemma empty_registry_guarded (method : string) (args : list jsval) (w : world) :
  syncMethod [] method args w
    = (Throw (length (errors w)),
       with_errors (errors w ++ [Error_obj "No file systems attached" PrevUndefined]) w)
  /\ asyncMethod [] method args w
    = (CbErr (length (errors w)),
       with_errors (errors w ++ [Error_obj "No file systems attached." PrevUndefined]) w)
  /\ open [] args w
    = (Called (CbErr (length (errors w))),
       with_errors (errors w ++ [Error_obj "No file systems attached." PrevUndefined]) w).
Proof. repeat split. Qed.

(** C2. On an empty registry [openSync] and [promiseMethod] do not fail:
    the loop body never runs, [openSync] returns [undefined] and the promise
    resolves with [undefined]; no error object is created. *)
Theorem empty_registry_unguarded (method : string) (args : list jsval) (w : world) :
  openSync [] args w = (Return JUndefined, w)
  /\ promiseMethod [] method args w = (Return JUndefined, w).
Proof. split; reflexivity. Qed.

(** ** Capability gating of open / openSync *)

Lemma is_false_true (flag : option bool) : is_false flag = true <-> flag = Some false.
Proof. destruct flag as [[]|]; simpl; split; congruence. Qed.

Lemma is_false_false (flag : option bool) : flag <> Some false -> is_false flag = false.
Proof. by destruct flag as [[]|]. Qed.

Lemma mode_excludes_skips (flags : string) (o : VolOptions) :
  mode_excludes flags o <-> mode_skips flags o = true.
Proof.
  unfold mode_excludes, mode_skips.
  rewrite !orb_true_iff, !andb_true_iff, !orb_true_iff, !is_false_true. tauto.
Qed.

Lemma flags_lookup (args : list jsval) (flags : string) :
  args !! 1 = Some (JStr flags) -> default JUndefined (args !! 1) = JStr flags.
Proof. intros ->. reflexivity. Qed.

Lemma note_error_calls (err lastError : option addr) (w : world) :
  calls (note_error err lastError w).2 = calls w.
Proof. by destruct err. Qed.

Section Gating.
Variable flags : string.
Variable args : list jsval.

Lemma openSync_loop_all_skipped (todo : list entry) (lastError : option addr) (w : world) :
  args !! 1 = Some (JStr flags) ->
  Forall (fun e => mode_skips flags e.2 = true) todo ->
  openSync_loop args todo lastError w = (Return JUndefined, w).
Proof.
  intros Hf. apply flags_lookup in Hf. induction 1 as [|[fs o] rest Hs _ IH]; simpl; [done|].
  rewrite Hf. simpl in Hs. rewrite Hs. exact IH.
Qed.

Lemma open_iterate_all_skipped (n : nat) (todo : list entry) (lastError : option addr)
    (w : world) :
  n <> 0 ->
  Forall (fun e => mode_skips flags e.2 = true) todo ->
  open_iterate n (JStr flags) args todo None lastError w = (Called CbUndefined, w).
Proof.
  intros Hn. induction 1 as [|[fs o] rest Hs _ IH]; simpl.
  - mstep. rewrite bool_decide_eq_false_2 by done. reflexivity.
  - mstep. simpl in Hs. rewrite Hs. exact IH.
Qed.

(** *** Skipped entries are not invoked *)

Lemma eligible_call_cons (method : string) (x : entry) (todo : list entry) (ev : event) :
  eligible_call flags method todo ev -> eligible_call flags method (x :: todo) ev.
Proof.
  intros (j & fs & o & -> & Hj & Ho). exists j, fs, o. split; [done|]. split; [|done].
  rewrite reverse_cons. by apply lookup_app_l_Some.
Qed.

Lemma eligible_call_head (method : string) (fs : IFS) (o : VolOptions) (rest : list entry) :
  mode_skips flags o = false ->
  eligible_call flags method ((fs, o) :: rest) (Invoked (length rest) method).
Proof.
  intros Ho. exists (length rest), fs, o. split; [done|]. split; [|done].
  rewrite reverse_cons. rewrite <- (length_reverse rest).
  by rewrite list_lookup_middle.
Qed.

Lemma openSync_loop_calls (todo : list entry) (lastError : option addr) (w : world) :
  args !! 1 = Some (JStr flags) ->
  exists evs, calls (openSync_loop args todo lastError w).2 = calls w ++ evs
              /\ Forall (eligible_call flags "openSync" todo) evs.
Proof.
  intros Hf. apply flags_lookup in Hf. revert lastError w.
  induction todo as [|[fs o] rest IH]; intros lastError w; simpl.
  { exists []. by rewrite app_nil_r. }
  rewrite Hf. destruct (mode_skips flags o) eqn:Ho.
  { destruct (IH lastError w) as (evs & -> & Hevs). exists evs. split; [done|].
    eapply Forall_impl; [exact Hevs|]. apply eligible_call_cons. }
  destruct (fs_openSync fs) as [f|]; mstep.
  - destruct (f args) as [v|err]; mstep.
    { exists [Invoked (length rest) "openSync"]. split; [done|].
      constructor; [|constructor]. by apply eligible_call_head. }
    case_bool_decide.
    + exists [Invoked (length rest) "openSync"]. split; [done|].
      constructor; [|constructor]. by apply eligible_call_head.
    + match goal with |- context [openSync_loop args rest ?le ?w1] =>
        destruct (IH le w1) as (evs & -> & Hevs) end.
      exists (Invoked (length rest) "openSync" :: evs). simpl. rewrite <- app_assoc.
      split; [done|]. constructor; [by apply eligible_call_head|].
      eapply Forall_impl; [exact Hevs|]. apply eligible_call_cons.
  - case_bool_decide.
    + exists []. by rewrite app_nil_r.
    + match goal with |- context [openSync_loop args rest ?le ?w1] =>
        destruct (IH le w1) as (evs & -> & Hevs) end.
      exists evs. split; [done|].
      eapply Forall_impl; [exact Hevs|]. apply eligible_call_cons.
Qed.

Lemma open_iterate_calls (n : nat) (todo : list entry) (err lastError : option addr)
    (w : world) :
  exists evs, calls (open_iterate n (JStr flags) args todo err lastError w).2 = calls w ++ evs
              /\ Forall (eligible_call flags "open" todo) evs.
Proof.
  revert err lastError w.
  induction todo as [|[fs o] rest IH]; intros err lastError w; simpl.
  { exists []. rewrite app_nil_r. destruct err; mstep; [done|]. by case_bool_decide. }
  unfold bind at 1. destruct (note_error err lastError w) as [le' w2] eqn:Hn.
  rewrite <- (note_error_calls err lastError w), Hn. simpl. clear Hn w. revert w2. intros w.
  assert (forall e le w1,
    exists evs, calls (open_iterate n (JStr flags) args rest e le w1).2 = calls w1 ++ evs
                /\ Forall (eligible_call flags "open" ((fs, o) :: rest)) evs) as IH'.
  { intros e le w1. destruct (IH e le w1) as (evs & ? & Hevs). exists evs. split; [done|].
    eapply Forall_impl; [exact Hevs|]. apply eligible_call_cons. }
  destruct (mode_skips flags o) eqn:Ho; [apply IH'|].
  destruct (fs_open fs) as [func|]; mstep.
  2:{ match goal with |- context [open_iterate n _ args rest ?e ?le ?w1] =>
        destruct (IH' e le w1) as (evs & Heq & Hevs) end.
      exists evs. split; [exact Heq|exact Hevs]. }
  assert (forall e le,
    exists evs, calls (open_iterate n (JStr flags) args rest e le
                         (with_calls (calls w ++ [Invoked (length rest) "open"]) w)).2
                = calls w ++ evs
                /\ Forall (eligible_call flags "open" ((fs, o) :: rest)) evs) as IHc.
  { intros e le.
    destruct (IH' e le (with_calls (calls w ++ [Invoked (length rest) "open"]) w))
      as (evs & -> & Hevs).
    exists (Invoked (length rest) "open" :: evs). simpl. rewrite <- app_assoc.
    split; [done|]. constructor; [by apply eligible_call_head|done]. }
  destruct (func args) as [e|v|e]; [by apply IHc| |by apply IHc].
  exists [Invoked (length rest) "open"]. split; [done|].
  constructor; [by apply eligible_call_head|constructor].
Qed.

(** *** The backend of a skipped entry does not matter *)

Lemma openSync_loop_ext (todo todo' : list entry) (lastError : option addr) (w : world) :
  args !! 1 = Some (JStr flags) ->
  Forall2 (same_unless_skipped flags) todo todo' ->
  openSync_loop args todo lastError w = openSync_loop args todo' lastError w.
Proof.
  intros Hf H. apply flags_lookup in Hf. revert lastError w.
  induction H as [|[fs o] [fs' o'] rest rest' [Ho Hfs] Hrest IH]; intros lastError w;
    simpl; [done|].
  simpl in Ho, Hfs. subst o'. rewrite Hf.
  destruct (mode_skips flags o) eqn:Hs; [apply IH|].
  rewrite <- (Hfs eq_refl), <- (Forall2_length _ _ _ Hrest).
  destruct (fs_openSync fs) as [f|]; mstep.
  - destruct (f args) as [v|err]; mstep; [done|]. case_bool_decide; [done|apply IH].
  - case_bool_decide; [done|apply IH].
Qed.

Lemma open_iterate_ext (n : nat) (todo todo' : list entry) (err lastError : option addr)
    (w : world) :
  Forall2 (same_unless_skipped flags) todo todo' ->
  open_iterate n (JStr flags) args todo err lastError w
  = open_iterate n (JStr flags) args todo' err lastError w.
Proof.
  intros H. revert err lastError w.
  induction H as [|[fs o] [fs' o'] rest rest' [Ho Hfs] Hrest IH]; intros err lastError w;
    simpl; [done|].
  simpl in Ho, Hfs. subst o'.
  destruct err as [e0|]; mstep.
  all: destruct (mode_skips flags o) eqn:Hs; [apply IH|].
  all: rewrite <- (Hfs eq_refl), <- (Forall2_length _ _ _ Hrest).
  all: destruct (fs_open fs) as [func|]; mstep; [|apply IH].
  all: destruct (func args); [apply IH|done|apply IH].
Qed.

Lemma same_unless_skipped_insert (fss : list entry) (i : nat) (fs fs' : IFS)
    (o : VolOptions) :
  fss !! i = Some (fs, o) ->
  mode_skips flags o = true ->
  Forall2 (same_unless_skipped flags) (reverse (<[i:=(fs', o)]> fss)) (reverse fss).
Proof.
  intros Hi Ho. apply Forall2_reverse.
  rewrite <- (list_insert_id fss i (fs, o)) at 2 by done.
  apply Forall2_insert.
  - apply Forall_Forall2_diag, Forall_forall. by intros [??] _.
  - split; [done|]. simpl. congruence.
Qed.

(** *** Only failures of eligible entries touch error objects *)

Lemma lookup_set_prev_other (h : list error_obj) (e a : addr) (p : prev_field) :
  e <> a ->
  alter (fun o => Error_obj (message o) p) e h !! a = h !! a.
Proof. intros. by apply list_lookup_alter_ne. Qed.

Lemma openSync_loop_frame (h0 : list error_obj) (todo : list entry)
    (lastError : option addr) (w : world) (a : addr) :
  args !! 1 = Some (JStr flags) ->
  length h0 <= length (errors w) ->
  (forall j fs o, reverse todo !! j = Some (fs, o) -> mode_skips flags o = false ->
                  ~ openSync_failure args h0 fs a) ->
  errors (openSync_loop args todo lastError w).2 !! a = errors w !! a.
Proof.
  intros Hf. apply flags_lookup in Hf. revert lastError w.
  induction todo as [|[fs o] rest IH]; intros lastError w Hlen Hno; simpl; [done|].
  rewrite Hf.
  assert (forall j fs' o', reverse rest !! j = Some (fs', o') -> mode_skips flags o' = false ->
                           ~ openSync_failure args h0 fs' a) as Hrest.
  { intros j fs' o' Hj. apply (Hno j). rewrite reverse_cons. by apply lookup_app_l_Some. }
  destruct (mode_skips flags o) eqn:Hs; [by apply IH|].
  assert (~ openSync_failure args h0 fs a) as Hhead.
  { apply (Hno (length rest) fs o); [|done].
    rewrite reverse_cons, <- (length_reverse rest). by rewrite list_lookup_middle. }
  unfold openSync_failure in Hhead.
  destruct (fs_openSync fs) as [f|]; mstep.
  - destruct (f args) as [v|err]; mstep; [done|].
    assert (err <> a) by congruence.
    case_bool_decide; simpl.
    + by apply lookup_set_prev_other.
    + rewrite IH; simpl; [by apply lookup_set_prev_other| |done].
      by rewrite length_alter.
  - assert (length (errors w) <> a) by lia.
    assert (a < length (errors w)) by lia.
    case_bool_decide; simpl.
    + rewrite lookup_set_prev_other by done. by apply lookup_app_l.
    + rewrite IH; simpl; [|rewrite length_alter, length_app; lia|done].
      rewrite lookup_set_prev_other by done. by apply lookup_app_l.
Qed.

Lemma note_error_frame (err lastError : option addr) (w : world) (a : addr) :
  err <> Some a -> errors (note_error err lastError w).2 !! a = errors w !! a.
Proof.
  destruct err as [e|]; simpl; [|done].
  intros. apply lookup_set_prev_other. congruence.
Qed.

Lemma note_error_length (err lastError : option addr) (w : world) :
  length (errors (note_error err lastError w).2) = length (errors w).
Proof. destruct err; simpl; [apply length_alter|done]. Qed.

Lemma open_iterate_frame (h0 : list error_obj) (n : nat) (todo : list entry)
    (err lastError : option addr) (w : world) (a : addr) :
  length h0 <= length (errors w) ->
  err <> Some a ->
  (n = 0 -> length h0 <= a -> False) ->
  (forall j fs o, reverse todo !! j = Some (fs, o) -> mode_skips flags o = false ->
                  ~ open_failure args h0 fs a) ->
  errors (open_iterate n (JStr flags) args todo err lastError w).2 !! a = errors w !! a.
Proof.
  revert err lastError w.
  induction todo as [|[fs o] rest IH]; intros err lastError w Hlen Herr Hn Hno; simpl.
  - destruct err as [e|]; mstep; simpl.
    + apply lookup_set_prev_other. congruence.
    + case_bool_decide; simpl; [|done]. apply lookup_app_l. lia.
  - unfold bind at 1.
    pose proof (note_error_frame err lastError w a Herr) as Hfr.
    pose proof (note_error_length err lastError w) as Hnl.
    destruct (note_error err lastError w) as [le' w1]. simpl in Hfr, Hnl.
    rewrite <- Hfr. rewrite <- Hnl in Hlen. clear Hfr Hnl Herr w. revert w1 Hlen. intros w Hlen.
    assert (forall j fs' o', reverse rest !! j = Some (fs', o') ->
              mode_skips flags o' = false -> ~ open_failure args h0 fs' a) as Hrest.
    { intros j fs' o' Hj. apply (Hno j). rewrite reverse_cons. by apply lookup_app_l_Some. }
    destruct (mode_skips flags o) eqn:Hs; [by apply IH|].
    assert (~ open_failure args h0 fs a) as Hhead.
    { apply (Hno (length rest) fs o); [|done].
      rewrite reverse_cons, <- (length_reverse rest). by rewrite list_lookup_middle. }
    unfold open_failure in Hhead.
    destruct (fs_open fs) as [func|]; mstep.
    + destruct (func args) as [e|v|e]; [|done|].
      * rewrite IH; simpl; [done|done| |done|done]. intros [= ->]. tauto.
      * rewrite IH; simpl; [done|done| |done|done]. intros [= ->]. tauto.
    + rewrite IH; simpl.
      * apply lookup_app_l. lia.
      * rewrite length_app. lia.
      * intros [= <-]. lia.
      * done.
      * done.
Qed.
End Gating.

(** C5. When the access mode excludes every entry of a non-empty registry,
    neither form fails: [openSync] returns [undefined] and [open] calls the
    callback with [undefined] as error; no error object is created, so in
    particular none saying that no file system is attached. *)
Theorem all_entries_filtered_no_failure
    (fss : list entry) (flags : string) (args : list jsval) (w : world) :
  fss <> [] ->
  Forall (fun e => mode_excludes flags e.2) fss ->
  (args !! 1 = Some (JStr flags) -> openSync fss args w = (Return JUndefined, w))
  /\ (open_flags args = JStr flags -> open fss args w = (Called CbUndefined, w)).
Proof.
  intros Hne Hall.
  assert (Forall (fun e => mode_skips flags e.2 = true) (reverse fss)) as Hrev.
  { apply Forall_reverse. eapply Forall_impl; [exact Hall|].
    intros e He. by apply mode_excludes_skips. }
  split.
  - intros Hf. unfold openSync. by apply (openSync_loop_all_skipped flags).
  - intros Hf. unfold open. rewrite Hf. apply open_iterate_all_skipped; [|done].
    destruct fss; [done|]. simpl. lia.
Qed.

Lemma all_entries_filtered_no_failure_witness :
  openSync [(file_backend (Return (JNum 3)), not_readable)] [JStr "/f"; JStr "r"] sample_world
  = (Return JUndefined, sample_world).
Proof.
  apply (proj1 (all_entries_filtered_no_failure
                  [(file_backend (Return (JNum 3)), not_readable)] "r"
                  [JStr "/f"; JStr "r"] sample_world ltac:(discriminate)
                  ltac:(repeat constructor))).
  reflexivity.
Defined.

(** Neither form fails either as soon as the entry registered first is
    excluded, even when an entry that was tried has failed: its error is
    dropped. *)
Example excluded_first_entry_drops_the_error :
  (openSync [(file_backend (Return (JNum 3)), not_readable);
             (file_backend (Throw 1), readable_writable)]
            [JStr "/f"; JStr "r"] sample_world).1
  = Return JUndefined
  /\ (open [(file_backend (Return (JNum 3)), not_readable);
            (file_backend (Throw 1), readable_writable)]
           [JStr "/f"; JStr "r"] sample_world).1
    = Called CbUndefined.
Proof. split; reflexivity. Qed.

Lemma eligible_call_not_skipped (flags : string) (method : string) (fss : list entry)
    (evs : list event) (i : nat) (fs : IFS) (o : VolOptions) :
  Forall (eligible_call flags method (reverse fss)) evs ->
  fss !! i = Some (fs, o) ->
  mode_skips flags o = true ->
  forall m, Invoked i m ∉ evs.
Proof.
  intros Hevs Hi Ho m Hin.
  rewrite Forall_forall in Hevs. destruct (Hevs _ Hin) as (j & fs' & o' & [= -> _] & Hj & Ho').
  rewrite reverse_involutive in Hj. congruence.
Qed.

(** C4. An entry that the access mode excludes is skipped by [openSync] and
    [open]: no method of its backend is invoked, the outcome and the final
    state are the same whatever backend the entry holds, and an error object
    that is not the failure of another entry is left as it was, so the entry
    adds no node to the error chain. *)
Theorem excluded_entry_is_skipped
    (fss : list entry) (flags : string) (args : list jsval)
    (i : nat) (fs : IFS) (o : VolOptions) (w : world) :
  fss !! i = Some (fs, o) ->
  mode_excludes flags o ->
  (args !! 1 = Some (JStr flags) ->
     (exists evs, calls (openSync fss args w).2 = calls w ++ evs
                  /\ forall m, Invoked i m ∉ evs)
     /\ (forall fs', openSync (<[i:=(fs', o)]> fss) args w = openSync fss args w)
     /\ (forall a,
           (forall j fs_j o_j, fss !! j = Some (fs_j, o_j) -> j <> i ->
                               ~ openSync_failure args (errors w) fs_j a) ->
           errors (openSync fss args w).2 !! a = errors w !! a))
  /\ (open_flags args = JStr flags ->
     (exists evs, calls (open fss args w).2 = calls w ++ evs
                  /\ forall m, Invoked i m ∉ evs)
     /\ (forall fs', open (<[i:=(fs', o)]> fss) args w = open fss args w)
     /\ (forall a,
           (forall j fs_j o_j, fss !! j = Some (fs_j, o_j) -> j <> i ->
                               ~ open_failure args (errors w) fs_j a) ->
           errors (open fss args w).2 !! a = errors w !! a)).
Proof.
  intros Hi Ho. apply mode_excludes_skips in Ho.
  split; intros Hf; (split; [|split]).
  - destruct (openSync_loop_calls flags args (reverse fss) None w Hf) as (evs & Heq & Hevs).
    exists evs. split; [exact Heq|]. by eapply eligible_call_not_skipped.
  - intros fs'. unfold openSync. apply (openSync_loop_ext flags); [done|].
    by eapply same_unless_skipped_insert.
  - intros a Ha. unfold openSync. apply (openSync_loop_frame flags args (errors w)); [done..|].
    intros j fs_j o_j Hj Hs. rewrite reverse_involutive in Hj.
    apply (Ha j fs_j o_j Hj). intros ->. congruence.
  - unfold open. rewrite Hf.
    destruct (open_iterate_calls flags args (length fss) (reverse fss) None None w)
      as (evs & Heq & Hevs).
    exists evs. split; [exact Heq|]. by eapply eligible_call_not_skipped.
  - intros fs'. unfold open. rewrite Hf, length_insert. apply open_iterate_ext.
    by eapply same_unless_skipped_insert.
  - intros a Ha. unfold open. rewrite Hf.
    apply (open_iterate_frame flags args (errors w)); [done|done| |].
    + intros Hn _. apply lookup_lt_Some in Hi. lia.
    + intros j fs_j o_j Hj Hs. rewrite reverse_involutive in Hj.
      apply (Ha j fs_j o_j Hj). intros ->. congruence.
Qed.

Lemma excluded_entry_is_skipped_witness :
  openSync (<[0:=(file_backend (Return (JNum 9)), not_readable)]>
              [(file_backend (Throw 0), not_readable);
               (file_backend (Throw 1), readable_writable)])
           [JStr "/f"; JStr "r"] sample_world
  = openSync [(file_backend (Throw 0), not_readable);
              (file_backend (Throw 1), readable_writable)]
             [JStr "/f"; JStr "r"] sample_world.
Proof.
  apply (proj1 (excluded_entry_is_skipped
                  [(file_backend (Throw 0), not_readable);
                   (file_backend (Throw 1), readable_writable)]
                  "r" [JStr "/f"; JStr "r"] 0 (file_backend (Throw 0)) not_readable
                  sample_world eq_refl
                  (or_introl (conj eq_refl eq_refl)))
               eq_refl).
Defined.

(** ** The error chain *)

Lemma chain_S (fuel : nat) (h : list error_obj) (e : addr) :
  chain (S fuel) h e
  = match h !! e with
    | None => None
    | Some o =>
        match prev o with
        | PrevRef p => cons e <$> chain fuel h p
        | _ => Some [e]
        end
    end.
Proof. reflexivity. Qed.

Lemma linked_chain (h : list error_obj) (l : list addr) (e : addr) :
  linked h (e :: l) -> chain (S (length l)) h e = Some (e :: l).
Proof.
  revert e. induction l as [|e' l IH]; intros e ((o & Ho & Hp) & _ & Hl).
  - simpl in *. by rewrite Ho, Hp.
  - rewrite chain_S, Ho, Hp. cbn [head prev_of length]. by rewrite (IH e' Hl).
Qed.

Lemma linked_lt (h : list error_obj) (l : list addr) :
  linked h l -> Forall (fun a => a < length h) l.
Proof.
  induction l as [|e l IH]; [constructor|].
  intros ((o & Ho & _) & _ & Hl). constructor; [|by apply IH]. by eapply lookup_lt_Some.
Qed.

Lemma linked_NoDup (h : list error_obj) (l : list addr) : linked h l -> NoDup l.
Proof.
  induction l as [|e l IH]; [constructor|].
  intros (_ & Hn & Hl). constructor; [done|by apply IH].
Qed.

Lemma linked_alloc (h : list error_obj) (l : list addr) (x : error_obj) :
  linked h l -> linked (h ++ [x]) l.
Proof.
  induction l as [|e l IH]; [done|].
  intros ((o & Ho & Hp) & Hn & Hl). split; [|split; [done|by apply IH]].
  exists o. split; [by apply lookup_app_l_Some|done].
Qed.

Lemma linked_alter_other (h : list error_obj) (l : list addr) (e : addr)
    (f : error_obj -> error_obj) :
  linked h l -> e ∉ l -> linked (alter f e h) l.
Proof.
  induction l as [|e' l IH]; [done|].
  intros ((o & Ho & Hp) & Hn & Hl) Hne. apply not_elem_of_cons in Hne as [Hne1 Hne2].
  split; [|split; [done|by apply IH]].
  exists o. split; [|done]. by rewrite list_lookup_alter_ne.
Qed.

(** [err.prev = lastError] puts [err] in front of the chain that ends in
    [lastError]. *)
Lemma linked_set_prev (l : list addr) (e : addr) (w : world) :
  linked (errors w) l -> e ∉ l -> e < length (errors w) ->
  linked (errors (set_prev e (head l) w).2) (e :: l).
Proof.
  intros Hl Hn Hlt. simpl. split; [|split; [done|by apply linked_alter_other]].
  destruct (lookup_lt_is_Some_2 _ _ Hlt) as [o Ho].
  eexists. rewrite list_lookup_alter_eq, Ho. simpl. done.
Qed.

Lemma not_elem_of_lt (l : list addr) (n : nat) :
  Forall (fun a => a < n) l -> n ∉ l.
Proof. intros Hl Hin. rewrite Forall_forall in Hl. specialize (Hl _ Hin). lia. Qed.

Section Chain.
Variable method : string.
Variable args : list jsval.
Variable h0 : list error_obj.

Lemma unchained_skip (thrown : entry -> option addr) (x : entry) (rest : list entry)
    (l : list addr) :
  thrown x = None -> unchained h0 thrown (x :: rest) l -> unchained h0 thrown rest l.
Proof. unfold unchained. simpl. by intros ->. Qed.

Lemma unchained_head (thrown : entry -> option addr) (x : entry) (rest : list entry)
    (l : list addr) (a : addr) :
  thrown x = Some a -> unchained h0 thrown (x :: rest) l ->
  a < length h0 /\ (a ∉ l) /\ unchained h0 thrown rest (a :: l).
Proof.
  unfold unchained. simpl. intros -> [Hnd Hall].
  apply NoDup_cons in Hnd as [Hn Hnd]. apply Forall_cons in Hall as [[Hlt Hl] Hall].
  repeat split; [done..|].
  rewrite Forall_forall in Hall |- *. intros b Hb. destruct (Hall b Hb) as [? ?].
  split; [done|]. apply not_elem_of_cons. split; [|done]. by intros ->.
Qed.

(** A fresh error object joins the chain. *)
Lemma unchained_fresh (thrown : entry -> option addr) (x : entry) (rest : list entry)
    (l : list addr) (e : addr) :
  thrown x = None -> length h0 <= e -> unchained h0 thrown (x :: rest) l ->
  unchained h0 thrown rest (e :: l).
Proof.
  intros Hx He H. apply (unchained_skip _ _ _ _ Hx) in H. destruct H as [Hnd Hall].
  split; [done|]. rewrite Forall_forall in Hall |- *. intros b Hb.
  destruct (Hall b Hb) as [? ?]. split; [done|]. apply not_elem_of_cons. split; [lia|done].
Qed.
End Chain.

Section SyncChain.
Variable method : string.
Variable args : list jsval.
Variable h0 : list error_obj.

Lemma syncMethod_loop_chain (todo : list entry) (l : list addr) (w : world) :
  todo <> [] ->
  linked (errors w) l ->
  length h0 <= length (errors w) ->
  (forall fs o f v, (fs, o) ∈ todo -> fs_method fs method = Some f -> f args <> Return v) ->
  unchained h0 (thrown_sync method args) todo l ->
  exists e w' es,
    syncMethod_loop method args todo (head l) w = (Throw e, w')
    /\ Forall2 (fun x a => sync_failure method args h0 x.1 a) todo es
    /\ linked (errors w') (reverse es ++ l)
    /\ head (reverse es ++ l) = Some e.
Proof.
  revert l w. induction todo as [|[fs o] rest IH]; intros l w Hne Hl Hlen Hfail Hun; [done|].
  assert (forall fs' o' f v, (fs', o') ∈ rest -> fs_method fs' method = Some f ->
                             f args <> Return v) as Hfail'.
  { intros fs' o' f v Hin. apply (Hfail fs' o'). by right. }
  (* the state after the failure [a] of the head entry has been chained *)
  assert (forall a w2,
    sync_failure method args h0 fs a ->
    linked (errors w2) (a :: l) ->
    length h0 <= length (errors w2) ->
    unchained h0 (thrown_sync method args) rest (a :: l) ->
    exists e w' es,
      (if bool_decide (length rest = 0) then ret (Throw a)
       else syncMethod_loop method args rest (Some a)) w2 = (Throw e, w')
      /\ Forall2 (fun x a => sync_failure method args h0 x.1 a) ((fs, o) :: rest) es
      /\ linked (errors w') (reverse es ++ l)
      /\ head (reverse es ++ l) = Some e) as Hstep.
  { intros a w2 Ha Hl2 Hlen2 Hun2. case_bool_decide as Hi.
    - destruct rest; [|done]. exists a, w2, [a]. split; [done|].
      split; [|split; [exact Hl2|done]]. by repeat constructor.
    - destruct (IH (a :: l) w2) as (e & w' & es & Heq & Hes & Hl'' & Hhd);
        [by destruct rest|done..|].
      exists e, w', (a :: es). split; [exact Heq|].
      rewrite reverse_cons, <- app_assoc. simpl. split; [|done]. by constructor. }
  simpl. destruct (fs_method fs method) as [f|] eqn:Hm; mstep.
  - destruct (f args) as [v|a] eqn:Hfa.
    { exfalso. eapply (Hfail fs o f v); [by left|done..]. }
    assert (thrown_sync method args (fs, o) = Some a) as Hth.
    { unfold thrown_sync. simpl. by rewrite Hm, Hfa. }
    destruct (unchained_head h0 _ _ _ _ _ Hth Hun) as (Hlt & Hnl & Hun').
    mstep. apply Hstep.
    + unfold sync_failure. by rewrite Hm.
    + apply (linked_set_prev l a
               (with_calls (calls w ++ [Invoked (length rest) method]) w)); [done..|].
      simpl. lia.
    + simpl. by rewrite length_alter.
    + done.
  - assert (thrown_sync method args (fs, o) = None) as Hth.
    { unfold thrown_sync. simpl. by rewrite Hm. }
    apply Hstep.
    + unfold sync_failure. by rewrite Hm.
    + apply (linked_set_prev l (length (errors w))
               (with_errors (errors w ++
                  [Error_obj (not_supported method args) PrevUndefined]) w)).
      * by apply linked_alloc.
      * by apply not_elem_of_lt, linked_lt.
      * simpl. rewrite length_app. simpl. lia.
    + simpl. rewrite length_alter, length_app. lia.
    + by apply (unchained_fresh h0 _ (fs, o)).
Qed.
End SyncChain.

Lemma note_error_linked (err : option addr) (l : list addr) (w : world) :
  linked (errors w) l ->
  (forall e0, err = Some e0 -> (e0 ∉ l) /\ e0 < length (errors w)) ->
  (note_error err (head l) w).1 = head (option_list err ++ l)
  /\ linked (errors (note_error err (head l) w).2) (option_list err ++ l)
  /\ length (errors (note_error err (head l) w).2) = length (errors w).
Proof.
  intros Hl Herr. destruct err as [e0|]; [|done].
  destruct (Herr e0 eq_refl) as [Hn Hlt].
  split; [done|]. split; [by apply linked_set_prev|]. simpl. by rewrite length_alter.
Qed.

Section OpenChain.
Variable flags : string.
Variable args : list jsval.
Variable h0 : list error_obj.

Lemma eligible_entries_skip (fs : IFS) (o : VolOptions) (rest : list entry) :
  mode_skips flags o = true ->
  eligible_entries flags ((fs, o) :: rest) = eligible_entries flags rest.
Proof. intros Ho. apply filter_cons_False. simpl. congruence. Qed.

Lemma eligible_entries_keep (fs : IFS) (o : VolOptions) (rest : list entry) :
  mode_skips flags o = false ->
  eligible_entries flags ((fs, o) :: rest) = (fs, o) :: eligible_entries flags rest.
Proof. intros Ho. by apply filter_cons_True. Qed.

Lemma openSync_loop_chain (todo : list entry) (l : list addr) (w : world)
    (e : addr) (w' : world) :
  args !! 1 = Some (JStr flags) ->
  openSync_loop args todo (head l) w = (Throw e, w') ->
  linked (errors w) l ->
  length h0 <= length (errors w) ->
  unchained h0 (thrown_openSync flags args) todo l ->
  exists es,
    Forall2 (fun x a => openSync_failure args h0 x.1 a) (eligible_entries flags todo) es
    /\ linked (errors w') (reverse es ++ l)
    /\ head (reverse es ++ l) = Some e.
Proof.
  intros Hf. apply flags_lookup in Hf. revert l w.
  induction todo as [|[fs o] rest IH]; intros l w Hrun Hl Hlen Hun; simpl in Hrun; [done|].
  rewrite Hf in Hrun.
  destruct (mode_skips flags o) eqn:Ho.
  { rewrite eligible_entries_skip by done. apply (IH l w); [done..|].
    apply (unchained_skip h0 _ (fs, o)); [|done]. unfold thrown_openSync. simpl.
    by rewrite Ho. }
  rewrite eligible_entries_keep by done.
  (* the state after the failure [a] of the head entry has been chained *)
  assert (forall a w2,
    (if bool_decide (length rest = 0) then ret (Throw a)
     else openSync_loop args rest (Some a)) w2 = (Throw e, w') ->
    openSync_failure args h0 fs a ->
    linked (errors w2) (a :: l) ->
    length h0 <= length (errors w2) ->
    unchained h0 (thrown_openSync flags args) rest (a :: l) ->
    exists es,
      Forall2 (fun x a => openSync_failure args h0 x.1 a)
              ((fs, o) :: eligible_entries flags rest) es
      /\ linked (errors w') (reverse es ++ l)
      /\ head (reverse es ++ l) = Some e) as Hstep.
  { intros a w2 Hrun2 Ha Hl2 Hlen2 Hun2. case_bool_decide as Hi.
    - destruct rest; [|done]. injection Hrun2 as <- <-.
      exists [a]. split; [|split; [exact Hl2|done]]. by repeat constructor.
    - destruct (IH (a :: l) w2) as (es & Hes & Hl'' & Hhd); [done..|].
      exists (a :: es). rewrite reverse_cons, <- app_assoc. simpl.
      split; [|done]. by constructor. }
  destruct (fs_openSync fs) as [f|] eqn:Hm; mstep in Hrun.
  - destruct (f args) as [v|a] eqn:Hfa; [done|].
    assert (thrown_openSync flags args (fs, o) = Some a) as Hth.
    { unfold thrown_openSync. simpl. by rewrite Ho, Hm, Hfa. }
    destruct (unchained_head h0 _ _ _ _ _ Hth Hun) as (Hlt & Hnl & Hun').
    mstep in Hrun. eapply Hstep; [exact Hrun| | | |done].
    + unfold openSync_failure. by rewrite Hm.
    + apply (linked_set_prev l a
               (with_calls (calls w ++ [Invoked (length rest) "openSync"]) w)); [done..|].
      simpl. lia.
    + simpl. by rewrite length_alter.
  - assert (thrown_openSync flags args (fs, o) = None) as Hth.
    { unfold thrown_openSync. simpl. by rewrite Ho, Hm. }
    eapply Hstep; [exact Hrun| | | |].
    + unfold openSync_failure. by rewrite Hm.
    + apply (linked_set_prev l (length (errors w))
               (with_errors (errors w ++
                  [Error_obj (not_supported "openSync" args) PrevUndefined]) w)).
      * by apply linked_alloc.
      * by apply not_elem_of_lt, linked_lt.
      * simpl. rewrite length_app. simpl. lia.
    + simpl. rewrite length_alter, length_app. lia.
    + by apply (unchained_fresh h0 _ (fs, o)).
Qed.

Lemma open_iterate_chain (n : nat) (todo : list entry) (err : option addr)
    (l : list addr) (w : world) (e : addr) (w' : world) :
  n <> 0 ->
  open_iterate n (JStr flags) args todo err (head l) w = (Called (CbErr e), w') ->
  linked (errors w) l ->
  (forall e0, err = Some e0 -> (e0 ∉ l) /\ e0 < length (errors w)) ->
  length h0 <= length (errors w) ->
  unchained h0 (thrown_open flags args) todo (option_list err ++ l) ->
  exists es,
    Forall2 (fun x a => open_failure args h0 x.1 a) (eligible_entries flags todo) es
    /\ linked (errors w') (reverse es ++ option_list err ++ l)
    /\ head (reverse es ++ option_list err ++ l) = Some e.
Proof.
  intros Hn. revert err l w.
  induction todo as [|[fs o] rest IH]; intros err l w Hrun Hl Herr Hlen Hun;
    simpl in Hrun; unfold bind at 1 in Hrun;
    destruct (note_error_linked err l w Hl Herr) as (Hle & Hl1 & Hlen1);
    destruct (note_error err (head l) w) as [le' w1]; simpl in Hle, Hl1, Hlen1;
    subst le'; rewrite <- Hlen1 in Hlen; clear Hlen1 Herr Hl.
  - exists []. simpl. split; [constructor|].
    destruct err as [e0|]; mstep in Hrun.
    + by injection Hrun as <- <-.
    + by rewrite bool_decide_eq_false_2 in Hrun.
  - set (l1 := option_list err ++ l) in *.
    (* the recursive call with the failure [a] of the head entry pending *)
    assert (forall a w2,
      open_iterate n (JStr flags) args rest (Some a) (head l1) w2 = (Called (CbErr e), w') ->
      open_failure args h0 fs a ->
      linked (errors w2) l1 ->
      (a ∉ l1) -> a < length (errors w2) ->
      length h0 <= length (errors w2) ->
      unchained h0 (thrown_open flags args) rest (a :: l1) ->
      exists es,
        Forall2 (fun x a => open_failure args h0 x.1 a)
                ((fs, o) :: eligible_entries flags rest) es
        /\ linked (errors w') (reverse es ++ l1)
        /\ head (reverse es ++ l1) = Some e) as Hstep.
    { intros a w2 Hrun2 Ha Hl2 Hnl Hlt Hlen2 Hun2.
      destruct (IH (Some a) l1 w2) as (es & Hes & Hl'' & Hhd); [done|done| |done|done|].
      { by intros ? [= <-]. }
      exists (a :: es). rewrite reverse_cons, <- app_assoc. simpl.
      split; [|done]. by constructor. }
    destruct (mode_skips flags o) eqn:Ho.
    { rewrite eligible_entries_skip by done.
      apply (IH None l1 w1); [done|done|done|done|].
      apply (unchained_skip h0 _ (fs, o)); [|done]. unfold thrown_open. simpl.
      by rewrite Ho. }
    rewrite eligible_entries_keep by done.
    destruct (fs_open fs) as [func|] eqn:Hm; mstep in Hrun.
    + destruct (func args) as [a|v|a] eqn:Hfa; [|done|].
      all: assert (thrown_open flags args (fs, o) = Some a) as Hth
        by (unfold thrown_open; simpl; by rewrite Ho, Hm, Hfa).
      all: destruct (unchained_head h0 _ _ _ _ _ Hth Hun) as (Hlt & Hnl & Hun').
      all: eapply Hstep; [exact Hrun| |done|done| |done|done]; simpl.
      all: try lia.
      all: unfold open_failure; rewrite Hm; auto.
    + assert (thrown_open flags args (fs, o) = None) as Hth.
      { unfold thrown_open. simpl. by rewrite Ho, Hm. }
      eapply Hstep; [exact Hrun| | | | | |].
      * unfold open_failure. by rewrite Hm.
      * by apply linked_alloc.
      * by apply not_elem_of_lt, linked_lt.
      * simpl. rewrite length_app. simpl. lia.
      * simpl. rewrite length_app. lia.
      * by apply (unchained_fresh h0 _ (fs, o)).
Qed.
End OpenChain.

Section PromiseChain.
Variable method : string.
Variable args : list jsval.
Variable h0 : list error_obj.

Lemma promiseMethod_loop_chain (todo : list entry) (l : list addr) (w : world) :
  todo <> [] ->
  linked (errors w) l ->
  length h0 <= length (errors w) ->
  (forall fs o p f v, (fs, o) ∈ todo -> fs_promises fs = Some p ->
                      p_method p method = Some f -> f args <> Return v) ->
  unchained h0 (thrown_promise method args) todo l ->
  exists e w' es,
    promiseMethod_loop method args todo (head l) w = (Throw e, w')
    /\ Forall2 (fun x a => promise_failure method args h0 x.1 a) todo es
    /\ linked (errors w') (reverse es ++ l)
    /\ head (reverse es ++ l) = Some e.
Proof.
  revert l w. induction todo as [|[fs o] rest IH]; intros l w Hne Hl Hlen Hfail Hun; [done|].
  assert (forall fs' o' p f v, (fs', o') ∈ rest -> fs_promises fs' = Some p ->
                               p_method p method = Some f -> f args <> Return v) as Hfail'.
  { intros fs' o' p f v Hin. apply (Hfail fs' o'). by right. }
  assert (forall a w2,
    promise_failure method args h0 fs a ->
    linked (errors w2) (a :: l) ->
    length h0 <= length (errors w2) ->
    unchained h0 (thrown_promise method args) rest (a :: l) ->
    exists e w' es,
      (if bool_decide (length rest = 0) then ret (Throw a)
       else promiseMethod_loop method args rest (Some a)) w2 = (Throw e, w')
      /\ Forall2 (fun x a => promise_failure method args h0 x.1 a) ((fs, o) :: rest) es
      /\ linked (errors w') (reverse es ++ l)
      /\ head (reverse es ++ l) = Some e) as Hstep.
  { intros a w2 Ha Hl2 Hlen2 Hun2. case_bool_decide as Hi.
    - destruct rest; [|done]. exists a, w2, [a]. split; [done|].
      split; [|split; [exact Hl2|done]]. by repeat constructor.
    - destruct (IH (a :: l) w2) as (e & w' & es & Heq & Hes & Hl'' & Hhd);
        [by destruct rest|done..|].
      exists e, w', (a :: es). split; [exact Heq|].
      rewrite reverse_cons, <- app_assoc. simpl. split; [|done]. by constructor. }
  (* the entry has no such promise method: the union makes the error *)
  assert (thrown_promise method args (fs, o) = None ->
          promise_failure method args h0 fs (length (errors w)) ->
          exists e w' es,
            (if bool_decide (length rest = 0) then ret (Throw (length (errors w)))
             else promiseMethod_loop method args rest (Some (length (errors w))))
              (with_errors
                 (alter (fun o => Error_obj (message o) (prev_of (head l)))
                    (length (errors w))
                    (errors w ++ [Error_obj (promise_not_supported method args) PrevUndefined]))
                 w) = (Throw e, w')
            /\ Forall2 (fun x a => promise_failure method args h0 x.1 a) ((fs, o) :: rest) es
            /\ linked (errors w') (reverse es ++ l)
            /\ head (reverse es ++ l) = Some e) as Hmissing.
  { intros Hth Hpf. apply Hstep; [done| | |].
    - apply (linked_set_prev l (length (errors w))
               (with_errors (errors w ++
                  [Error_obj (promise_not_supported method args) PrevUndefined]) w)).
      + by apply linked_alloc.
      + by apply not_elem_of_lt, linked_lt.
      + simpl. rewrite length_app. simpl. lia.
    - simpl. rewrite length_alter, length_app. lia.
    - by apply (unchained_fresh h0 _ (fs, o)). }
  simpl. destruct (fs_promises fs) as [p|] eqn:Hp; mstep.
  2:{ apply Hmissing; [unfold thrown_promise|unfold promise_failure]; simpl; by rewrite Hp. }
  destruct (p_method p method) as [f|] eqn:Hm; mstep.
  2:{ apply Hmissing; [unfold thrown_promise|unfold promise_failure]; simpl;
        by rewrite Hp, Hm. }
  destruct (f args) as [v|a] eqn:Hfa.
  { exfalso. eapply (Hfail fs o p f v); [by left|done..]. }
  assert (thrown_promise method args (fs, o) = Some a) as Hth.
  { unfold thrown_promise. simpl. by rewrite Hp, Hm, Hfa. }
  destruct (unchained_head h0 _ _ _ _ _ Hth Hun) as (Hlt & Hnl & Hun').
  mstep. apply Hstep.
  - unfold promise_failure. by rewrite Hp, Hm.
  - apply (linked_set_prev l a
             (with_calls (calls w ++ [Invoked (length rest) method]) w)); [done..|].
    simpl. lia.
  - simpl. by rewrite length_alter.
  - done.
Qed.
End PromiseChain.

Section AsyncChain.
Variable method : string.
Variable args : list jsval.
Variable h0 : list error_obj.

Lemma asyncMethod_iterate_chain (n : nat) (todo : list entry) (err : option addr)
    (l : list addr) (w : world) :
  n <> 0 ->
  todo <> [] \/ is_Some err ->
  linked (errors w) l ->
  (forall e0, err = Some e0 -> (e0 ∉ l) /\ e0 < length (errors w)) ->
  length h0 <= length (errors w) ->
  (forall fs o f v, (fs, o) ∈ todo -> fs_async fs method = Some f -> f args <> CbResult v) ->
  unchained h0 (thrown_async method args) todo (option_list err ++ l) ->
  exists e w' es,
    asyncMethod_iterate n method args todo err (head l) w = (CbErr e, w')
    /\ Forall2 (fun x a => async_failure method args h0 x.1 a) todo es
    /\ linked (errors w') (reverse es ++ option_list err ++ l)
    /\ head (reverse es ++ option_list err ++ l) = Some e.
Proof.
  intros Hn. revert err l w.
  induction todo as [|[fs o] rest IH]; intros err l w Hsome Hl Herr Hlen Hfail Hun;
    simpl; unfold bind at 1;
    destruct (note_error_linked err l w Hl Herr) as (Hle & Hl1 & Hlen1);
    destruct (note_error err (head l) w) as [le' w1]; simpl in Hle, Hl1, Hlen1;
    subst le'; rewrite <- Hlen1 in Hlen; clear Hlen1 Herr Hl.
  - destruct Hsome as [|[e0 ->]]; [done|]. mstep.
    exists e0, w1, []. split; [done|]. split; [constructor|done].
  - set (l1 := option_list err ++ l) in *.
    assert (forall fs' o' f v, (fs', o') ∈ rest -> fs_async fs' method = Some f ->
                               f args <> CbResult v) as Hfail'.
    { intros fs' o' f v Hin. apply (Hfail fs' o'). by right. }
    assert (forall a w2,
      async_failure method args h0 fs a ->
      linked (errors w2) l1 ->
      (a ∉ l1) -> a < length (errors w2) ->
      length h0 <= length (errors w2) ->
      unchained h0 (thrown_async method args) rest (a :: l1) ->
      exists e w' es,
        asyncMethod_iterate n method args rest (Some a) (head l1) w2 = (CbErr e, w')
        /\ Forall2 (fun x a => async_failure method args h0 x.1 a) ((fs, o) :: rest) es
        /\ linked (errors w') (reverse es ++ l1)
        /\ head (reverse es ++ l1) = Some e) as Hstep.
    { intros a w2 Ha Hl2 Hnl Hlt Hlen2 Hun2.
      destruct (IH (Some a) l1 w2) as (e & w' & es & Heq & Hes & Hl'' & Hhd);
        [by right|done| |done|done|done|].
      { by intros ? [= <-]. }
      exists e, w', (a :: es). split; [exact Heq|].
      rewrite reverse_cons, <- app_assoc. simpl. split; [|done]. by constructor. }
    destruct (fs_async fs method) as [func|] eqn:Hm; mstep.
    + destruct (func args) as [a|v|a] eqn:Hfa.
      2:{ exfalso. eapply (Hfail fs o func v); [by left|done..]. }
      all: assert (thrown_async method args (fs, o) = Some a) as Hth
        by (unfold thrown_async; simpl; by rewrite Hm, Hfa).
      all: destruct (unchained_head h0 _ _ _ _ _ Hth Hun) as (Hlt & Hnl & Hun').
      all: apply Hstep; [|done|done| |done|done]; simpl.
      all: try lia.
      all: unfold async_failure; rewrite Hm; auto.
    + assert (thrown_async method args (fs, o) = None) as Hth.
      { unfold thrown_async. simpl. by rewrite Hm. }
      apply Hstep.
      * unfold async_failure. by rewrite Hm.
      * by apply linked_alloc.
      * by apply not_elem_of_lt, linked_lt.
      * simpl. rewrite length_app. simpl. lia.
      * simpl. rewrite length_app. lia.
      * by apply (unchained_fresh h0 _ (fs, o)).
Qed.
End AsyncChain.

Lemma linked_head_chain (h : list error_obj) (l : list addr) (e : addr) (n : nat) :
  linked h l -> head l = Some e -> length l = n ->
  chain n h e = Some l /\ NoDup l.
Proof.
  intros Hl Hh <-. split; [|by eapply linked_NoDup].
  destruct l as [|e' l]; [done|]. injection Hh as ->. by apply linked_chain.
Qed.

Lemma unchained_reverse (h0 : list error_obj) (thrown : entry -> option addr)
    (fss : list entry) :
  NoDup (omap thrown fss) ->
  Forall (fun a => a < length h0) (omap thrown fss) ->
  unchained h0 thrown (reverse fss) [].
Proof.
  intros Hnd Hall. split.
  - by rewrite reverse_Permutation.
  - rewrite reverse_Permutation. eapply Forall_impl; [exact Hall|].
    intros a Ha. split; [done|]. apply not_elem_of_nil.
Qed.

(** C3 (as stated) fails: when two backends fail with one and the same
    error object, [err.prev = lastError] makes that object its own
    predecessor, and following [prev] from the error that surfaces never
    ends. *)
Lemma shared_error_object_has_no_chain :
  ~ chain_counts_attempts shared_error_registry "statSync" [JStr "/f"] sample_world.
Proof.
  intros H. destruct H as (e & w' & fuel & es & Heq & Hc & _).
  - intros fs o f v Hin Hm Hf. unfold shared_error_registry in Hin.
    repeat (apply elem_of_cons in Hin as [Hin|Hin];
            [injection Hin as -> ->; simpl in Hm; injection Hm as <-; discriminate|]).
    by apply elem_of_nil in Hin.
  - vm_compute in Heq. injection Heq as <- <-.
    clear -Hc. revert es Hc. induction fuel as [|fuel IH]; intros es Hc; [done|].
    rewrite chain_S in Hc. simpl in Hc.
    destruct (chain fuel _ 0) as [es'|] eqn:Hes; [|done]. by eapply IH.
Qed.

(** C3 (amended). When every attempted backend fails, each with an error
    object of its own, the error that surfaces heads a linear chain through
    [prev] with one node per attempted entry: the failure of the entry
    registered first (attempted last) comes first, each [prev] leads to the
    failure of the attempt before it, and the chain ends at the failure of
    the first attempt.  A generic operation on a non-empty registry, in its
    blocking, callback and promise forms, surfaces that error; for
    [openSync] and [open] the attempted entries are those that the access
    mode does not exclude, and the chain is that of the error they surface,
    when they surface one. *)
Theorem surfaced_error_chain
    (fss : list entry) (method flags : string) (args : list jsval) (w : world) :
  (fss <> [] ->
   (forall fs o f v, (fs, o) ∈ fss -> fs_method fs method = Some f -> f args <> Return v) ->
   NoDup (omap (thrown_sync method args) fss) ->
   Forall (fun a => a < length (errors w)) (omap (thrown_sync method args) fss) ->
   exists e w' es,
     syncMethod fss method args w = (Throw e, w')
     /\ head es = Some e
     /\ chain (length fss) (errors w') e = Some es
     /\ NoDup es
     /\ Forall2 (fun x a => sync_failure method args (errors w) x.1 a) fss es)
  /\ (fss <> [] ->
      (forall fs o f v, (fs, o) ∈ fss -> fs_async fs method = Some f ->
                        f args <> CbResult v) ->
      NoDup (omap (thrown_async method args) fss) ->
      Forall (fun a => a < length (errors w)) (omap (thrown_async method args) fss) ->
      exists e w' es,
        asyncMethod fss method args w = (CbErr e, w')
        /\ head es = Some e
        /\ chain (length fss) (errors w') e = Some es
        /\ NoDup es
        /\ Forall2 (fun x a => async_failure method args (errors w) x.1 a) fss es)
  /\ (fss <> [] ->
      (forall fs o p f v, (fs, o) ∈ fss -> fs_promises fs = Some p ->
                          p_method p method = Some f -> f args <> Return v) ->
      NoDup (omap (thrown_promise method args) fss) ->
      Forall (fun a => a < length (errors w)) (omap (thrown_promise method args) fss) ->
      exists e w' es,
        promiseMethod fss method args w = (Throw e, w')
        /\ head es = Some e
        /\ chain (length fss) (errors w') e = Some es
        /\ NoDup es
        /\ Forall2 (fun x a => promise_failure method args (errors w) x.1 a) fss es)
  /\ (args !! 1 = Some (JStr flags) ->
      NoDup (omap (thrown_openSync flags args) fss) ->
      Forall (fun a => a < length (errors w)) (omap (thrown_openSync flags args) fss) ->
      forall e w', openSync fss args w = (Throw e, w') ->
      exists es,
        head es = Some e
        /\ chain (length (eligible_entries flags fss)) (errors w') e = Some es
        /\ NoDup es
        /\ Forall2 (fun x a => openSync_failure args (errors w) x.1 a)
                   (eligible_entries flags fss) es)
  /\ (open_flags args = JStr flags ->
      fss <> [] ->
      NoDup (omap (thrown_open flags args) fss) ->
      Forall (fun a => a < length (errors w)) (omap (thrown_open flags args) fss) ->
      forall e w', open fss args w = (Called (CbErr e), w') ->
      exists es,
        head es = Some e
        /\ chain (length (eligible_entries flags fss)) (errors w') e = Some es
        /\ NoDup es
        /\ Forall2 (fun x a => open_failure args (errors w) x.1 a)
                   (eligible_entries flags fss) es).
Proof.
  assert (fss <> [] -> reverse fss <> []) as Hrev.
  { intros Hne Hr. apply Hne. by rewrite <- (reverse_involutive fss), Hr. }
  split; [|split; [|split; [|split]]].
  - intros Hne Hfail Hnd Hall. unfold syncMethod.
    rewrite bool_decide_eq_false_2 by (by destruct fss).
    destruct (syncMethod_loop_chain method args (errors w) (reverse fss) [] w)
      as (e & w' & es & Heq & Hes & Hl & Hhd); [by apply Hrev|done|done| | |].
    + intros fs o f v Hin. apply (Hfail fs o). by apply elem_of_reverse.
    + by apply unchained_reverse.
    + rewrite app_nil_r in Hl, Hhd. apply Forall2_reverse in Hes.
      rewrite reverse_involutive in Hes.
      destruct (linked_head_chain _ _ e (length fss) Hl Hhd) as [Hc Hn].
      { by rewrite <- (Forall2_length _ _ _ Hes). }
      exists e, w', (reverse es). done.
  - intros Hne Hfail Hnd Hall. unfold asyncMethod.
    destruct (asyncMethod_iterate_chain method args (errors w) (length fss) (reverse fss)
                None [] w)
      as (e & w' & es & Heq & Hes & Hl & Hhd);
      [by destruct fss|left; by apply Hrev|done|done|done| | |].
    + intros fs o f v Hin. apply (Hfail fs o). by apply elem_of_reverse.
    + simpl. by apply unchained_reverse.
    + simpl in Hl, Hhd. rewrite app_nil_r in Hl, Hhd. apply Forall2_reverse in Hes.
      rewrite reverse_involutive in Hes.
      destruct (linked_head_chain _ _ e (length fss) Hl Hhd) as [Hc Hn].
      { by rewrite <- (Forall2_length _ _ _ Hes). }
      exists e, w', (reverse es). done.
  - intros Hne Hfail Hnd Hall. unfold promiseMethod.
    destruct (promiseMethod_loop_chain method args (errors w) (reverse fss) [] w)
      as (e & w' & es & Heq & Hes & Hl & Hhd); [by apply Hrev|done|done| | |].
    + intros fs o p f v Hin. apply (Hfail fs o). by apply elem_of_reverse.
    + by apply unchained_reverse.
    + rewrite app_nil_r in Hl, Hhd. apply Forall2_reverse in Hes.
      rewrite reverse_involutive in Hes.
      destruct (linked_head_chain _ _ e (length fss) Hl Hhd) as [Hc Hn].
      { by rewrite <- (Forall2_length _ _ _ Hes). }
      exists e, w', (reverse es). done.
  - intros Hf Hnd Hall e w' Hrun. unfold openSync in Hrun.
    destruct (openSync_loop_chain flags args (errors w) (reverse fss) [] w e w')
      as (es & Hes & Hl & Hhd); [done..|by apply unchained_reverse|].
    rewrite app_nil_r in Hl, Hhd. apply Forall2_reverse in Hes.
    unfold eligible_entries in Hes. rewrite filter_reverse, reverse_involutive in Hes.
    destruct (linked_head_chain _ _ e (length (eligible_entries flags fss)) Hl Hhd)
      as [Hc Hn].
    { by rewrite <- (Forall2_length _ _ _ Hes). }
    exists (reverse es). done.
  - intros Hf Hne Hnd Hall e w' Hrun. unfold open in Hrun. rewrite Hf in Hrun.
    destruct (open_iterate_chain flags args (errors w) (length fss) (reverse fss)
                None [] w e w')
      as (es & Hes & Hl & Hhd); [by destruct fss|done|done|done|done| |].
    { simpl. by apply unchained_reverse. }
    simpl in Hl, Hhd. rewrite app_nil_r in Hl, Hhd. apply Forall2_reverse in Hes.
    unfold eligible_entries in Hes. rewrite filter_reverse, reverse_involutive in Hes.
    destruct (linked_head_chain _ _ e (length (eligible_entries flags fss)) Hl Hhd)
      as [Hc Hn].
    { by rewrite <- (Forall2_length _ _ _ Hes). }
    exists (reverse es). done.
Qed.

Lemma surfaced_error_chain_witness :
  exists e w' es,
    syncMethod failing_registry "statSync" [JStr "/f"] sample_world = (Throw e, w')
    /\ head es = Some e
    /\ chain 3 (errors w') e = Some es
    /\ NoDup es
    /\ Forall2 (fun x a => sync_failure "statSync" [JStr "/f"] (errors sample_world) x.1 a)
               failing_registry es.
Proof.
  apply (proj1 (surfaced_error_chain failing_registry "statSync" "r" [JStr "/f"]
                  sample_world)).
  - discriminate.
  - intros fs o f v Hin Hm Hf. unfold failing_registry in Hin.
    repeat (apply elem_of_cons in Hin as [Hin|Hin];
            [injection Hin as -> ->; simpl in Hm; injection Hm as <-; discriminate|]).
    by apply elem_of_nil in Hin.
  - apply (bool_decide_unpack _). vm_compute. exact I.
  - apply (bool_decide_unpack _). vm_compute. exact I.
Defined.

(** ** Directory merging *)

Lemma reported_snoc (l : list readdirEntry) (x : readdirEntry) (k : string) :
  reported (l ++ [x]) k
  = if decide (pathFromReaddirEntry x = k) then Some x else reported l k.
Proof.
  unfold reported. rewrite filter_app.
  destruct (decide (pathFromReaddirEntry x = k)) as [Hk|Hk].
  - rewrite (filter_cons_True _ x []) by done. apply last_snoc.
  - rewrite (filter_cons_False _ x []) by done. by rewrite filter_nil, app_nil_r.
Qed.

Lemma reported_Some (l : list readdirEntry) (k : string) (r : readdirEntry) :
  reported l k = Some r -> pathFromReaddirEntry r = k /\ r ∈ l.
Proof.
  unfold reported. intros H. apply last_Some_elem_of in H.
  by apply list_elem_of_filter in H.
Qed.

Lemma add_entries_snoc (l : list readdirEntry) (x : readdirEntry)
    (m : gmap string readdirEntry) :
  add_entries (l ++ [x]) m = <[pathFromReaddirEntry x := x]> (add_entries l m).
Proof. unfold add_entries. by rewrite foldl_snoc. Qed.

(** The last write under a name wins. *)
Lemma add_entries_lookup (l : list readdirEntry) (m : gmap string readdirEntry)
    (k : string) :
  add_entries l m !! k = match reported l k with Some r => Some r | None => m !! k end.
Proof.
  induction l as [|x l IH] using rev_ind; [done|].
  rewrite add_entries_snoc, reported_snoc.
  destruct (decide (pathFromReaddirEntry x = k)) as [<-|Hk].
  - by rewrite lookup_insert_eq.
  - by rewrite lookup_insert_ne.
Qed.

Lemma add_entries_empty_iff (l : list readdirEntry) (m : gmap string readdirEntry) :
  add_entries l m = ∅ <-> l = [] /\ m = ∅.
Proof.
  split; [|by intros [-> ->]].
  destruct l as [|x l _] using rev_ind; [done|].
  rewrite add_entries_snoc. intros H. by apply insert_non_empty in H.
Qed.

Lemma keys_are_names_add (l : list readdirEntry) (m : gmap string readdirEntry) :
  keys_are_names m -> keys_are_names (add_entries l m).
Proof.
  intros Hm k r. rewrite add_entries_lookup.
  destruct (reported l k) as [r'|] eqn:Hr; [|apply Hm].
  intros [= <-]. by apply reported_Some in Hr as [? _].
Qed.

Lemma keys_are_names_merge_entry (listing : entry -> option (list readdirEntry))
    (m : gmap string readdirEntry) (e : entry) :
  keys_are_names m -> keys_are_names (merge_entry listing m e).
Proof. unfold merge_entry. destruct (listing e); [apply keys_are_names_add|done]. Qed.

Lemma keys_are_names_merged (listing : entry -> option (list readdirEntry))
    (fss : list entry) :
  keys_are_names (merged listing fss).
Proof.
  induction fss as [|e fss IH]; simpl; [by intros k r|].
  by apply keys_are_names_merge_entry.
Qed.

(** The visits of the loops, in their order, build [merged]. *)
Lemma merged_foldl (listing : entry -> option (list readdirEntry)) (fss : list entry) :
  foldl (merge_entry listing) ∅ (reverse fss) = merged listing fss.
Proof.
  induction fss as [|e fss IH]; [done|].
  rewrite reverse_cons, foldl_snoc, IH. done.
Qed.

Lemma merged_empty_iff (listing : entry -> option (list readdirEntry)) (fss : list entry) :
  merged listing fss = ∅ <-> ~ contributed listing fss.
Proof.
  induction fss as [|e fss IH]; simpl.
  - split; [|done]. intros _ (e & l & r & He & _). by apply elem_of_nil in He.
  - unfold merge_entry. destruct (listing e) as [l|] eqn:Hl.
    + rewrite add_entries_empty_iff, IH. split.
      * intros [-> Hn] (e' & l' & r & He' & Hl' & Hr).
        apply elem_of_cons in He' as [->|He'].
        -- rewrite Hl in Hl'. injection Hl' as <-. by apply elem_of_nil in Hr.
        -- apply Hn. by exists e', l', r.
      * intros Hn. split.
        -- destruct l as [|r l]; [done|]. exfalso. apply Hn.
           exists e, (r :: l), r. split; [by left|]. split; [done|by left].
        -- intros (e' & l' & r & He' & Hl' & Hr). apply Hn.
           exists e', l', r. split; [by right|done].
    + rewrite IH. split.
      * intros Hn (e' & l' & r & He' & Hl' & Hr).
        apply elem_of_cons in He' as [->|He']; [congruence|].
        apply Hn. by exists e', l', r.
      * intros Hn (e' & l' & r & He' & Hl' & Hr). apply Hn.
        exists e', l', r. split; [by right|done].
Qed.

(** The entry that survives under a name is the one reported by the entry
    of lowest index that reports the name. *)
Lemma merged_lookup_lowest (listing : entry -> option (list readdirEntry))
    (fss : list entry) (i : nat) (e : entry) (l : list readdirEntry)
    (k : string) (r : readdirEntry) :
  fss !! i = Some e -> listing e = Some l -> reported l k = Some r ->
  (forall j e' l', j < i -> fss !! j = Some e' -> listing e' = Some l' ->
                   reported l' k = None) ->
  merged listing fss !! k = Some r.
Proof.
  revert i. induction fss as [|e0 fss IH]; intros i Hi Hl Hr Hlow; [done|].
  simpl. unfold merge_entry. destruct i as [|i]; simpl in Hi.
  - injection Hi as ->. by rewrite Hl, add_entries_lookup, Hr.
  - assert (merged listing fss !! k = Some r) as Hrest.
    { apply (IH i); [done..|]. intros j e' l' Hj. apply (Hlow (S j)). lia. }
    destruct (listing e0) as [l0|] eqn:Hl0; [|done].
    rewrite add_entries_lookup, (Hlow 0 e0 l0); [done|lia|done|done].
Qed.

(** *** The sorted array *)

Lemma elem_of_sorted_keys (m : gmap string readdirEntry) (k : string) :
  k ∈ merge_sort String.le (map_to_list m).*1 <-> is_Some (m !! k).
Proof.
  rewrite merge_sort_Permutation, list_elem_of_fmap. split.
  - intros ([k' r] & -> & Hin). apply elem_of_map_to_list in Hin. by exists r.
  - intros [r Hr]. exists (k, r). split; [done|]. by apply elem_of_map_to_list.
Qed.

Lemma sortedArray_names (m : gmap string readdirEntry) :
  keys_are_names m ->
  pathFromReaddirEntry <$> sortedArrayFromReaddirResult m
  = merge_sort String.le (map_to_list m).*1.
Proof.
  intros Hm. unfold sortedArrayFromReaddirResult.
  assert (forall k, k ∈ merge_sort String.le (map_to_list m).*1 -> is_Some (m !! k)) as Hks.
  { intros k. apply elem_of_sorted_keys. }
  induction (merge_sort String.le (map_to_list m).*1) as [|k ks IH]; [done|].
  simpl. destruct (Hks k) as [r Hr]; [by left|]. rewrite Hr. simpl.
  rewrite (Hm k r Hr). f_equal. apply IH. intros k' Hk'. apply Hks. by right.
Qed.

Lemma elem_of_sortedArray (m : gmap string readdirEntry) (r : readdirEntry) :
  r ∈ sortedArrayFromReaddirResult m <-> exists k, m !! k = Some r.
Proof.
  unfold sortedArrayFromReaddirResult. rewrite list_elem_of_omap. split.
  - intros (k & _ & Hk). by exists k.
  - intros (k & Hk). exists k. split; [|done]. apply elem_of_sorted_keys. by exists r.
Qed.

(** The returned array is sorted by name and has no two entries of the
    same name. *)
Lemma sortedArray_sorted (m : gmap string readdirEntry) :
  keys_are_names m ->
  Sorted String.le (pathFromReaddirEntry <$> sortedArrayFromReaddirResult m)
  /\ NoDup (pathFromReaddirEntry <$> sortedArrayFromReaddirResult m).
Proof.
  intros Hm. rewrite sortedArray_names by done. split.
  - apply Sorted_merge_sort. apply _.
  - rewrite merge_sort_Permutation. apply NoDup_fst_map_to_list.
Qed.

(** *** The loops *)

Lemma surfaces_snoc (listing : entry -> option (list readdirEntry)) (pre : list entry)
    (x : entry) (result : gmap string readdirEntry) :
  surfaces listing (pre ++ [x]) result
  = visited_and_failed listing x
    && bool_decide (size (foldl (merge_entry listing) result pre) = 0).
Proof.
  revert result. induction pre as [|y pre IH]; intros result; [done|].
  simpl. rewrite <- IH. by destruct pre.
Qed.

Lemma merge_entry_skipped (listing : entry -> option (list readdirEntry))
    (m : gmap string readdirEntry) (e : entry) :
  listing e = None -> merge_entry listing m e = m.
Proof. unfold merge_entry. by intros ->. Qed.

Lemma surfaces_cons_failed (listing : entry -> option (list readdirEntry)) (x : entry)
    (rest : list entry) (result : gmap string readdirEntry) :
  listing x = None ->
  is_false (readable x.2) = false ->
  surfaces listing (x :: rest) result
  = if bool_decide (size result = 0) && bool_decide (length rest = 0) then true
    else surfaces listing rest result.
Proof.
  intros Hl Hr. simpl. unfold visited_and_failed. rewrite Hl, Hr, merge_entry_skipped by done.
  destruct rest; simpl.
  - by destruct (bool_decide (size result = 0)).
  - by rewrite andb_false_r.
Qed.

Lemma surfaces_cons_other (listing : entry -> option (list readdirEntry)) (x : entry)
    (rest : list entry) (result : gmap string readdirEntry) :
  visited_and_failed listing x = false ->
  surfaces listing (x :: rest) result = surfaces listing rest (merge_entry listing result x).
Proof. intros Hx. simpl. rewrite Hx. by destruct rest. Qed.

Section ReaddirLoops.
Variable args : list jsval.

(** The blocking loop throws exactly when [surfaces] says so, and returns
    the sorted array of the merged map otherwise. *)
Lemma readdirSync_loop_outcome (todo : list entry) (lastError : option addr)
    (result : gmap string readdirEntry) (w : world) :
  if surfaces (listing_sync args) todo result
  then exists e w', readdirSync_loop args todo lastError result w = (Throw e, w')
  else exists w', readdirSync_loop args todo lastError result w
                  = (Return (sortedArrayFromReaddirResult
                               (foldl (merge_entry (listing_sync args)) result todo)), w').
Proof.
  revert lastError result w.
  induction todo as [|[fs o] rest IH]; intros lastError result w; [by eexists|].
  cbn [readdirSync_loop foldl].
  destruct (is_false (readable o)) eqn:Ho.
  { rewrite surfaces_cons_other by (unfold visited_and_failed; simpl; by rewrite Ho).
    replace (merge_entry (listing_sync args) result (fs, o)) with result
      by (unfold merge_entry, listing_sync; simpl; by rewrite Ho).
    apply IH. }
  destruct (fs_readdirSync fs) as [f|] eqn:Hm; mstep.
  - destruct (f args) as [entries|err] eqn:Hfa; mstep.
    + rewrite surfaces_cons_other
        by (unfold visited_and_failed, listing_sync; simpl; by rewrite Ho, Hm, Hfa).
      replace (merge_entry (listing_sync args) result (fs, o))
        with (add_entries entries result)
        by (unfold merge_entry, listing_sync; simpl; by rewrite Ho, Hm, Hfa).
      apply IH.
    + rewrite surfaces_cons_failed
        by (unfold listing_sync; simpl; by rewrite ?Ho, ?Hm, ?Hfa).
      replace (merge_entry (listing_sync args) result (fs, o)) with result
        by (unfold merge_entry, listing_sync; simpl; by rewrite Ho, Hm, Hfa).
      destruct (bool_decide (size result = 0) && bool_decide (length rest = 0));
        [by do 2 eexists|apply IH].
  - rewrite surfaces_cons_failed by (unfold listing_sync; simpl; by rewrite ?Ho, ?Hm).
    replace (merge_entry (listing_sync args) result (fs, o)) with result
      by (unfold merge_entry, listing_sync; simpl; by rewrite Ho, Hm).
    destruct (bool_decide (size result = 0) && bool_decide (length rest = 0));
      [by do 2 eexists|apply IH].
Qed.

Lemma readdirPromise_loop_outcome (todo : list entry) (lastError : option addr)
    (result : gmap string readdirEntry) (w : world) :
  if surfaces (listing_promise args) todo result
  then exists e w', readdirPromise_loop args todo lastError result w = (Throw e, w')
  else exists w', readdirPromise_loop args todo lastError result w
                  = (Return (sortedArrayFromReaddirResult
                               (foldl (merge_entry (listing_promise args)) result todo)), w').
Proof.
  revert lastError result w.
  induction todo as [|[fs o] rest IH]; intros lastError result w; [by eexists|].
  cbn [readdirPromise_loop foldl].
  destruct (is_false (readable o)) eqn:Ho.
  { rewrite surfaces_cons_other by (unfold visited_and_failed; simpl; by rewrite Ho).
    replace (merge_entry (listing_promise args) result (fs, o)) with result
      by (unfold merge_entry, listing_promise; simpl; by rewrite Ho).
    apply IH. }
  destruct (fs_promises fs) as [promises|] eqn:Hp;
    [destruct (p_readdir promises) as [f|] eqn:Hm;
     [destruct (f args) as [entries|err] eqn:Hfa|]|]; mstep.
  - rewrite surfaces_cons_other
      by (unfold visited_and_failed, listing_promise; simpl; by rewrite Ho, Hp, Hm, Hfa).
    replace (merge_entry (listing_promise args) result (fs, o))
      with (add_entries entries result)
      by (unfold merge_entry, listing_promise; simpl; by rewrite Ho, Hp, Hm, Hfa).
    apply IH.
  - (* the promise is rejected *)
    rewrite surfaces_cons_failed, merge_entry_skipped
      by (unfold listing_promise; simpl; by rewrite ?Ho, ?Hp, ?Hm, ?Hfa).
    destruct (bool_decide (size result = 0) && bool_decide (length rest = 0));
      [by do 2 eexists|apply IH].
  - (* no [promises.readdir] *)
    rewrite surfaces_cons_failed, merge_entry_skipped
      by (unfold listing_promise; simpl; by rewrite ?Ho, ?Hp, ?Hm).
    destruct (bool_decide (size result = 0) && bool_decide (length rest = 0));
      [by do 2 eexists|apply IH].
  - (* no [promises] *)
    rewrite surfaces_cons_failed, merge_entry_skipped
      by (unfold listing_promise; simpl; by rewrite ?Ho, ?Hp).
    destruct (bool_decide (size result = 0) && bool_decide (length rest = 0));
      [by do 2 eexists|apply IH].
Qed.

(** When the callback-style loop hands an array to the callback, it is the
    sorted array of the merged map. *)
Lemma readdir_iterate_success (n : nat) (todo : list entry) (error lastError : option addr)
    (result : gmap string readdirEntry) (w : world)
    (entries : list readdirEntry) (w' : world) :
  length todo <= n ->
  readdir_iterate n args todo error lastError result w = (Called (CbOk entries), w') ->
  entries = sortedArrayFromReaddirResult
              (foldl (merge_entry (listing_async args)) result todo).
Proof.
  revert error lastError result w.
  induction todo as [|[fs o] rest IH]; intros error lastError result w Hn Hrun;
    simpl in Hrun; unfold bind at 1 in Hrun;
    destruct (note_error error lastError w) as [le' w1].
  { by destruct error. }
  simpl in Hn. cbn [foldl].
  assert (length rest <= n) as Hn' by lia.
  destruct (fs_readdir fs) as [func|] eqn:Hm; mstep in Hrun.
  2:{ rewrite merge_entry_skipped
        by (unfold listing_async; simpl; rewrite Hm; by destruct (is_false _)).
      by eapply IH. }
  destruct (is_false (readable o)) eqn:Ho; mstep in Hrun.
  { rewrite merge_entry_skipped by (unfold listing_async; simpl; by rewrite Ho).
    by eapply IH. }
  destruct (func args) as [err|resArg|err] eqn:Hfa; [| |done].
  - rewrite merge_entry_skipped
      by (unfold listing_async; simpl; by rewrite Ho, Hm, Hfa).
    case_bool_decide; [by eapply IH|].
    case_bool_decide as Hi; [|by eapply IH].
    assert (rest = []) as -> by (destruct rest; [done|simpl in *; lia]).
    by injection Hrun as <- <-.
  - replace (merge_entry (listing_async args) result (fs, o))
      with (add_entries resArg result)
      by (unfold merge_entry, listing_async; simpl; by rewrite Ho, Hm, Hfa).
    case_bool_decide as Hi; [|by eapply IH].
    assert (rest = []) as -> by (destruct rest; [done|simpl in *; lia]).
    by injection Hrun as <- <-.
Qed.
End ReaddirLoops.

Lemma sortedArray_composite (listing : entry -> option (list readdirEntry))
    (fss : list entry) :
  composite_listing listing fss (sortedArrayFromReaddirResult (merged listing fss)).
Proof.
  pose proof (keys_are_names_merged listing fss) as Hkeys.
  destruct (sortedArray_sorted _ Hkeys) as [Hs Hn].
  split; [done|]. split; [done|].
  intros i e l k r Hi Hl Hr Hlow.
  pose proof (merged_lookup_lowest listing fss i e l k r Hi Hl Hr Hlow) as Hk.
  split.
  - apply elem_of_sortedArray. by exists k.
  - intros r' Hr' Hname. apply elem_of_sortedArray in Hr' as [k' Hk'].
    pose proof (Hkeys k' r' Hk'). congruence.
Qed.

(** C6. A successful composite listing, in each of its three forms, is
    sorted by name, has no two entries of the same name, and holds for
    every name the entry reported by the earliest registered (lowest
    priority) readable backend whose listing succeeded and has the name. *)
Theorem merged_listing_sorted_lowest_priority_wins
    (fss : list entry) (args : list jsval) (w : world) :
  (forall entries w',
     readdirSync fss args w = (Return entries, w') ->
     composite_listing (listing_sync args) fss entries)
  /\ (forall entries w',
     readdirPromise fss args w = (Return entries, w') ->
     composite_listing (listing_promise args) fss entries)
  /\ (forall entries w',
     readdir fss args w = (Called (CbOk entries), w') ->
     composite_listing (listing_async args) fss entries).
Proof.
  split; [|split]; intros entries w' Hrun.
  - unfold readdirSync in Hrun.
    pose proof (readdirSync_loop_outcome args (reverse fss) None ∅ w) as Hout.
    destruct (surfaces _ _ _).
    + destruct Hout as (e & w'' & Heq). congruence.
    + destruct Hout as (w'' & Heq). rewrite Heq in Hrun. injection Hrun as <- <-.
      rewrite merged_foldl. apply sortedArray_composite.
  - unfold readdirPromise in Hrun.
    pose proof (readdirPromise_loop_outcome args (reverse fss) None ∅ w) as Hout.
    destruct (surfaces _ _ _).
    + destruct Hout as (e & w'' & Heq). congruence.
    + destruct Hout as (w'' & Heq). rewrite Heq in Hrun. injection Hrun as <- <-.
      rewrite merged_foldl. apply sortedArray_composite.
  - unfold readdir in Hrun. apply readdir_iterate_success in Hrun.
    + subst entries. rewrite merged_foldl. apply sortedArray_composite.
    + by rewrite length_reverse.
Qed.

Lemma merged_listing_sorted_lowest_priority_wins_witness :
  composite_listing (listing_sync [JStr "/dir"]) two_directories
    [EDirent "a" 1; EDirent "b" 1; EDirent "c" 2].
Proof.
  apply (proj1 (merged_listing_sorted_lowest_priority_wins two_directories [JStr "/dir"]
                  sample_world)
               [EDirent "a" 1; EDirent "b" 1; EDirent "c" 2]
               (with_calls [Invoked 1 "readdirSync"; Invoked 0 "readdirSync"] sample_world)).
  vm_compute. reflexivity.
Defined.

(** ** When a listing fails *)

Lemma surfaces_registry (listing : entry -> option (list readdirEntry)) (fss : list entry) :
  surfaces listing (reverse fss) ∅ = true
  <-> exists x rest, fss = x :: rest /\ readable x.2 <> Some false
                     /\ listing x = None /\ ~ contributed listing rest.
Proof.
  destruct fss as [|x rest].
  { split; [done|]. by intros (? & ? & ? & _). }
  rewrite reverse_cons, surfaces_snoc, merged_foldl, andb_true_iff, bool_decide_eq_true.
  rewrite map_size_empty_iff, merged_empty_iff.
  unfold visited_and_failed. rewrite andb_true_iff, negb_true_iff.
  rewrite <- not_true_iff_false, is_false_true. split.
  - intros [[Hr Hl] Hc]. exists x, rest. destruct (listing x); done.
  - intros (x' & rest' & [= <- <-] & Hr & Hl & Hc). by rewrite Hl.
Qed.

Lemma contributed_not_surfaces (listing : entry -> option (list readdirEntry))
    (fss : list entry) :
  contributed listing fss -> surfaces listing (reverse fss) ∅ = false.
Proof.
  intros Hc. apply not_true_iff_false. intros Hs.
  apply surfaces_registry in Hs as (x & rest & -> & _ & Hl & Hn).
  destruct Hc as (e & l & r & He & Hle & Hr). apply Hn.
  apply elem_of_cons in He as [->|He]; [congruence|]. by exists e, l, r.
Qed.

(** C7 (as stated) fails: a readable backend that lists an empty directory
    contributes no entry, and the listing returns the empty array without
    any error. *)
Lemma empty_directory_is_no_error :
  ~ error_iff_nothing_contributed empty_directory [JStr "/dir"] sample_world.
Proof.
  intros [_ H]. destruct H as (e & w' & Heq).
  - intros (e & l & r & He & Hl & Hr). unfold empty_directory in He.
    apply list_elem_of_singleton in He as ->. vm_compute in Hl. injection Hl as <-.
    by apply elem_of_nil in Hr.
  - vm_compute in Heq. discriminate.
Qed.

(** C7 (amended). The blocking and the promise forms of the listing throw
    exactly when the earliest registered entry is readable and fails while
    nothing has been accumulated from the entries visited before it; so an
    error surfaces only if no backend contributed an entry, and as soon as
    some backend has contributed one, later failures are suppressed and the
    sorted merged result is returned. *)
Theorem listing_fails_only_with_nothing_accumulated
    (fss : list entry) (args : list jsval) (w : world) :
  ((exists e w', readdirSync fss args w = (Throw e, w'))
   <-> exists x rest, fss = x :: rest /\ readable x.2 <> Some false
                      /\ listing_sync args x = None
                      /\ ~ contributed (listing_sync args) rest)
  /\ (contributed (listing_sync args) fss ->
      exists w', readdirSync fss args w
                 = (Return (sortedArrayFromReaddirResult (merged (listing_sync args) fss)),
                    w'))
  /\ ((exists e w', readdirPromise fss args w = (Throw e, w'))
      <-> exists x rest, fss = x :: rest /\ readable x.2 <> Some false
                         /\ listing_promise args x = None
                         /\ ~ contributed (listing_promise args) rest)
  /\ (contributed (listing_promise args) fss ->
      exists w', readdirPromise fss args w
                 = (Return (sortedArrayFromReaddirResult
                              (merged (listing_promise args) fss)), w')).
Proof.
  pose proof (readdirSync_loop_outcome args (reverse fss) None ∅ w) as Hs.
  pose proof (readdirPromise_loop_outcome args (reverse fss) None ∅ w) as Hp.
  rewrite merged_foldl in Hs, Hp.
  split; [|split; [|split]].
  - rewrite <- surfaces_registry. unfold readdirSync. clear Hp. revert Hs.
    destruct (surfaces (listing_sync args) (reverse fss) ∅); intros Hs; [done|].
    destruct Hs as (w' & Heq). split; [|done].
    intros (e & w'' & Heq'). congruence.
  - intros Hc. rewrite (contributed_not_surfaces _ _ Hc) in Hs. exact Hs.
  - rewrite <- surfaces_registry. unfold readdirPromise. clear Hs. revert Hp.
    destruct (surfaces (listing_promise args) (reverse fss) ∅); intros Hp; [done|].
    destruct Hp as (w' & Heq). split; [|done].
    intros (e & w'' & Heq'). congruence.
  - intros Hc. rewrite (contributed_not_surfaces _ _ Hc) in Hp. exact Hp.
Qed.

Lemma listing_fails_only_with_nothing_accumulated_witness :
  exists w', readdirSync failing_then_listing [JStr "/dir"] sample_world
             = (Return (sortedArrayFromReaddirResult
                          (merged (listing_sync [JStr "/dir"]) failing_then_listing)), w').
Proof.
  apply (proj1 (proj2 (listing_fails_only_with_nothing_accumulated failing_then_listing
                         [JStr "/dir"] sample_world))).
  exists (dir_backend (Return [EString "file.txt"]), readable_writable),
         [EString "file.txt"], (EString "file.txt").
  split; [|split].
  - unfold failing_then_listing. right. left.
  - reflexivity.
  - left.
Defined.

(** ** Stream construction *)

Lemma same_index_sorted (i : nat) (evs : list event) :
  Forall (fun ev => event_index ev = i) evs ->
  StronglySorted le (event_index <$> evs).
Proof.
  induction 1 as [|ev evs Hev Hevs IH]; simpl; constructor; [done|].
  apply Forall_fmap. eapply Forall_impl; [exact Hevs|]. simpl. intros ev' ->. lia.
Qed.

Section ReadStream.
Variable path : string.

Lemma createReadStream_try_calls (i : nat) (fs : IFS) (w : world) :
  exists evs, calls (createReadStream_try i fs path w).2 = calls w ++ evs
              /\ Forall (fun ev => event_index ev = i) evs.
Proof.
  unfold createReadStream_try.
  destruct (fs_createReadStream fs) as [create|]; mstep.
  2:{ exists []. by rewrite app_nil_r. }
  destruct (fs_existsSync fs) as [existsSync|]; mstep.
  - destruct (existsSync path) as [b|e].
    2:{ exists [Invoked i "existsSync"]. by repeat constructor. }
    destruct (truthy b); mstep.
    2:{ exists [Invoked i "existsSync"]. by repeat constructor. }
    exists [Invoked i "existsSync"; Invoked i "createReadStream"].
    split; [|by repeat constructor].
    destruct (create path) as [stream|e]; [destruct (truthy stream)|]; simpl;
      by rewrite <- app_assoc.
  - exists [Invoked i "createReadStream"]. split; [|by repeat constructor].
    destruct (create path) as [stream|e]; [destruct (truthy stream)|]; done.
Qed.

Lemma createReadStream_try_serves (i : nat) (fs : IFS) (stream : jsval) (w : world) :
  serves_read path fs stream ->
  exists w', createReadStream_try i fs path w = (Return stream, w')
             /\ ReadStream w' = fs_ReadStream fs.
Proof.
  intros (create & Hc & Hex & Hs & Ht). unfold createReadStream_try. rewrite Hc.
  destruct (fs_existsSync fs) as [existsSync|]; mstep.
  - destruct Hex as (b & -> & ->). mstep. rewrite Hs, Ht. by eexists.
  - rewrite Hs, Ht. by eexists.
Qed.

Lemma createReadStream_try_fails (i : nat) (fs : IFS) (w : world) :
  (forall s, ~ serves_read path fs s) ->
  exists e w', createReadStream_try i fs path w = (Throw e, w').
Proof.
  intros Hno. unfold createReadStream_try.
  destruct (fs_createReadStream fs) as [create|] eqn:Hc; mstep; [|by do 2 eexists].
  assert (forall stream, create path = Return stream -> truthy stream = true ->
            match fs_existsSync fs with
            | Some existsSync => exists b, existsSync path = Return b /\ truthy b = true
            | None => True
            end -> False) as Hno'.
  { intros stream Hs Ht Hex. apply (Hno stream). by exists create. }
  destruct (fs_existsSync fs) as [existsSync|]; mstep.
  - destruct (existsSync path) as [b|e] eqn:Hb; [|by do 2 eexists].
    destruct (truthy b) eqn:Hbt; mstep; [|by do 2 eexists].
    destruct (create path) as [stream|e] eqn:Hs; [|by do 2 eexists].
    destruct (truthy stream) eqn:Ht; mstep; [|by do 2 eexists].
    exfalso. apply (Hno' stream); [done..|]. by exists b.
  - destruct (create path) as [stream|e] eqn:Hs; [|by do 2 eexists].
    destruct (truthy stream) eqn:Ht; mstep; [|by do 2 eexists].
    exfalso. by apply (Hno' stream).
Qed.

(** The loop from index [i]: the entries of [pre] are skipped or fail, the
    next entry serves the request. *)
Lemma createReadStream_loop_first (pre : list entry) (fs : IFS) (o : VolOptions)
    (post : list entry) (stream : jsval) (i : nat) (lastError : option addr) (w : world) :
  Forall (fun x => readable x.2 = Some false \/ forall s, ~ serves_read path x.1 s) pre ->
  readable o <> Some false ->
  serves_read path fs stream ->
  exists w' evs,
    createReadStream_loop path (pre ++ (fs, o) :: post) i lastError w
    = (StreamReturn stream, w')
    /\ ReadStream w' = fs_ReadStream fs
    /\ calls w' = calls w ++ evs
    /\ StronglySorted le (event_index <$> evs)
    /\ Forall (fun ev => i <= event_index ev <= i + length pre
                         /\ exists x, (pre ++ (fs, o) :: post) !! (event_index ev - i) = Some x
                                      /\ readable x.2 <> Some false) evs.
Proof.
  intros Hpre Ho Hserves. revert i lastError w.
  induction Hpre as [|[fs' o'] pre Hx _ IH]; intros i lastError w; simpl.
  - rewrite (is_false_false _ Ho). unfold bind.
    destruct (createReadStream_try_serves i fs stream w Hserves) as (w' & Heq & Hrs).
    destruct (createReadStream_try_calls i fs w) as (evs & Hcalls & Hevs).
    rewrite Heq in Hcalls |- *. simpl in Hcalls.
    exists w', evs. split; [done|]. split; [done|]. split; [done|]. split.
    + by eapply same_index_sorted.
    + eapply Forall_impl; [exact Hevs|]. simpl. intros ev ->.
      split; [lia|]. rewrite Nat.sub_diag. by exists (fs, o).
  - assert (forall lastError' w1,
      exists w' evs,
        createReadStream_loop path (pre ++ (fs, o) :: post) (S i) lastError' w1
        = (StreamReturn stream, w')
        /\ ReadStream w' = fs_ReadStream fs
        /\ calls w' = calls w1 ++ evs
        /\ StronglySorted le (event_index <$> evs)
        /\ Forall (fun ev => S i <= event_index ev <= i + S (length pre)
                     /\ exists x, ((fs', o') :: pre ++ (fs, o) :: post)
                                    !! (event_index ev - i) = Some x
                                  /\ readable x.2 <> Some false) evs) as IH'.
    { intros lastError' w1.
      destruct (IH (S i) lastError' w1) as (w' & evs & ? & ? & ? & ? & Hevs).
      exists w', evs. repeat (split; [done|]).
      eapply Forall_impl; [exact Hevs|]. simpl. intros ev [Hb (x & Hx' & Hr)].
      split; [lia|]. exists x. split; [|done].
      replace (event_index ev - i) with (S (event_index ev - S i)) by lia. done. }
    simpl in Hx. destruct (is_false (readable o')) eqn:Ho'.
    { destruct (IH' lastError w) as (w' & evs & ? & ? & ? & ? & Hevs).
      exists w', evs. repeat (split; [done|]).
      eapply Forall_impl; [exact Hevs|]. simpl. intros ev [Hb ?]. split; [lia|done]. }
    destruct Hx as [Hx|Hx]; [by apply is_false_true in Hx; congruence|].
    unfold bind.
    destruct (createReadStream_try_fails i fs' w Hx) as (e & w1 & Heq).
    destruct (createReadStream_try_calls i fs' w) as (evs1 & Hcalls & Hevs1).
    rewrite Heq in Hcalls |- *. simpl in Hcalls.
    destruct (IH' (Some e) w1) as (w' & evs & ? & ? & Hc & Hs & Hevs).
    exists w', (evs1 ++ evs). split; [done|]. split; [done|].
    split; [by rewrite Hc, Hcalls, app_assoc|]. split.
    + rewrite fmap_app. apply StronglySorted_app_2; [| |done].
      * intros x1 x2 Hx1 Hx2. apply list_elem_of_fmap in Hx1 as (ev1 & -> & Hev1).
        apply list_elem_of_fmap in Hx2 as (ev2 & -> & Hev2).
        rewrite Forall_forall in Hevs1, Hevs.
        rewrite (Hevs1 _ Hev1). destruct (Hevs _ Hev2) as [? _]. lia.
      * by eapply same_index_sorted.
    + apply Forall_app. split.
      * eapply Forall_impl; [exact Hevs1|]. simpl. intros ev ->.
        split; [lia|]. rewrite Nat.sub_diag. exists (fs', o'). split; [done|].
        simpl. by rewrite <- is_false_true, Ho'.
      * eapply Forall_impl; [exact Hevs|]. simpl. intros ev [Hb ?]. split; [lia|done].
Qed.
End ReadStream.

Lemma set_fs_rest (i : nat) (o oc : options_obj) :
  opt_rest oc = opt_rest o -> set_fs i oc = set_fs i o.
Proof. unfold set_fs. by intros ->. Qed.

Section WriteStream.
Variable path : string.
(** The state of the [options] object when the call starts. *)
Variable options : options_obj.

Lemma createWriteStream_try_calls (i : nat) (fs : IFS) (oc : options_obj) (w : world) :
  opt_rest oc = opt_rest options ->
  match fs_createWriteStream fs with
  | None =>
      calls (createWriteStream_try i fs path oc w).2 = calls w
      /\ (createWriteStream_try i fs path oc w).1.2 = oc
  | Some _ =>
      calls (createWriteStream_try i fs path oc w).2
      = calls w ++ [InvokedWith i "createWriteStream" (set_fs i options)]
      /\ (createWriteStream_try i fs path oc w).1.2 = set_fs i options
  end.
Proof.
  intros Hoc. unfold createWriteStream_try.
  destruct (fs_createWriteStream fs) as [create|]; mstep; [|done].
  rewrite (set_fs_rest i options oc Hoc).
  destruct (create path (set_fs i options)) as [stream|e]; [destruct (truthy stream)|];
    done.
Qed.

Lemma createWriteStream_try_serves (i : nat) (fs : IFS) (oc : options_obj)
    (stream : jsval) (w : world) :
  opt_rest oc = opt_rest options ->
  serves_write path options i fs stream ->
  exists w', createWriteStream_try i fs path oc w = (Return stream, set_fs i options, w')
             /\ WriteStream w' = fs_WriteStream fs.
Proof.
  intros Hoc (create & Hc & Hs & Ht). unfold createWriteStream_try. rewrite Hc. mstep.
  rewrite (set_fs_rest i options oc Hoc), Hs, Ht. by eexists.
Qed.

Lemma createWriteStream_try_fails (i : nat) (fs : IFS) (oc : options_obj) (w : world) :
  opt_rest oc = opt_rest options ->
  (forall s, ~ serves_write path options i fs s) ->
  exists e oc' w', createWriteStream_try i fs path oc w = (Throw e, oc', w')
                   /\ opt_rest oc' = opt_rest options.
Proof.
  intros Hoc Hno. unfold createWriteStream_try.
  destruct (fs_createWriteStream fs) as [create|] eqn:Hc; mstep; [|by do 3 eexists].
  rewrite (set_fs_rest i options oc Hoc).
  destruct (create path (set_fs i options)) as [stream|e] eqn:Hs; [|by do 3 eexists].
  destruct (truthy stream) eqn:Ht; mstep; [|by do 3 eexists].
  exfalso. apply (Hno stream). by exists create.
Qed.

(** Every delegation hands over the caller's object with [fs] set to the
    entry delegated to, and the object ends with [fs] set to the last
    entry delegated to. *)
Lemma createWriteStream_loop_trace (todo : list entry) (i : nat) (oc : options_obj)
    (lastError : option addr) (w : world) :
  opt_rest oc = opt_rest options ->
  exists evs,
    calls (createWriteStream_loop path todo i oc lastError w).2 = calls w ++ evs
    /\ Forall (fun ev =>
                 ev = InvokedWith (event_index ev) "createWriteStream"
                        (set_fs (event_index ev) options)
                 /\ i <= event_index ev
                 /\ exists x, todo !! (event_index ev - i) = Some x
                              /\ writable x.2 <> Some false
                              /\ is_Some (fs_createWriteStream x.1)) evs
    /\ (createWriteStream_loop path todo i oc lastError w).1.2
       = match last evs with
         | Some ev => set_fs (event_index ev) options
         | None => oc
         end.
Proof.
  revert i oc lastError w.
  induction todo as [|[fs o] rest IH]; intros i oc lastError w Hoc; simpl.
  { exists []. by rewrite app_nil_r. }
  assert (forall oc' lastError' w1 evs1,
    opt_rest oc' = opt_rest options ->
    Forall (fun ev => ev = InvokedWith i "createWriteStream" (set_fs i options)
                      /\ writable o <> Some false
                      /\ is_Some (fs_createWriteStream fs)) evs1 ->
    oc' = match last evs1 with Some ev => set_fs (event_index ev) options | None => oc end ->
    exists evs,
      calls (createWriteStream_loop path rest (S i) oc' lastError' w1).2
      = calls w1 ++ evs
      /\ Forall (fun ev =>
                   ev = InvokedWith (event_index ev) "createWriteStream"
                          (set_fs (event_index ev) options)
                   /\ i <= event_index ev
                   /\ exists x, ((fs, o) :: rest) !! (event_index ev - i) = Some x
                                /\ writable x.2 <> Some false
                                /\ is_Some (fs_createWriteStream x.1)) (evs1 ++ evs)
      /\ (createWriteStream_loop path rest (S i) oc' lastError' w1).1.2
         = match last (evs1 ++ evs) with
           | Some ev => set_fs (event_index ev) options
           | None => oc
           end) as IH'.
  { intros oc' lastError' w1 evs1 Hoc' Hevs1 Hlast.
    destruct (IH (S i) oc' lastError' w1 Hoc') as (evs & Hc & Hevs & Ho').
    exists evs. split; [done|]. split.
    - apply Forall_app. split.
      + eapply Forall_impl; [exact Hevs1|]. simpl. intros ev (-> & Hw & Hm). simpl.
        split; [done|]. split; [lia|]. rewrite Nat.sub_diag. by exists (fs, o).
      + eapply Forall_impl; [exact Hevs|]. simpl. intros ev (Hev & Hi & x & Hx & Hwm).
        split; [done|]. split; [lia|]. exists x. split; [|done].
        replace (event_index ev - i) with (S (event_index ev - S i)) by lia. done.
    - rewrite Ho', last_app. destruct (last evs); [done|]. by rewrite Hlast. }
  destruct (is_false (writable o)) eqn:Ho.
  { destruct (IH' oc lastError w [] Hoc) as (evs & ? & ? & ?); [constructor|done|].
    by exists evs. }
  assert (writable o <> Some false) as Hw by (by rewrite <- is_false_true, Ho).
  unfold bind.
  pose proof (createWriteStream_try_calls i fs oc w Hoc) as Htry.
  destruct (createWriteStream_try i fs path oc w) as [[r oc'] w1] eqn:Heq.
  simpl in Htry.
  destruct (fs_createWriteStream fs) as [create|] eqn:Hm; destruct Htry as [Hc ->].
  - destruct r as [stream|e].
    + exists [InvokedWith i "createWriteStream" (set_fs i options)].
      split; [done|]. split; [|done]. constructor; [|constructor]. simpl.
      split; [done|]. split; [lia|]. rewrite Nat.sub_diag. by exists (fs, o).
    + destruct (IH' (set_fs i options) (Some e) w1
                  [InvokedWith i "createWriteStream" (set_fs i options)])
        as (evs & Hc' & Hevs & Ho'); [done| |done|].
      { constructor; [|constructor]. rewrite ?Hm. done. }
      exists (InvokedWith i "createWriteStream" (set_fs i options) :: evs).
      split; [|done]. rewrite Hc', Hc, <- app_assoc. done.
  - destruct r as [stream|e].
    + exists []. by rewrite app_nil_r.
    + destruct (IH' oc (Some e) w1 [] Hoc) as (evs & Hc' & Hevs & Ho'); [constructor|done|].
      exists evs. split; [|done]. by rewrite Hc', Hc.
Qed.

(** The loop from index [i]: the entries of [pre] are skipped or fail, the
    next entry serves the request. *)
Lemma createWriteStream_loop_first (pre : list entry) (fs : IFS) (o : VolOptions)
    (post : list entry) (stream : jsval) (i : nat) (oc : options_obj)
    (lastError : option addr) (w : world) :
  (forall j x, pre !! j = Some x ->
               writable x.2 = Some false
               \/ forall s, ~ serves_write path options (i + j) x.1 s) ->
  writable o <> Some false ->
  serves_write path options (i + length pre) fs stream ->
  opt_rest oc = opt_rest options ->
  exists w' evs,
    createWriteStream_loop path (pre ++ (fs, o) :: post) i oc lastError w
    = (StreamReturn stream, set_fs (i + length pre) options, w')
    /\ WriteStream w' = fs_WriteStream fs
    /\ calls w' = calls w ++ evs
    /\ StronglySorted le (event_index <$> evs)
    /\ Forall (fun ev => i <= event_index ev <= i + length pre
                         /\ exists x, (pre ++ (fs, o) :: post) !! (event_index ev - i) = Some x
                                      /\ writable x.2 <> Some false) evs.
Proof.
  intros Hpre Ho. revert i oc lastError w Hpre.
  induction pre as [|[fs' o'] pre IH]; intros i oc lastError w Hpre Hserves Hoc; simpl.
  - rewrite (is_false_false _ Ho). unfold bind.
    rewrite Nat.add_0_r in Hserves |- *.
    destruct (createWriteStream_try_serves i fs oc stream w Hoc Hserves)
      as (w' & Heq & Hws).
    pose proof (createWriteStream_try_calls i fs oc w Hoc) as Htry.
    rewrite Heq in Htry |- *. simpl in Htry.
    destruct Hserves as (create & Hm & _). rewrite Hm in Htry. destruct Htry as [Hc _].
    exists w', [InvokedWith i "createWriteStream" (set_fs i options)].
    repeat (split; [done|]). split; [by repeat constructor|].
    constructor; [|constructor]. simpl. split; [lia|]. rewrite Nat.sub_diag.
    by exists (fs, o).
  - assert (forall oc' lastError' w1,
      opt_rest oc' = opt_rest options ->
      exists w' evs,
        createWriteStream_loop path (pre ++ (fs, o) :: post) (S i) oc' lastError' w1
        = (StreamReturn stream, set_fs (i + S (length pre)) options, w')
        /\ WriteStream w' = fs_WriteStream fs
        /\ calls w' = calls w1 ++ evs
        /\ StronglySorted le (event_index <$> evs)
        /\ Forall (fun ev => S i <= event_index ev <= i + S (length pre)
                     /\ exists x, ((fs', o') :: pre ++ (fs, o) :: post)
                                    !! (event_index ev - i) = Some x
                                  /\ writable x.2 <> Some false) evs) as IH'.
    { intros oc' lastError' w1 Hoc'.
      destruct (IH (S i) oc' lastError' w1) as (w' & evs & Heq & ? & ? & ? & Hevs).
      - intros j x Hj. replace (S i + j) with (i + S j) by lia. by apply Hpre.
      - simpl in Hserves. by replace (S i + length pre) with (i + S (length pre)) by lia.
      - done.
      - exists w', evs. replace (S i + length pre) with (i + S (length pre)) in Heq by lia.
        repeat (split; [done|]).
        eapply Forall_impl; [exact Hevs|]. simpl. intros ev [Hb (x & Hx' & Hr)].
        split; [lia|]. exists x. split; [|done].
        replace (event_index ev - i) with (S (event_index ev - S i)) by lia. done. }
    destruct (is_false (writable o')) eqn:Ho'.
    { destruct (IH' oc lastError w Hoc) as (w' & evs & ? & ? & ? & ? & Hevs).
      exists w', evs. repeat (split; [done|]).
      eapply Forall_impl; [exact Hevs|]. simpl. intros ev [Hb ?]. split; [lia|done]. }
    destruct (Hpre 0 (fs', o') eq_refl) as [Hx|Hx];
      [simpl in Hx; apply is_false_true in Hx; congruence|].
    rewrite Nat.add_0_r in Hx. simpl in Hx. unfold bind.
    destruct (createWriteStream_try_fails i fs' oc w Hoc Hx) as (e & oc' & w1 & Heq & Hoc').
    pose proof (createWriteStream_try_calls i fs' oc w Hoc) as Htry.
    rewrite Heq in Htry |- *. simpl in Htry.
    destruct (IH' oc' (Some e) w1 Hoc') as (w' & evs & ? & ? & Hc & Hs & Hevs).
    assert (exists evs1, calls w1 = calls w ++ evs1
                         /\ Forall (fun ev => event_index ev = i) evs1) as (evs1 & Hc1 & Hevs1).
    { destruct (fs_createWriteStream fs'); destruct Htry as [-> _].
      - eexists. split; [done|]. by repeat constructor.
      - exists []. by rewrite app_nil_r. }
    exists w', (evs1 ++ evs). split; [done|]. split; [done|].
    split; [by rewrite Hc, Hc1, app_assoc|]. split.
    + rewrite fmap_app. apply StronglySorted_app_2; [| |done].
      * intros x1 x2 Hx1 Hx2. apply list_elem_of_fmap in Hx1 as (ev1 & -> & Hev1).
        apply list_elem_of_fmap in Hx2 as (ev2 & -> & Hev2).
        rewrite Forall_forall in Hevs1, Hevs.
        rewrite (Hevs1 _ Hev1). destruct (Hevs _ Hev2) as [? _]. lia.
      * by eapply same_index_sorted.
    + apply Forall_app. split.
      * eapply Forall_impl; [exact Hevs1|]. simpl. intros ev ->.
        split; [lia|]. rewrite Nat.sub_diag. exists (fs', o'). split; [done|].
        simpl. by rewrite <- is_false_true, Ho'.
      * eapply Forall_impl; [exact Hevs|]. simpl. intros ev [Hb ?]. split; [lia|done].
Qed.
(** The exact trace and the exact final state of the caller's object, when
    the entries of [pre] are skipped or fail and the next entry serves the
    request. *)
Lemma createWriteStream_loop_served (pre : list entry) (fs : IFS) (o : VolOptions)
    (post : list entry) (stream : jsval) (i : nat) (oc : options_obj)
    (lastError : option addr) (w : world) :
  (forall j x, pre !! j = Some x ->
               writable x.2 = Some false
               \/ forall s, ~ serves_write path options (i + j) x.1 s) ->
  writable o <> Some false ->
  serves_write path options (i + length pre) fs stream ->
  opt_rest oc = opt_rest options ->
  (createWriteStream_loop path (pre ++ (fs, o) :: post) i oc lastError w).1
  = (StreamReturn stream, {| opt_fs := Some (i + length pre); opt_rest := opt_rest options |})
  /\ calls (createWriteStream_loop path (pre ++ (fs, o) :: post) i oc lastError w).2
     = calls w ++ delegations options (pre ++ [(fs, o)]) i.
Proof.
  intros Hpre Ho. revert i oc lastError w Hpre.
  induction pre as [|[fs' o'] pre IH]; intros i oc lastError w Hpre Hserves Hoc; simpl.
  - rewrite (is_false_false _ Ho). unfold bind.
    rewrite Nat.add_0_r in Hserves |- *.
    destruct (createWriteStream_try_serves i fs oc stream w Hoc Hserves)
      as (w' & Heq & Hws).
    pose proof (createWriteStream_try_calls i fs oc w Hoc) as Htry.
    rewrite Heq in Htry |- *. simpl in Htry.
    destruct Hserves as (create & Hm & _). rewrite Hm in Htry |- *.
    destruct Htry as [Hc _]. split; [done|exact Hc].
  - assert (forall oc' lastError' w1,
      opt_rest oc' = opt_rest options ->
      (createWriteStream_loop path (pre ++ (fs, o) :: post) (S i) oc' lastError' w1).1
      = (StreamReturn stream,
         {| opt_fs := Some (i + S (length pre)); opt_rest := opt_rest options |})
      /\ calls (createWriteStream_loop path (pre ++ (fs, o) :: post) (S i) oc'
                  lastError' w1).2
         = calls w1 ++ delegations options (pre ++ [(fs, o)]) (S i)) as IH'.
    { intros oc' lastError' w1 Hoc'.
      replace (i + S (length pre)) with (S i + length pre) by lia.
      apply IH; [|by replace (S i + length pre) with (i + S (length pre)) by lia|done].
      intros j x Hj. replace (S i + j) with (i + S j) by lia. by apply Hpre. }
    destruct (is_false (writable o')) eqn:Ho'; [by apply IH'|].
    destruct (Hpre 0 (fs', o') eq_refl) as [Hx|Hx];
      [simpl in Hx; apply is_false_true in Hx; congruence|].
    rewrite Nat.add_0_r in Hx. simpl in Hx. unfold bind.
    destruct (createWriteStream_try_fails i fs' oc w Hoc Hx) as (e & oc' & w1 & Heq & Hoc').
    pose proof (createWriteStream_try_calls i fs' oc w Hoc) as Htry.
    rewrite Heq in Htry |- *. simpl in Htry.
    destruct (IH' oc' (Some e) w1 Hoc') as [Hres Hc]. split; [exact Hres|].
    rewrite Hc. destruct (fs_createWriteStream fs'); destruct Htry as [-> _].
    + by rewrite <- app_assoc.
    + done.
Qed.

(** The same when no entry serves the request: every writable entry that
    has the method is delegated to, and the call throws. *)
Lemma createWriteStream_loop_unserved (todo : list entry) (i : nat) (oc : options_obj)
    (lastError : option addr) (w : world) :
  (forall j x, todo !! j = Some x ->
               writable x.2 = Some false
               \/ forall s, ~ serves_write path options (i + j) x.1 s) ->
  opt_rest oc = opt_rest options ->
  (exists lastError',
     (createWriteStream_loop path todo i oc lastError w).1.1 = StreamThrow lastError')
  /\ calls (createWriteStream_loop path todo i oc lastError w).2
     = calls w ++ delegations options todo i
  /\ (createWriteStream_loop path todo i oc lastError w).1.2
     = match last (delegations options todo i) with
       | Some ev => {| opt_fs := Some (event_index ev); opt_rest := opt_rest options |}
       | None => oc
       end.
Proof.
  revert i oc lastError w.
  induction todo as [|[fs' o'] rest IH]; intros i oc lastError w Htodo Hoc; simpl.
  { split; [by eexists|]. by rewrite app_nil_r. }
  assert (forall oc' lastError' w1,
    opt_rest oc' = opt_rest options ->
    (exists lastError'',
       (createWriteStream_loop path rest (S i) oc' lastError' w1).1.1
       = StreamThrow lastError'')
    /\ calls (createWriteStream_loop path rest (S i) oc' lastError' w1).2
       = calls w1 ++ delegations options rest (S i)
    /\ (createWriteStream_loop path rest (S i) oc' lastError' w1).1.2
       = match last (delegations options rest (S i)) with
         | Some ev => {| opt_fs := Some (event_index ev); opt_rest := opt_rest options |}
         | None => oc'
         end) as IH'.
  { intros oc' lastError' w1 Hoc'. apply IH; [|done].
    intros j x Hj. replace (S i + j) with (i + S j) by lia. by apply Htodo. }
  destruct (is_false (writable o')) eqn:Ho'; [by apply IH'|].
  destruct (Htodo 0 (fs', o') eq_refl) as [Hx|Hx];
    [simpl in Hx; apply is_false_true in Hx; congruence|].
  rewrite Nat.add_0_r in Hx. simpl in Hx. unfold bind.
  destruct (createWriteStream_try_fails i fs' oc w Hoc Hx) as (e & oc' & w1 & Heq & Hoc').
  pose proof (createWriteStream_try_calls i fs' oc w Hoc) as Htry.
  rewrite Heq in Htry |- *. simpl in Htry.
  destruct (IH' oc' (Some e) w1 Hoc') as (Hres & Hc & Hfin). split; [exact Hres|].
  rewrite Hc, Hfin. destruct (fs_createWriteStream fs'); destruct Htry as [-> ->].
  - split; [by rewrite <- app_assoc|].
    destruct (delegations options rest (S i)) as [|ev evs] eqn:Hd; [done|].
    rewrite last_cons_cons. destruct (last (ev :: evs)) eqn:Hl; [done|].
    by apply last_None in Hl.
  - done.
Qed.
End WriteStream.

(** C9 (as stated) fails: with two backends that both serve the request,
    the stream of the one registered first is returned, not that of the
    most recently registered one. *)
Lemma most_recent_is_not_first :
  ~ most_recent_first two_streams "/f" sample_world.
Proof.
  intros H.
  specialize (H [(stream_backend (Some (JBool true)) (Return (JObj 1)) (JObj 10),
                  readable_writable)]
                (stream_backend (Some (JBool true)) (Return (JObj 2)) (JObj 20))
                readable_writable [] (JObj 2) eq_refl).
  assert ((createReadStream two_streams "/f" sample_world).1 = StreamReturn (JObj 2)) as Heq.
  { apply H; [done| |constructor].
    eexists. split; [reflexivity|]. split; [by exists (JBool true)|done]. }
  vm_compute in Heq. discriminate.
Qed.

(** C9 (amended). [createReadStream] tries the readable entries, and
    [createWriteStream] the writable ones, in registration order, the
    earliest registered entry first.  The first entry that serves the
    request (for [createReadStream]: passes the existence check when the
    backend has one, and returns a truthy stream; for [createWriteStream],
    which makes no existence check: returns a truthy stream) provides the
    result and the stream class; the entries invoked are readable
    (writable) ones, in ascending order of index, and none after the entry
    that served. *)
Theorem streams_try_earliest_registered_first
    (pre : list entry) (fs : IFS) (o : VolOptions) (post : list entry)
    (path : string) (stream : jsval) (options : option options_obj) (w : world) :
  let fss := pre ++ (fs, o) :: post in
  let options0 := default {| opt_fs := None; opt_rest := [] |} options in
  (Forall (fun x => readable x.2 = Some false \/ forall s, ~ serves_read path x.1 s) pre ->
   readable o <> Some false ->
   serves_read path fs stream ->
   exists w' evs,
     createReadStream fss path w = (StreamReturn stream, w')
     /\ ReadStream w' = fs_ReadStream fs
     /\ calls w' = calls w ++ evs
     /\ StronglySorted le (event_index <$> evs)
     /\ Forall (fun ev => event_index ev <= length pre
                          /\ exists x, fss !! event_index ev = Some x
                                       /\ readable x.2 <> Some false) evs)
  /\ ((forall j x, pre !! j = Some x ->
                   writable x.2 = Some false
                   \/ forall s, ~ serves_write path options0 j x.1 s) ->
      writable o <> Some false ->
      serves_write path options0 (length pre) fs stream ->
      exists w' evs,
        createWriteStream fss path options w
        = (StreamReturn stream, set_fs (length pre) options0, w')
        /\ WriteStream w' = fs_WriteStream fs
        /\ calls w' = calls w ++ evs
        /\ StronglySorted le (event_index <$> evs)
        /\ Forall (fun ev => event_index ev <= length pre
                             /\ exists x, fss !! event_index ev = Some x
                                          /\ writable x.2 <> Some false) evs).
Proof.
  intros fss options0. split.
  - intros Hpre Ho Hs. unfold createReadStream.
    destruct (createReadStream_loop_first path pre fs o post stream 0 None w Hpre Ho Hs)
      as (w' & evs & ? & ? & ? & ? & Hevs).
    exists w', evs. repeat (split; [done|]).
    eapply Forall_impl; [exact Hevs|]. simpl. intros ev [Hb Hx].
    rewrite Nat.sub_0_r in Hx. split; [lia|done].
  - intros Hpre Ho Hs. unfold createWriteStream.
    destruct (createWriteStream_loop_first path options0 pre fs o post stream 0 options0
                None w Hpre Ho Hs eq_refl)
      as (w' & evs & ? & ? & ? & ? & Hevs).
    exists w', evs. repeat (split; [done|]).
    eapply Forall_impl; [exact Hevs|]. simpl. intros ev [Hb Hx].
    rewrite Nat.sub_0_r in Hx. split; [lia|done].
Qed.

Lemma streams_try_earliest_registered_first_witness :
  exists w' evs,
    createReadStream two_streams "/f" sample_world = (StreamReturn (JObj 1), w')
    /\ ReadStream w' = JObj 10
    /\ calls w' = calls sample_world ++ evs
    /\ StronglySorted le (event_index <$> evs)
    /\ Forall (fun ev => event_index ev <= 0
                         /\ exists x, two_streams !! event_index ev = Some x
                                      /\ readable x.2 <> Some false) evs.
Proof.
  apply (proj1 (streams_try_earliest_registered_first []
                  (stream_backend (Some (JBool true)) (Return (JObj 1)) (JObj 10))
                  readable_writable
                  [(stream_backend (Some (JBool true)) (Return (JObj 2)) (JObj 20),
                    readable_writable)]
                  "/f" (JObj 1) None sample_world)).
  - constructor.
  - discriminate.
  - eexists. split; [reflexivity|]. split; [by exists (JBool true)|done].
Defined.

(** C10. [createWriteStream] called with an options object of the caller
    writes to that object.  It delegates to the writable entries that have
    the method, in ascending order of index, up to and including the first
    that returns a stream, and to every one of them if none does; each
    delegation receives the caller's object with [fs] holding that entry.
    When the call ends, the [fs] property of the caller's object holds the
    last entry delegated to, whether the call returned a stream or threw,
    and the rest of the object is as the caller made it. *)
Theorem createWriteStream_assigns_options_fs
    (fss : list entry) (path : string) (options : options_obj) (w : world) :
  (forall pre fs o post stream,
     fss = pre ++ (fs, o) :: post ->
     (forall j x, pre !! j = Some x ->
                  writable x.2 = Some false
                  \/ forall s, ~ serves_write path options j x.1 s) ->
     writable o <> Some false ->
     serves_write path options (length pre) fs stream ->
     (createWriteStream fss path (Some options) w).1
     = (StreamReturn stream,
        {| opt_fs := Some (length pre); opt_rest := opt_rest options |})
     /\ calls (createWriteStream fss path (Some options) w).2
        = calls w ++ delegations options (pre ++ [(fs, o)]) 0)
  /\ ((forall j x, fss !! j = Some x ->
                   writable x.2 = Some false
                   \/ forall s, ~ serves_write path options j x.1 s) ->
      (exists lastError,
         (createWriteStream fss path (Some options) w).1.1 = StreamThrow lastError)
      /\ calls (createWriteStream fss path (Some options) w).2
         = calls w ++ delegations options fss 0
      /\ (createWriteStream fss path (Some options) w).1.2
         = match last (delegations options fss 0) with
           | Some ev => {| opt_fs := Some (event_index ev); opt_rest := opt_rest options |}
           | None => options
           end).
Proof.
  unfold createWriteStream. simpl. split.
  - intros pre fs o post stream -> Hpre Ho Hs.
    by apply (createWriteStream_loop_served path options pre fs o post stream 0).
  - intros Hall. by apply createWriteStream_loop_unserved.
Qed.

Lemma createWriteStream_assigns_options_fs_witness :
  (createWriteStream
     [(stream_backend None (Throw 0) (JObj 10), readable_writable);
      (stream_backend None (Return (JObj 2)) (JObj 20), readable_writable)]
     "/f" (Some {| opt_fs := None; opt_rest := [("flags", JStr "w")] |}) sample_world).1
  = (StreamReturn (JObj 2), {| opt_fs := Some 1; opt_rest := [("flags", JStr "w")] |})
  /\ calls (createWriteStream
              [(stream_backend None (Throw 0) (JObj 10), readable_writable);
               (stream_backend None (Return (JObj 2)) (JObj 20), readable_writable)]
              "/f" (Some {| opt_fs := None; opt_rest := [("flags", JStr "w")] |})
              sample_world).2
     = calls sample_world
       ++ [InvokedWith 0 "createWriteStream"
             {| opt_fs := Some 0; opt_rest := [("flags", JStr "w")] |};
           InvokedWith 1 "createWriteStream"
             {| opt_fs := Some 1; opt_rest := [("flags", JStr "w")] |}].
Proof.
  apply (proj1 (createWriteStream_assigns_options_fs
                  [(stream_backend None (Throw 0) (JObj 10), readable_writable);
                   (stream_backend None (Return (JObj 2)) (JObj 20), readable_writable)]
                  "/f" {| opt_fs := None; opt_rest := [("flags", JStr "w")] |}
                  sample_world)
           [(stream_backend None (Throw 0) (JObj 10), readable_writable)]
           (stream_backend None (Return (JObj 2)) (JObj 20)) readable_writable []
           (JObj 2) eq_refl).
  - intros [|j] x Hj; [|discriminate]. injection Hj as <-. right.
    intros s (create & Hm & Hs & _). injection Hm as <-. discriminate.
  - discriminate.
  - eexists. split; [reflexivity|]. split; reflexivity.
Defined.

(** An instance: both backends are tried, the second returns no stream; the
    caller's object ends with [fs] referring to the second backend. *)
Example options_fs_after_two_attempts :
  (createWriteStream
     [(stream_backend None (Throw 0) (JObj 10), readable_writable);
      (stream_backend None (Return JNull) (JObj 20), readable_writable)]
     "/f" (Some {| opt_fs := None; opt_rest := [("flags", JStr "w")] |}) sample_world).1
  = (StreamThrow (Some 3), {| opt_fs := Some 1; opt_rest := [("flags", JStr "w")] |}).
Proof. reflexivity. Qed.

(** ** The three calling conventions *)

(** C8. The three forms do not always agree.  On an empty registry the
    blocking form throws and the callback form reports an error, while the
    promise form resolves with [undefined].  With an entry registered as
    not readable at the lowest priority, the blocking and promise forms of
    the listing return the merged result, while the callback form reports
    an error of its own making. *)
Theorem calling_conventions_disagree (method : string) (args : list jsval) (w : world) :
  ((syncMethod [] method args w).1 = Throw (length (errors w))
   /\ (asyncMethod [] method args w).1 = CbErr (length (errors w))
   /\ (promiseMethod [] method args w).1 = Return JUndefined)
  /\ ((readdirSync unreadable_then_listing [JStr "/dir"] sample_world).1
      = Return [EString "file.txt"]
      /\ (readdirPromise unreadable_then_listing [JStr "/dir"] sample_world).1
         = Return [EString "file.txt"]
      /\ (readdir unreadable_then_listing [JStr "/dir"] sample_world).1
         = Called (CbErr 3)
      /\ errors (readdir unreadable_then_listing [JStr "/dir"] sample_world).2 !! 3
         = Some (Error_obj "Readable disabled for vol '1': readdir" PrevNull)).
Proof. split; [done|]. vm_compute. done. Qed.

(** * Further properties *)

(** ** Ordered fallback: the first success in priority order *)

Lemma last_cons_last {A} (x : A) (l : list A) (y : A) :
  last l = Some y -> last (x :: l) = Some y.
Proof. destruct l; [done|]. by rewrite last_cons_cons. Qed.

Section Fallback.
Variable method : string.
Variable args : list jsval.
Variable fs : IFS.
Variable o : VolOptions.
Variable v : jsval.
(** The entries of lower priority than [(fs, o)], highest index first. *)
Variable low : list entry.

Lemma syncMethod_loop_fallback (failing : list entry) (lastError : option addr) (w : world)
    (f : list jsval -> completion jsval) :
  fs_method fs method = Some f -> f args = Return v ->
  Forall (fun x => forall g u, fs_method x.1 method = Some g -> g args <> Return u) failing ->
  exists w' evs,
    syncMethod_loop method args (failing ++ (fs, o) :: low) lastError w = (Return v, w')
    /\ calls w' = calls w ++ evs
    /\ Forall (fun ev => length low <= event_index ev) evs
    /\ last evs = Some (Invoked (length low) method).
Proof.
  intros Hm Hf Hfail. revert lastError w.
  induction Hfail as [|[fs' o'] failing Hx _ IH]; intros lastError w; simpl.
  - rewrite Hm. mstep. rewrite Hf.
    exists (with_calls (calls w ++ [Invoked (length low) method]) w),
           [Invoked (length low) method].
    repeat split. by repeat constructor.
  - assert (bool_decide (length (failing ++ (fs, o) :: low) = 0) = false) as Hi.
    { apply bool_decide_eq_false. rewrite length_app. simpl. lia. }
    simpl in Hx. destruct (fs_method fs' method) as [g|] eqn:Hg; mstep.
    + destruct (g args) as [u|e] eqn:Hga; [by destruct (Hx g u eq_refl)|].
      mstep. rewrite Hi.
      match goal with |- context [syncMethod_loop _ _ _ ?le ?w1] =>
        destruct (IH le w1) as (w' & evs & Heq & Hc & Hevs & Hlast) end.
      exists w', (Invoked (length (failing ++ (fs, o) :: low)) method :: evs).
      split; [exact Heq|]. split; [rewrite Hc; simpl; by rewrite <- app_assoc|].
      split; [|by apply last_cons_last].
      constructor; [|done]. simpl. rewrite length_app. simpl. lia.
    + rewrite Hi.
      match goal with |- context [syncMethod_loop _ _ _ ?le ?w1] =>
        destruct (IH le w1) as (w' & evs & Heq & Hc & Hevs & Hlast) end.
      exists w', evs. split; [exact Heq|]. split; [exact Hc|done].
Qed.

Lemma promiseMethod_loop_fallback (failing : list entry) (lastError : option addr)
    (w : world) (p : promises_obj) (f : list jsval -> completion jsval) :
  fs_promises fs = Some p -> p_method p method = Some f -> f args = Return v ->
  Forall (fun x => forall q g u, fs_promises x.1 = Some q -> p_method q method = Some g ->
                                 g args <> Return u) failing ->
  exists w' evs,
    promiseMethod_loop method args (failing ++ (fs, o) :: low) lastError w = (Return v, w')
    /\ calls w' = calls w ++ evs
    /\ Forall (fun ev => length low <= event_index ev) evs
    /\ last evs = Some (Invoked (length low) method).
Proof.
  intros Hp Hm Hf Hfail. revert lastError w.
  induction Hfail as [|[fs' o'] failing Hx _ IH]; intros lastError w; simpl.
  - rewrite Hp, Hm. mstep. rewrite Hf.
    exists (with_calls (calls w ++ [Invoked (length low) method]) w),
           [Invoked (length low) method].
    repeat split. by repeat constructor.
  - assert (bool_decide (length (failing ++ (fs, o) :: low) = 0) = false) as Hi.
    { apply bool_decide_eq_false. rewrite length_app. simpl. lia. }
    assert (forall le w1,
      exists w' evs,
        promiseMethod_loop method args (failing ++ (fs, o) :: low) le w1 = (Return v, w')
        /\ calls w' = calls w1 ++ evs
        /\ Forall (fun ev => length low <= event_index ev) evs
        /\ last evs = Some (Invoked (length low) method)) as IH' by (intros; apply IH).
    simpl in Hx.
    destruct (fs_promises fs') as [q|] eqn:Hq;
      [destruct (p_method q method) as [g|] eqn:Hg|]; mstep.
    + destruct (g args) as [u|e] eqn:Hga; [by destruct (Hx q g u eq_refl Hg)|].
      mstep. rewrite Hi.
      match goal with |- context [promiseMethod_loop _ _ _ ?le ?w1] =>
        destruct (IH' le w1) as (w' & evs & Heq & Hc & Hevs & Hlast) end.
      exists w', (Invoked (length (failing ++ (fs, o) :: low)) method :: evs).
      split; [exact Heq|]. split; [rewrite Hc; simpl; by rewrite <- app_assoc|].
      split; [|by apply last_cons_last].
      constructor; [|done]. simpl. rewrite length_app. simpl. lia.
    + rewrite Hi.
      match goal with |- context [promiseMethod_loop _ _ _ ?le ?w1] =>
        destruct (IH' le w1) as (w' & evs & Heq & Hc & Hevs & Hlast) end.
      exists w', evs. split; [exact Heq|]. split; [exact Hc|done].
    + rewrite Hi.
      match goal with |- context [promiseMethod_loop _ _ _ ?le ?w1] =>
        destruct (IH' le w1) as (w' & evs & Heq & Hc & Hevs & Hlast) end.
      exists w', evs. split; [exact Heq|]. split; [exact Hc|done].
Qed.

Lemma asyncMethod_iterate_fallback (n : nat) (failing : list entry)
    (err lastError : option addr) (w : world)
    (f : list jsval -> async_outcome jsval) :
  fs_async fs method = Some f -> f args = CbResult v ->
  Forall (fun x => forall g u, fs_async x.1 method = Some g -> g args <> CbResult u)
         failing ->
  exists w' evs,
    asyncMethod_iterate n method args (failing ++ (fs, o) :: low) err lastError w
    = (CbOk v, w')
    /\ calls w' = calls w ++ evs
    /\ Forall (fun ev => length low <= event_index ev) evs
    /\ last evs = Some (Invoked (length low) method).
Proof.
  intros Hm Hf Hfail. revert err lastError w.
  induction Hfail as [|[fs' o'] failing Hx _ IH]; intros err lastError w; simpl;
    unfold bind at 1; rewrite <- (note_error_calls err lastError w);
    destruct (note_error err lastError w) as [le' w1]; simpl; clear w; revert w1; intros w.
  - rewrite Hm. mstep. rewrite Hf.
    exists (with_calls (calls w ++ [Invoked (length low) method]) w),
           [Invoked (length low) method].
    repeat split. by repeat constructor.
  - simpl in Hx. destruct (fs_async fs' method) as [g|] eqn:Hg; mstep.
    + assert (forall e,
        exists w' evs,
          asyncMethod_iterate n method args (failing ++ (fs, o) :: low) (Some e) le'
            (with_calls (calls w ++ [Invoked (length (failing ++ (fs, o) :: low)) method]) w)
          = (CbOk v, w')
          /\ calls w' = calls w ++ evs
          /\ Forall (fun ev => length low <= event_index ev) evs
          /\ last evs = Some (Invoked (length low) method)) as IH'.
      { intros e.
        match goal with |- context [asyncMethod_iterate _ _ _ _ ?e0 ?le ?w1] =>
          destruct (IH e0 le w1) as (w' & evs & Heq & Hc & Hevs & Hlast) end.
        exists w', (Invoked (length (failing ++ (fs, o) :: low)) method :: evs).
        split; [exact Heq|]. split; [rewrite Hc; simpl; by rewrite <- app_assoc|].
        split; [|by apply last_cons_last].
        constructor; [|done]. simpl. rewrite length_app. simpl. lia. }
      destruct (g args) as [e|u|e] eqn:Hga; [apply IH'| |apply IH'].
      by destruct (Hx g u eq_refl).
    + match goal with |- context [asyncMethod_iterate _ _ _ _ ?e0 ?le ?w1] =>
        destruct (IH e0 le w1) as (w' & evs & Heq & Hc & Hevs & Hlast) end.
      exists w', evs. split; [exact Heq|]. split; [exact Hc|done].
Qed.
End Fallback.

(** X1. A generic operation returns the result of the entry of highest
    priority that succeeds: when every entry registered after [(fs, o)]
    fails or lacks the method and [(fs, o)] succeeds, the three forms return
    its result; the last method invoked is that entry's, and no entry
    registered before it is invoked. *)
Theorem first_success_in_priority_order_wins
    (pre post : list entry) (fs : IFS) (o : VolOptions) (method : string)
    (args : list jsval) (v : jsval) (w : world) :
  let fss := pre ++ (fs, o) :: post in
  ((exists f, fs_method fs method = Some f /\ f args = Return v) ->
   Forall (fun x => forall g u, fs_method x.1 method = Some g -> g args <> Return u) post ->
   exists w' evs,
     syncMethod fss method args w = (Return v, w')
     /\ calls w' = calls w ++ evs
     /\ Forall (fun ev => length pre <= event_index ev) evs
     /\ last evs = Some (Invoked (length pre) method))
  /\ ((exists f, fs_async fs method = Some f /\ f args = CbResult v) ->
      Forall (fun x => forall g u, fs_async x.1 method = Some g -> g args <> CbResult u)
             post ->
      exists w' evs,
        asyncMethod fss method args w = (CbOk v, w')
        /\ calls w' = calls w ++ evs
        /\ Forall (fun ev => length pre <= event_index ev) evs
        /\ last evs = Some (Invoked (length pre) method))
  /\ ((exists p f, fs_promises fs = Some p /\ p_method p method = Some f
                   /\ f args = Return v) ->
      Forall (fun x => forall q g u, fs_promises x.1 = Some q ->
                                     p_method q method = Some g -> g args <> Return u)
             post ->
      exists w' evs,
        promiseMethod fss method args w = (Return v, w')
        /\ calls w' = calls w ++ evs
        /\ Forall (fun ev => length pre <= event_index ev) evs
        /\ last evs = Some (Invoked (length pre) method)).
Proof.
  intros fss. subst fss.
  assert (reverse (pre ++ (fs, o) :: post) = reverse post ++ (fs, o) :: reverse pre) as Hrev.
  { by rewrite reverse_app, reverse_cons, <- app_assoc. }
  split; [|split].
  - intros (f & Hm & Hf) Hfail. unfold syncMethod.
    rewrite bool_decide_eq_false_2 by (rewrite length_app; simpl; lia). rewrite Hrev.
    destruct (syncMethod_loop_fallback method args fs o v (reverse pre) (reverse post)
                None w f Hm Hf) as (w' & evs & ? & ? & Hevs & Hlast).
    { by apply Forall_reverse. }
    rewrite length_reverse in Hevs, Hlast. by exists w', evs.
  - intros (f & Hm & Hf) Hfail. unfold asyncMethod. rewrite Hrev.
    destruct (asyncMethod_iterate_fallback method args fs o v (reverse pre)
                (length (pre ++ (fs, o) :: post)) (reverse post) None None w f Hm Hf)
      as (w' & evs & ? & ? & Hevs & Hlast).
    { by apply Forall_reverse. }
    rewrite length_reverse in Hevs, Hlast. by exists w', evs.
  - intros (p & f & Hp & Hm & Hf) Hfail. unfold promiseMethod. rewrite Hrev.
    destruct (promiseMethod_loop_fallback method args fs o v (reverse pre) (reverse post)
                None w p f Hp Hm Hf) as (w' & evs & ? & ? & Hevs & Hlast).
    { by apply Forall_reverse. }
    rewrite length_reverse in Hevs, Hlast. by exists w', evs.
Qed.

Lemma first_success_in_priority_order_wins_witness :
  exists w' evs,
    syncMethod [(file_backend (Return (JNum 1)), readable_writable);
                (file_backend (Return (JNum 7)), readable_writable);
                (file_backend (Throw 0), readable_writable)]
               "statSync" [JStr "/f"] sample_world = (Return (JNum 7), w')
    /\ calls w' = calls sample_world ++ evs
    /\ Forall (fun ev => 1 <= event_index ev) evs
    /\ last evs = Some (Invoked 1 "statSync").
Proof.
  apply (proj1 (first_success_in_priority_order_wins
                  [(file_backend (Return (JNum 1)), readable_writable)]
                  [(file_backend (Throw 0), readable_writable)]
                  (file_backend (Return (JNum 7))) readable_writable
                  "statSync" [JStr "/f"] (JNum 7) sample_world)).
  - exists (fun _ => Return (JNum 7)). split; reflexivity.
  - repeat constructor. simpl. intros g u [= <-]. discriminate.
Defined.

(** ** The callback of a generic operation *)

(** The last call of [iterate] has an error to hand over. *)
Lemma asyncMethod_iterate_reports (n : nat) (method : string) (args : list jsval)
    (todo : list entry) (err lastError : option addr) (w : world) :
  err <> None \/ todo <> [] \/ n = 0 ->
  (asyncMethod_iterate n method args todo err lastError w).1 <> CbUndefined.
Proof.
  revert err lastError w.
  induction todo as [|[fs o] rest IH]; intros err lastError w H; simpl.
  - destruct err as [e|]; mstep; [done|].
    destruct H as [H|[H| ->]]; done.
  - unfold bind at 1. destruct (note_error err lastError w) as [le' w1]. simpl.
    destruct (fs_async fs method) as [func|]; mstep.
    + destruct (func args); [apply IH; by left|done|apply IH; by left].
    + apply IH. by left.
Qed.

(** ** Agreement of the three forms *)

Section Mirrored.
Variable method : string.
Variable args : list jsval.

Lemma promiseMethod_loop_mirrored (todo : list entry) (lastError : option addr)
    (w : world) :
  Forall (mirrored method args) todo ->
  promiseMethod_loop method args todo lastError w
  = syncMethod_loop method args todo lastError w.
Proof.
  intros H. revert lastError w.
  induction H as [|[fs o] rest (f & g & p & f' & Hf & Hg & Hp & Hf' & Heq & Hm) _ IH];
    intros lastError w; simpl; [done|].
  simpl in Hf, Hp. rewrite Hf, Hp, Hf'. mstep. rewrite Heq.
  destruct (f args) as [v|err]; mstep; [done|]. case_bool_decide; [done|apply IH].
Qed.

Lemma asyncMethod_iterate_mirrored (n : nat) (todo : list entry)
    (err lastError : option addr) (w : world) :
  todo <> [] ->
  Forall (mirrored method args) todo ->
  asyncMethod_iterate n method args todo err lastError w
  = (as_callback
       (syncMethod_loop method args todo (note_error err lastError w).1
                        (note_error err lastError w).2).1,
     (syncMethod_loop method args todo (note_error err lastError w).1
                      (note_error err lastError w).2).2).
Proof.
  intros Hne H. revert Hne err lastError w.
  induction H as [|[fs o] rest (f & g & p & f' & Hf & Hg & Hp & Hf' & Heq & Hm) Hrest IH];
    intros Hne err lastError w; [done|]. clear Hne. simpl.
  unfold bind at 1. destruct (note_error err lastError w) as [le' w1]. simpl.
  simpl in Hf, Hg. rewrite Hf, Hg. mstep.
  destruct (f args) as [v|e]; simpl in Hm.
  { rewrite Hm. reflexivity. }
  assert (forall w2,
    asyncMethod_iterate n method args rest (Some e) le' w2
    = (let '(r, w') :=
         (if bool_decide (length rest = 0) then ret (Throw e)
          else syncMethod_loop method args rest (Some e))
           (with_errors (alter (fun o => Error_obj (message o) (prev_of le')) e (errors w2))
                        w2)
       in (as_callback r, w'))) as Hstep.
  { intros w2. destruct rest as [|x rest].
    - reflexivity.
    - rewrite IH by done. rewrite bool_decide_eq_false_2 by done.
      mstep. by destruct (syncMethod_loop _ _ _ _ _). }
  destruct Hm as [-> | ->]; rewrite Hstep; mstep;
    match goal with |- context [(if ?b then _ else _) ?w2] =>
      by destruct ((if b then ret (Throw e) else syncMethod_loop method args rest (Some e)) w2)
    end.
Qed.
End Mirrored.

(** X4. On a registry that is not empty and whose backends all implement
    [method] so that the three forms of a backend complete alike, the three
    forms of the union complete alike as well: the promise form is the
    blocking form, and the callback receives what the blocking form returns
    or throws, with the same error objects linked in the same way. *)
Theorem three_forms_agree_on_mirrored_backends
    (fss : list entry) (method : string) (args : list jsval) (w : world) :
  fss <> [] ->
  Forall (mirrored method args) fss ->
  promiseMethod fss method args w = syncMethod fss method args w
  /\ asyncMethod fss method args w
     = (as_callback (syncMethod fss method args w).1, (syncMethod fss method args w).2).
Proof.
  intros Hne H. apply Forall_reverse in H.
  assert (reverse fss <> []) as Hr.
  { intros Hr. apply Hne. by rewrite <- (reverse_involutive fss), Hr. }
  unfold promiseMethod, asyncMethod, syncMethod.
  rewrite bool_decide_eq_false_2 by (by destruct fss).
  split.
  - by apply promiseMethod_loop_mirrored.
  - by rewrite asyncMethod_iterate_mirrored.
Qed.

Lemma three_forms_agree_on_mirrored_backends_witness :
  promiseMethod failing_registry "statSync" [JStr "/f"] sample_world
  = syncMethod failing_registry "statSync" [JStr "/f"] sample_world.
Proof.
  apply (proj1 (three_forms_agree_on_mirrored_backends failing_registry "statSync"
                  [JStr "/f"] sample_world ltac:(discriminate)
                  ltac:(repeat constructor; simpl; repeat eexists; by left))).
Defined.

(** ** open and openSync against the generic operations *)

Section OpenGeneric.
Variable flags : string.
Variable args : list jsval.

Lemma openSync_loop_generic (todo : list entry) (lastError : option addr) (w : world) :
  args !! 1 = Some (JStr flags) ->
  Forall (fun x => mode_skips flags x.2 = false
                   /\ fs_openSync x.1 = fs_method x.1 "openSync") todo ->
  openSync_loop args todo lastError w = syncMethod_loop "openSync" args todo lastError w.
Proof.
  intros Hf H. apply flags_lookup in Hf. revert lastError w.
  induction H as [|[fs o] rest [Hs Hm] _ IH]; intros lastError w; simpl; [done|].
  simpl in Hs, Hm. rewrite Hf, Hs, Hm.
  destruct (fs_method fs "openSync") as [f|]; mstep.
  - destruct (f args) as [v|err]; mstep; [done|]. case_bool_decide; [done|apply IH].
  - case_bool_decide; [done|apply IH].
Qed.

Lemma open_iterate_generic (n : nat) (todo : list entry) (err lastError : option addr)
    (w : world) :
  Forall (fun x => mode_skips flags x.2 = false
                   /\ fs_open x.1 = fs_async x.1 "open") todo ->
  open_iterate n (JStr flags) args todo err lastError w
  = (Called (asyncMethod_iterate n "open" args todo err lastError w).1,
     (asyncMethod_iterate n "open" args todo err lastError w).2).
Proof.
  intros H. revert err lastError w.
  induction H as [|[fs o] rest [Hs Hm] _ IH]; intros err lastError w; simpl.
  - destruct err as [e|]; mstep; [done|]. by case_bool_decide.
  - simpl in Hs, Hm. rewrite Hs, Hm.
    destruct err as [e0|]; mstep.
    all: destruct (fs_async fs "open") as [func|]; mstep; [|apply IH].
    all: destruct (func args); [apply IH|done|apply IH].
Qed.
End OpenGeneric.

(** X5. Gating is all that sets [open] and [openSync] apart from the
    generic operations: when the access mode excludes no entry, [openSync]
    on a registry that is not empty is the blocking generic operation on
    the backends' [openSync], and [open] is the callback-style generic
    operation on the backends' [open]. *)
Theorem open_without_exclusion_is_generic
    (fss : list entry) (flags : string) (args : list jsval) (w : world) :
  Forall (fun x => mode_skips flags x.2 = false) fss ->
  (fss <> [] ->
   args !! 1 = Some (JStr flags) ->
   Forall (fun x => fs_openSync x.1 = fs_method x.1 "openSync") fss ->
   openSync fss args w = syncMethod fss "openSync" args w)
  /\ (open_flags args = JStr flags ->
      Forall (fun x => fs_open x.1 = fs_async x.1 "open") fss ->
      open fss args w
      = (Called (asyncMethod fss "open" args w).1, (asyncMethod fss "open" args w).2)).
Proof.
  intros Hs. split.
  - intros Hne Hf Hm. unfold openSync, syncMethod.
    rewrite bool_decide_eq_false_2 by (by destruct fss).
    apply (openSync_loop_generic flags); [done|].
    apply Forall_reverse, Forall_forall. intros x Hx.
    rewrite Forall_forall in Hs, Hm. split; [by apply Hs|by apply Hm].
  - intros Hf Hm. unfold open, asyncMethod. rewrite Hf.
    apply open_iterate_generic.
    apply Forall_reverse, Forall_forall. intros x Hx.
    rewrite Forall_forall in Hs, Hm. split; [by apply Hs|by apply Hm].
Qed.

Lemma open_without_exclusion_is_generic_witness :
  openSync (generic_open <$> failing_registry) [JStr "/f"; JStr "r"] sample_world
  = syncMethod (generic_open <$> failing_registry) "openSync" [JStr "/f"; JStr "r"]
               sample_world.
Proof.
  assert (Forall (fun x : entry => mode_skips "r" x.2 = false)
                 (generic_open <$> failing_registry)) as Hs.
  { unfold failing_registry. simpl. repeat constructor. }
  apply (proj1 (open_without_exclusion_is_generic (generic_open <$> failing_registry) "r"
                  [JStr "/f"; JStr "r"] sample_world Hs));
    [discriminate|reflexivity|].
  unfold failing_registry. simpl. repeat constructor.
Defined.

(** ** What the access mode looks at *)

Section SameMode.
Variable flags : string.
Variable args : list jsval.

Lemma openSync_loop_same_mode (todo todo' : list entry) (lastError : option addr)
    (w : world) :
  Forall2 (fun x y => x.1 = y.1 /\ mode_skips flags x.2 = mode_skips flags y.2)
          todo todo' ->
  args !! 1 = Some (JStr flags) ->
  openSync_loop args todo lastError w = openSync_loop args todo' lastError w.
Proof.
  intros H Hf. apply flags_lookup in Hf. revert lastError w.
  induction H as [|[fs o] [fs' o'] rest rest' [Hfs Ho] Hrest IH]; intros lastError w;
    simpl; [done|].
  simpl in Ho, Hfs. subst fs'. rewrite Hf, <- Ho, <- (Forall2_length _ _ _ Hrest).
  destruct (mode_skips flags o); [apply IH|].
  destruct (fs_openSync fs) as [f|]; mstep.
  - destruct (f args) as [v|err]; mstep; [done|]. case_bool_decide; [done|apply IH].
  - case_bool_decide; [done|apply IH].
Qed.

Lemma open_iterate_same_mode (n : nat) (todo todo' : list entry)
    (err lastError : option addr) (w : world) :
  Forall2 (fun x y => x.1 = y.1 /\ mode_skips flags x.2 = mode_skips flags y.2)
          todo todo' ->
  open_iterate n (JStr flags) args todo err lastError w
  = open_iterate n (JStr flags) args todo' err lastError w.
Proof.
  intros H. revert err lastError w.
  induction H as [|[fs o] [fs' o'] rest rest' [Hfs Ho] Hrest IH]; intros err lastError w;
    simpl; [done|].
  simpl in Ho, Hfs. subst fs'. rewrite <- Ho, <- (Forall2_length _ _ _ Hrest).
  destruct err as [e0|]; mstep.
  all: destruct (mode_skips flags o); [apply IH|].
  all: destruct (fs_open fs) as [func|]; mstep; [|apply IH].
  all: destruct (func args); [apply IH|done|apply IH].
Qed.
End SameMode.

Lemma open_flags_lookup (args : list jsval) (flags : string) :
  args !! 1 = Some (JStr flags) -> open_flags args = JStr flags.
Proof.
  intros Hf. unfold open_flags. apply lookup_lt_Some in Hf as Hlen.
  rewrite bool_decide_eq_false_2 by lia. by rewrite Hf.
Qed.

Lemma open_same_mode (fss fss' : list entry) (flags : string) (args : list jsval)
    (w : world) :
  Forall2 (fun x y => x.1 = y.1 /\ mode_skips flags x.2 = mode_skips flags y.2) fss fss' ->
  args !! 1 = Some (JStr flags) ->
  openSync fss args w = openSync fss' args w /\ open fss args w = open fss' args w.
Proof.
  intros H Hf. pose proof (Forall2_length _ _ _ H) as Hlen. apply Forall2_reverse in H.
  split.
  - by apply (openSync_loop_same_mode flags).
  - unfold open. rewrite (open_flags_lookup _ _ Hf), <- Hlen.
    by apply open_iterate_same_mode.
Qed.

(** X6. Only the first character of [flags] decides which option gates an
    [open] or [openSync]: with flags that begin with [r] ([r+], which opens
    for writing, included) the [writable] option of the entries has no
    effect at all, and with flags that begin with [w] the [readable] option
    has none. *)
Theorem open_mode_reads_one_option
    (fss fss' : list entry) (s : string) (args : list jsval) (w : world) :
  (Forall2 (fun x y => x.1 = y.1 /\ readable x.2 = readable y.2) fss fss' ->
   args !! 1 = Some (JStr ("r" +:+ s)) ->
   openSync fss args w = openSync fss' args w /\ open fss args w = open fss' args w)
  /\ (Forall2 (fun x y => x.1 = y.1 /\ writable x.2 = writable y.2) fss fss' ->
      args !! 1 = Some (JStr ("w" +:+ s)) ->
      openSync fss args w = openSync fss' args w /\ open fss args w = open fss' args w).
Proof.
  split; intros H Hf.
  - apply (open_same_mode fss fss' ("r" +:+ s)); [|done].
    eapply Forall2_impl; [exact H|]. intros [fs o] [fs' o'] [Hfs Ho].
    split; [exact Hfs|]. unfold mode_skips. simpl in *. by rewrite Ho.
  - apply (open_same_mode fss fss' ("w" +:+ s)); [|done].
    eapply Forall2_impl; [exact H|]. intros [fs o] [fs' o'] [Hfs Ho].
    split; [exact Hfs|]. unfold mode_skips. simpl in *. by rewrite Ho.
Qed.

Lemma open_mode_reads_one_option_witness :
  openSync [(file_backend (Return (JNum 3)),
             {| readable := None; writable := Some false |})]
           [JStr "/f"; JStr "r+"] sample_world
  = openSync [(file_backend (Return (JNum 3)), readable_writable)]
             [JStr "/f"; JStr "r+"] sample_world.
Proof.
  apply (proj1 (open_mode_reads_one_option
                  [(file_backend (Return (JNum 3)),
                    {| readable := None; writable := Some false |})]
                  [(file_backend (Return (JNum 3)), readable_writable)]
                  "+" [JStr "/f"; JStr "r+"] sample_world)); [|reflexivity].
  repeat constructor.
Defined.

(** X7. [flags] that is not a string makes [openSync] on a registry that is
    not empty throw a [TypeError] of the engine, and [open] called with
    [flags] throw it instead of calling back; no backend has been invoked
    by then and no registered entry's error is involved. *)
Theorem flags_not_a_string_is_a_TypeError
    (fss : list entry) (args : list jsval) (w : world) :
  fss <> [] ->
  (forall s, default JUndefined (args !! 1) <> JStr s) ->
  openSync fss args w
  = (Throw (length (errors w)),
     with_errors (errors w ++ [Error_obj flags_TypeError PrevUndefined]) w)
  /\ (2 <= length args ->
      open fss args w
      = (Threw (length (errors w)),
         with_errors (errors w ++ [Error_obj flags_TypeError PrevUndefined]) w)).
Proof.
  intros Hne Hf.
  assert (exists fs o rest, reverse fss = (fs, o) :: rest) as (fs & o & rest & Hr).
  { destruct (reverse fss) as [|[fs o] rest] eqn:Hr; [|by eauto].
    destruct Hne. by rewrite <- (reverse_involutive fss), Hr. }
  split.
  - unfold openSync. rewrite Hr. simpl.
    destruct (default JUndefined (args !! 1)) as [| | | |s|] eqn:Hd; try done.
    by destruct (Hf s).
  - intros Hlen. unfold open, open_flags. rewrite Hr.
    rewrite bool_decide_eq_false_2 by lia. simpl. mstep.
    destruct (default JUndefined (args !! 1)) as [| | | |s|] eqn:Hd; try done.
    by destruct (Hf s).
Qed.

Lemma flags_not_a_string_is_a_TypeError_witness :
  openSync failing_registry [JStr "/f"; JNum 0] sample_world
  = (Throw 3,
     with_errors (errors sample_world ++ [Error_obj flags_TypeError PrevUndefined])
                 sample_world).
Proof.
  apply (proj1 (flags_not_a_string_is_a_TypeError failing_registry [JStr "/f"; JNum 0]
                  sample_world ltac:(discriminate) ltac:(discriminate))).
Defined.

(** ** Directory listings: every readable entry is asked *)

Section Visits.
Variable args : list jsval.

Lemma readdirSync_loop_visits (todo : list entry) (lastError : option addr)
    (result : gmap string readdirEntry) (w : world) :
  calls (readdirSync_loop args todo lastError result w).2
  = calls w ++ visited "readdirSync" (fun fs => implements (fs_readdirSync fs)) todo.
Proof.
  revert lastError result w.
  induction todo as [|[fs o] rest IH]; intros lastError result w; simpl.
  { by rewrite app_nil_r. }
  destruct (is_false (readable o)); simpl; [apply IH|].
  destruct (fs_readdirSync fs) as [f|]; mstep; simpl.
  - destruct (f args) as [l|err]; mstep.
    { rewrite IH. simpl. by rewrite <- app_assoc. }
    destruct (bool_decide (size result = 0) && bool_decide (length rest = 0)) eqn:Hb.
    + apply andb_true_iff in Hb as [_ Hb]. apply bool_decide_eq_true in Hb.
      by destruct rest.
    + rewrite IH. simpl. by rewrite <- app_assoc.
  - destruct (bool_decide (size result = 0) && bool_decide (length rest = 0)) eqn:Hb.
    + apply andb_true_iff in Hb as [_ Hb]. apply bool_decide_eq_true in Hb.
      destruct rest; [|done]. simpl. by rewrite app_nil_r.
    + by rewrite IH.
Qed.

Lemma readdirPromise_loop_visits (todo : list entry) (lastError : option addr)
    (result : gmap string readdirEntry) (w : world) :
  calls (readdirPromise_loop args todo lastError result w).2
  = calls w ++ visited "promises.readdir" (fun fs => implements (promised_readdir fs)) todo.
Proof.
  revert lastError result w.
  induction todo as [|[fs o] rest IH]; intros lastError result w; simpl.
  { by rewrite app_nil_r. }
  destruct (is_false (readable o)); simpl; [apply IH|].
  unfold promised_readdir.
  destruct (fs_promises fs) as [p|]; [destruct (p_readdir p) as [f|]|]; mstep; simpl.
  - destruct (f args) as [l|err]; mstep.
    { rewrite IH. simpl. by rewrite <- app_assoc. }
    destruct (bool_decide (size result = 0) && bool_decide (length rest = 0)) eqn:Hb.
    + apply andb_true_iff in Hb as [_ Hb]. apply bool_decide_eq_true in Hb.
      by destruct rest.
    + rewrite IH. simpl. by rewrite <- app_assoc.
  - destruct (bool_decide (size result = 0) && bool_decide (length rest = 0)) eqn:Hb.
    + apply andb_true_iff in Hb as [_ Hb]. apply bool_decide_eq_true in Hb.
      destruct rest; [|done]. simpl. by rewrite app_nil_r.
    + by rewrite IH.
  - destruct (bool_decide (size result = 0) && bool_decide (length rest = 0)) eqn:Hb.
    + apply andb_true_iff in Hb as [_ Hb]. apply bool_decide_eq_true in Hb.
      destruct rest; [|done]. simpl. by rewrite app_nil_r.
    + by rewrite IH.
Qed.

Lemma readdir_iterate_visits (n : nat) (todo : list entry) (error lastError : option addr)
    (result : gmap string readdirEntry) (w : world) :
  length todo <= n ->
  Forall (calls_back args) todo ->
  calls (readdir_iterate n args todo error lastError result w).2
  = calls w ++ visited "readdir" (fun fs => implements (fs_readdir fs)) todo.
Proof.
  intros Hn H. revert Hn error lastError result w.
  induction H as [|[fs o] rest Hx _ IH]; intros Hn error lastError result w; simpl.
  { rewrite app_nil_r. by destruct error. }
  simpl in Hn. unfold bind at 1. rewrite <- (note_error_calls error lastError w).
  destruct (note_error error lastError w) as [le' w1]. simpl. clear w. revert w1. intros w.
  assert (forall j, j = length rest -> bool_decide (n - j - 1 = n - 1) = true -> rest = [])
    as Hlast.
  { intros j -> Hb. apply bool_decide_eq_true in Hb. destruct rest; [done|]. simpl in *. lia. }
  destruct (fs_readdir fs) as [func|] eqn:Hm; mstep; simpl.
  2:{ rewrite orb_true_r. rewrite IH by lia. done. }
  destruct (is_false (readable o)) eqn:Hr; mstep; simpl.
  { rewrite IH by lia. done. }
  assert (readable o <> Some false) as Hr'.
  { intros Hr'. apply is_false_true in Hr'. congruence. }
  destruct (func args) as [err|l|err] eqn:Hf.
  - case_bool_decide.
    + rewrite IH by lia. simpl. by rewrite <- app_assoc.
    + destruct (bool_decide (n - length rest - 1 = n - 1)) eqn:Hb.
      * by rewrite (Hlast _ eq_refl Hb).
      * rewrite IH by lia. simpl. by rewrite <- app_assoc.
  - destruct (bool_decide (n - length rest - 1 = n - 1)) eqn:Hb.
    + by rewrite (Hlast _ eq_refl Hb).
    + rewrite IH by lia. simpl. by rewrite <- app_assoc.
  - by destruct (Hx Hr' func err Hm).
Qed.
End Visits.

(** X8. A listing asks every readable entry that has the method, each one
    once and in descending order of index, whatever the entries before it
    returned or threw; entries registered as not readable are never
    invoked.  This holds for the blocking and the promise form, and for the
    callback form as long as no backend throws instead of calling back. *)
Theorem listing_visits_every_readable_entry
    (fss : list entry) (args : list jsval) (w : world) :
  calls (readdirSync fss args w).2
  = calls w ++ visited "readdirSync" (fun fs => implements (fs_readdirSync fs))
                       (reverse fss)
  /\ calls (readdirPromise fss args w).2
     = calls w ++ visited "promises.readdir" (fun fs => implements (promised_readdir fs))
                          (reverse fss)
  /\ (Forall (calls_back args) fss ->
      calls (readdir fss args w).2
      = calls w ++ visited "readdir" (fun fs => implements (fs_readdir fs)) (reverse fss)).
Proof.
  split; [apply readdirSync_loop_visits|]. split; [apply readdirPromise_loop_visits|].
  intros H. apply readdir_iterate_visits; [by rewrite length_reverse|by apply Forall_reverse].
Qed.

Lemma listing_visits_every_readable_entry_witness :
  calls (readdir failing_then_listing [JStr "/dir"] sample_world).2
  = calls sample_world ++ [Invoked 1 "readdir"; Invoked 0 "readdir"].
Proof.
  apply (proj2 (proj2 (listing_visits_every_readable_entry failing_then_listing
                         [JStr "/dir"] sample_world))).
  repeat constructor; intros _ func e [= <-]; discriminate.
Defined.

(** ** Directory listings: what the result holds *)

Lemma merged_lookup_reported (listing : entry -> option (list readdirEntry))
    (fss : list entry) (k : string) (r : readdirEntry) :
  merged listing fss !! k = Some r ->
  exists e l, e ∈ fss /\ listing e = Some l /\ r ∈ l.
Proof.
  induction fss as [|e fss IH]; simpl; [by rewrite lookup_empty|].
  unfold merge_entry. destruct (listing e) as [l|] eqn:Hl.
  - rewrite add_entries_lookup. destruct (reported l k) as [r'|] eqn:Hr.
    + intros [= ->]. apply reported_Some in Hr as [_ Hr].
      exists e, l. split; [by left|done].
    + intros Hm. destruct (IH Hm) as (e' & l' & ? & ? & ?).
      exists e', l'. split; [by right|done].
  - intros Hm. destruct (IH Hm) as (e' & l' & ? & ? & ?).
    exists e', l'. split; [by right|done].
Qed.

Lemma merged_is_Some (listing : entry -> option (list readdirEntry))
    (fss : list entry) (e : entry) (l : list readdirEntry) (r : readdirEntry) :
  e ∈ fss -> listing e = Some l -> r ∈ l ->
  is_Some (merged listing fss !! pathFromReaddirEntry r).
Proof.
  intros He Hl Hr. induction fss as [|e' fss IH]; [by apply elem_of_nil in He|].
  simpl. unfold merge_entry.
  apply elem_of_cons in He as [<-|He].
  - rewrite Hl, add_entries_lookup.
    destruct (reported l (pathFromReaddirEntry r)) as [r'|] eqn:Hrep; [by eexists|].
    exfalso. unfold reported in Hrep. apply last_None in Hrep.
    eapply (filter_nil_not_elem_of (fun r' => pathFromReaddirEntry r' = pathFromReaddirEntry r));
      [exact Hrep| |exact Hr]; done.
  - destruct (listing e') as [l'|]; [|by apply IH].
    rewrite add_entries_lookup. destruct (reported l' _); [by eexists|by apply IH].
Qed.

Lemma sortedArray_holds_what_was_reported (listing : entry -> option (list readdirEntry))
    (fss : list entry) :
  holds_what_was_reported listing fss (sortedArrayFromReaddirResult (merged listing fss)).
Proof.
  split.
  - intros r Hr. apply elem_of_sortedArray in Hr as [k Hk].
    by apply merged_lookup_reported in Hk.
  - intros e l r He Hl Hr.
    rewrite sortedArray_names by apply keys_are_names_merged.
    apply elem_of_sorted_keys. by eapply merged_is_Some.
Qed.

(** What each form hands over when it succeeds: the sorted array of the
    merged map. *)
Lemma listing_returns_merged (fss : list entry) (args : list jsval) (w : world)
    (entries : list readdirEntry) (w' : world) :
  (readdirSync fss args w = (Return entries, w') ->
   entries = sortedArrayFromReaddirResult (merged (listing_sync args) fss))
  /\ (readdirPromise fss args w = (Return entries, w') ->
      entries = sortedArrayFromReaddirResult (merged (listing_promise args) fss))
  /\ (readdir fss args w = (Called (CbOk entries), w') ->
      entries = sortedArrayFromReaddirResult (merged (listing_async args) fss)).
Proof.
  split; [|split]; intros Hrun.
  - unfold readdirSync in Hrun.
    pose proof (readdirSync_loop_outcome args (reverse fss) None ∅ w) as Hout.
    destruct (surfaces _ _ _).
    + destruct Hout as (e & w'' & Heq). congruence.
    + destruct Hout as (w'' & Heq). rewrite Heq in Hrun. injection Hrun as <- <-.
      by rewrite merged_foldl.
  - unfold readdirPromise in Hrun.
    pose proof (readdirPromise_loop_outcome args (reverse fss) None ∅ w) as Hout.
    destruct (surfaces _ _ _).
    + destruct Hout as (e & w'' & Heq). congruence.
    + destruct Hout as (w'' & Heq). rewrite Heq in Hrun. injection Hrun as <- <-.
      by rewrite merged_foldl.
  - unfold readdir in Hrun. apply readdir_iterate_success in Hrun.
    + subst entries. by rewrite merged_foldl.
    + by rewrite length_reverse.
Qed.

(** X9. A listing that succeeds, in any of its three forms, holds nothing
    but what the readable backends reported, and it leaves out no name that
    one of them reported. *)
Theorem listing_holds_what_was_reported
    (fss : list entry) (args : list jsval) (w : world) :
  (forall entries w',
     readdirSync fss args w = (Return entries, w') ->
     holds_what_was_reported (listing_sync args) fss entries)
  /\ (forall entries w',
     readdirPromise fss args w = (Return entries, w') ->
     holds_what_was_reported (listing_promise args) fss entries)
  /\ (forall entries w',
     readdir fss args w = (Called (CbOk entries), w') ->
     holds_what_was_reported (listing_async args) fss entries).
Proof.
  split; [|split]; intros entries w' Hrun.
  - apply (proj1 (listing_returns_merged fss args w entries w')) in Hrun as ->.
    apply sortedArray_holds_what_was_reported.
  - apply (proj1 (proj2 (listing_returns_merged fss args w entries w'))) in Hrun as ->.
    apply sortedArray_holds_what_was_reported.
  - apply (proj2 (proj2 (listing_returns_merged fss args w entries w'))) in Hrun as ->.
    apply sortedArray_holds_what_was_reported.
Qed.

Lemma listing_holds_what_was_reported_witness :
  holds_what_was_reported (listing_sync [JStr "/dir"]) two_directories
    [EDirent "a" 1; EDirent "b" 1; EDirent "c" 2].
Proof.
  apply (proj1 (listing_holds_what_was_reported two_directories [JStr "/dir"] sample_world)
           _ (readdirSync two_directories [JStr "/dir"] sample_world).2).
  vm_compute. reflexivity.
Defined.

(** ** The sorted array *)

Lemma omap_lookup_keys (m : gmap string readdirEntry) (l : list (string * readdirEntry)) :
  Forall (fun kv => m !! kv.1 = Some kv.2) l ->
  omap (fun key => m !! key) l.*1 = l.*2.
Proof.
  induction 1 as [|[k r] l Hk _ IH]; [done|]. simpl in Hk. cbn. rewrite Hk. cbn.
  f_equal. exact IH.
Qed.

(** X10. Sorting loses and invents nothing: the array made from the map
    holds exactly the values of the map, each once. *)
Theorem sortedArray_is_a_permutation_of_the_values (m : gmap string readdirEntry) :
  sortedArrayFromReaddirResult m ≡ₚ (map_to_list m).*2
  /\ length (sortedArrayFromReaddirResult m) = size m.
Proof.
  assert (sortedArrayFromReaddirResult m ≡ₚ (map_to_list m).*2) as Hp.
  { unfold sortedArrayFromReaddirResult. rewrite merge_sort_Permutation.
    rewrite omap_lookup_keys; [done|].
    apply Forall_forall. intros [k r] Hkr. by apply elem_of_map_to_list in Hkr. }
  split; [exact Hp|].
  rewrite Hp, length_fmap. apply length_map_to_list.
Qed.

(** ** The callback-style listing *)

Section CallbackListing.
Variable args : list jsval.

Lemma cb_surfaces_cons (x : entry) (rest : list entry) (result : gmap string readdirEntry) :
  cb_surfaces args (x :: rest) result
  = if bool_decide (rest = []) then last_fails args x result
    else cb_surfaces args rest (merge_entry (listing_async args) result x).
Proof. by destruct rest. Qed.

Lemma cb_surfaces_snoc (pre : list entry) (x : entry) (result : gmap string readdirEntry) :
  cb_surfaces args (pre ++ [x]) result
  = last_fails args x (foldl (merge_entry (listing_async args)) result pre).
Proof.
  revert result. induction pre as [|y pre IH]; intros result; [done|].
  simpl. rewrite <- IH. by destruct pre.
Qed.

Lemma readdir_iterate_outcome (n : nat) (todo : list entry) (error lastError : option addr)
    (result : gmap string readdirEntry) (w : world) :
  length todo <= n ->
  Forall (calls_back args) todo ->
  cb_outcome (cb_surfaces args todo result)
             (foldl (merge_entry (listing_async args)) result todo)
             (readdir_iterate n args todo error lastError result w).
Proof.
  intros Hn H. revert Hn error lastError result w.
  induction H as [|[fs o] rest Hx _ IH]; intros Hn error lastError result w.
  { simpl. destruct error; mstep; by eexists. }
  simpl in Hn.
  assert (bool_decide (n - length rest - 1 = n - 1) = bool_decide (rest = [])) as Hlast.
  { apply bool_decide_ext. destruct rest; simpl in *; split; try done; lia. }
  assert (forall e le w1,
    cb_outcome (if bool_decide (rest = []) then true else cb_surfaces args rest result)
               (foldl (merge_entry (listing_async args)) result rest)
               (readdir_iterate n args rest (Some e) le result w1)) as Herr.
  { intros e le w1. destruct (decide (rest = [])) as [->|Hr]; [simpl; by eexists|].
    rewrite (bool_decide_eq_false_2 _ Hr). apply IH. lia. }
  rewrite cb_surfaces_cons. cbn [foldl].
  cbn [readdir_iterate]. unfold bind at 1.
  destruct (note_error error lastError w) as [le' w1]. cbn [fst snd].
  destruct (fs_readdir fs) as [func|] eqn:Hm; mstep.
  2:{ assert (listing_async args (fs, o) = None) as Hl.
      { unfold listing_async. simpl. rewrite Hm. by destruct (is_false (readable o)). }
      assert (refused (fs, o) = true) as Hrf.
      { unfold refused. simpl. by rewrite Hm, orb_true_r. }
      rewrite (merge_entry_skipped _ _ _ Hl). unfold last_fails. rewrite Hrf.
      apply Herr. }
  destruct (is_false (readable o)) eqn:Hr; mstep.
  { assert (listing_async args (fs, o) = None) as Hl.
    { unfold listing_async. simpl. by rewrite Hr. }
    assert (refused (fs, o) = true) as Hrf.
    { unfold refused. simpl. by rewrite Hr. }
    rewrite (merge_entry_skipped _ _ _ Hl). unfold last_fails. rewrite Hrf.
    apply Herr. }
  assert (readable o <> Some false) as Hr'.
  { intros Hr'. apply is_false_true in Hr'. congruence. }
  assert (refused (fs, o) = false) as Hrf.
  { unfold refused. simpl. by rewrite Hr, Hm. }
  unfold last_fails. rewrite Hrf, Hlast. cbn [orb].
  destruct (func args) as [err|l|err] eqn:Hf.
  - assert (listing_async args (fs, o) = None) as Hl.
    { unfold listing_async. simpl. by rewrite Hr, Hm, Hf. }
    rewrite (merge_entry_skipped _ _ _ Hl), Hl. cbn [implements negb andb].
    destruct (decide (size result = 0)) as [Hs|Hs].
    { rewrite !(bool_decide_eq_true_2 _ Hs). by apply Herr. }
    rewrite !(bool_decide_eq_false_2 _ Hs).
    destruct (decide (rest = [])) as [->|Hrest]; [done|].
    rewrite !(bool_decide_eq_false_2 _ Hrest). apply IH. lia.
  - assert (listing_async args (fs, o) = Some l) as Hl.
    { unfold listing_async. simpl. by rewrite Hr, Hm, Hf. }
    assert (merge_entry (listing_async args) result (fs, o) = add_entries l result) as ->.
    { unfold merge_entry. by rewrite Hl. }
    rewrite Hl. cbn [implements negb andb].
    destruct (decide (rest = [])) as [->|Hrest]; [done|].
    rewrite !(bool_decide_eq_false_2 _ Hrest). apply IH. lia.
  - by destruct (Hx Hr' func err Hm).
Qed.

Lemma cb_surfaces_registry (fss : list entry) :
  cb_surfaces args (reverse fss) ∅ = true <-> callback_listing_fails args fss.
Proof.
  unfold callback_listing_fails. destruct fss as [|x rest].
  { split; [by left|done]. }
  rewrite reverse_cons, cb_surfaces_snoc, merged_foldl.
  unfold last_fails, refused.
  rewrite !orb_true_iff, andb_true_iff, !negb_true_iff, bool_decide_eq_true.
  rewrite map_size_empty_iff, merged_empty_iff, is_false_true.
  split.
  - intros H. right. exists x, rest. split; [done|].
    destruct H as [[H|H]|[H Hc]]; [by left| |].
    + right. left. by destruct (fs_readdir x.1).
    + right. right. split; [|done]. by destruct (listing_async args x).
  - intros [?|(x' & rest' & [= <- <-] & H)]; [done|].
    destruct H as [H|[H|[H Hc]]]; [by left; left| |].
    + left. right. by rewrite H.
    + right. by rewrite H.
Qed.
End CallbackListing.

(** X11. The outcome of the callback-style listing, when no backend throws
    instead of calling back: the callback receives an error if the registry
    is empty, or if the entry registered first is not readable, or has no
    [readdir], or fails while no entry registered after it has contributed
    an entry; in every other case it receives the sorted merged result. *)
Theorem callback_listing_outcome (fss : list entry) (args : list jsval) (w : world) :
  Forall (calls_back args) fss ->
  (callback_listing_fails args fss ->
   exists e, (readdir fss args w).1 = Called (CbErr e))
  /\ (~ callback_listing_fails args fss ->
      (readdir fss args w).1
      = Called (CbOk (sortedArrayFromReaddirResult (merged (listing_async args) fss)))).
Proof.
  intros H.
  pose proof (readdir_iterate_outcome args (length fss) (reverse fss) None None ∅ w) as Hout.
  rewrite merged_foldl in Hout. rewrite <- cb_surfaces_registry.
  unfold readdir.
  destruct (cb_surfaces args (reverse fss) ∅); (split; [intros Hf|intros Hn]); try done.
  all: apply Hout; [by rewrite length_reverse|by apply Forall_reverse].
Qed.

Lemma callback_listing_outcome_witness :
  exists e, (readdir unreadable_then_listing [JStr "/dir"] sample_world).1
            = Called (CbErr e).
Proof.
  apply (proj1 (callback_listing_outcome unreadable_then_listing [JStr "/dir"]
                  sample_world
                  ltac:(repeat constructor; intros ? func e [= <-]; discriminate))).
  right. eexists _, _. split; [reflexivity|]. by left.
Defined.

(** ** The promise form of the listing against the blocking form *)

Lemma readdirPromise_loop_mirrors (args : list jsval) (todo : list entry)
    (lastError : option addr) (result : gmap string readdirEntry) (w1 w2 : world) :
  errors w1 = errors w2 ->
  Forall (readdir_mirrored args) todo ->
  (readdirPromise_loop args todo lastError result w1).1
  = (readdirSync_loop args todo lastError result w2).1
  /\ errors (readdirPromise_loop args todo lastError result w1).2
     = errors (readdirSync_loop args todo lastError result w2).2.
Proof.
  intros He H. revert lastError result w1 w2 He.
  induction H as [|[fs o] rest Hx _ IH]; intros lastError result w1 w2 He; simpl; [done|].
  destruct (is_false (readable o)); [by apply IH|].
  unfold readdir_mirrored, promised_readdir in Hx. simpl in Hx.
  destruct (fs_promises fs) as [p|]; [destruct (p_readdir p) as [f|]|];
    destruct (fs_readdirSync fs) as [g|]; simplify_eq/=; mstep.
  - rewrite Hx. destruct (g args) as [l|err]; mstep; [by apply IH|].
    destruct (_ && _); [simpl; by rewrite He|apply IH; simpl; by rewrite He].
  - rewrite He. destruct (_ && _); [simpl; by rewrite ?He|apply IH; simpl; by rewrite ?He].
  - rewrite He. destruct (_ && _); [simpl; by rewrite ?He|apply IH; simpl; by rewrite ?He].
Qed.

(** X12. When every backend's [promises.readdir] completes as its
    [readdirSync] does, or both are missing, the promise form of the
    listing settles as the blocking form completes, with the same error
    objects linked in the same way. *)
Theorem readdirPromise_agrees_with_readdirSync
    (fss : list entry) (args : list jsval) (w : world) :
  Forall (readdir_mirrored args) fss ->
  (readdirPromise fss args w).1 = (readdirSync fss args w).1
  /\ errors (readdirPromise fss args w).2 = errors (readdirSync fss args w).2.
Proof.
  intros H. apply readdirPromise_loop_mirrors; [done|by apply Forall_reverse].
Qed.

Lemma readdirPromise_agrees_with_readdirSync_witness :
  (readdirPromise failing_then_listing [JStr "/dir"] sample_world).1
  = (readdirSync failing_then_listing [JStr "/dir"] sample_world).1.
Proof.
  apply (proj1 (readdirPromise_agrees_with_readdirSync failing_then_listing [JStr "/dir"]
                  sample_world ltac:(by repeat constructor))).
Defined.

(** ** Streams: failure *)

Lemma only_appends_same (w w' : world) : errors w' = errors w -> only_appends w w'.
Proof. intros He. exists []. by rewrite app_nil_r. Qed.

Lemma only_appends_alloc (w w' : world) (message : string) :
  errors w' = errors w ++ [Error_obj message PrevUndefined] -> only_appends w w'.
Proof. intros He. exists [Error_obj message PrevUndefined]. by repeat constructor. Qed.

Lemma only_appends_trans (w1 w2 w3 : world) :
  only_appends w1 w2 -> only_appends w2 w3 -> only_appends w1 w3.
Proof.
  intros (n1 & H1 & F1) (n2 & H2 & F2). exists (n1 ++ n2).
  split; [by rewrite H2, H1, app_assoc|by apply Forall_app].
Qed.

Lemma createReadStream_try_appends (i : nat) (fs : IFS) (path : string) (w : world) :
  only_appends w (createReadStream_try i fs path w).2
  /\ (forall e, (createReadStream_try i fs path w).1 = Throw e ->
                ReadStream (createReadStream_try i fs path w).2 = ReadStream w).
Proof.
  unfold createReadStream_try.
  destruct (fs_createReadStream fs) as [create|]; mstep.
  2:{ split; [by eapply only_appends_alloc|done]. }
  destruct (fs_existsSync fs) as [existsSync|]; mstep.
  - destruct (existsSync path) as [b|e]; [|split; [by apply only_appends_same|done]].
    destruct (truthy b); mstep; [|split; [by eapply only_appends_alloc|done]].
    destruct (create path) as [stream|e]; [|split; [by apply only_appends_same|done]].
    destruct (truthy stream); mstep;
      (split; [first [by apply only_appends_same|by eapply only_appends_alloc]|done]).
  - destruct (create path) as [stream|e]; [|split; [by apply only_appends_same|done]].
    destruct (truthy stream); mstep;
      (split; [first [by apply only_appends_same|by eapply only_appends_alloc]|done]).
Qed.

Lemma createReadStream_loop_failure (path : string) (todo : list entry) (i : nat)
    (lastError : option addr) (w : world) :
  only_appends w (createReadStream_loop path todo i lastError w).2
  /\ (forall le, (createReadStream_loop path todo i lastError w).1 = StreamThrow le ->
        ReadStream (createReadStream_loop path todo i lastError w).2 = ReadStream w
        /\ (le = None <-> lastError = None
                          /\ Forall (fun x => readable x.2 = Some false) todo)).
Proof.
  revert i lastError w.
  induction todo as [|[fs o] rest IH]; intros i lastError w; simpl.
  { split; [by apply only_appends_same|]. intros le [= <-]. split; [done|]. by split; [|intros []]. }
  destruct (is_false (readable o)) eqn:Hr.
  { apply is_false_true in Hr. destruct (IH (S i) lastError w) as [Ha Hf].
    split; [done|]. intros le Hle. destruct (Hf le Hle) as [? Hiff]. split; [done|].
    rewrite Hiff, Forall_cons. simpl. tauto. }
  assert (readable o <> Some false) as Hr'.
  { intros Hr'. apply is_false_true in Hr'. congruence. }
  unfold bind.
  destruct (createReadStream_try_appends i fs path w) as [Ha Hs].
  destruct (createReadStream_try i fs path w) as [[stream|err] w1]; simpl in *.
  { mstep. split; [done|]. intros le Hle. discriminate Hle. }
  destruct (IH (S i) (Some err) w1) as [Ha' Hf].
  split; [by eapply only_appends_trans|].
  intros le Hle. destruct (Hf le Hle) as [-> Hiff]. split; [by eapply Hs|].
  rewrite Hiff, Forall_cons. simpl. split; [by intros [? _]|by intros [_ [? _]]].
Qed.

Lemma createWriteStream_try_appends (i : nat) (fs : IFS) (path : string)
    (options : options_obj) (w : world) :
  only_appends w (createWriteStream_try i fs path options w).2
  /\ (forall e, (createWriteStream_try i fs path options w).1.1 = Throw e ->
                WriteStream (createWriteStream_try i fs path options w).2 = WriteStream w).
Proof.
  unfold createWriteStream_try.
  destruct (fs_createWriteStream fs) as [create|]; mstep.
  2:{ split; [by eapply only_appends_alloc|done]. }
  destruct (create path (set_fs i options)) as [stream|e];
    [|split; [by apply only_appends_same|done]].
  destruct (truthy stream); mstep;
    (split; [first [by apply only_appends_same|by eapply only_appends_alloc]|done]).
Qed.

Lemma createWriteStream_loop_failure (path : string) (todo : list entry) (i : nat)
    (options : options_obj) (lastError : option addr) (w : world) :
  only_appends w (createWriteStream_loop path todo i options lastError w).2
  /\ (forall le,
        (createWriteStream_loop path todo i options lastError w).1.1 = StreamThrow le ->
        WriteStream (createWriteStream_loop path todo i options lastError w).2
        = WriteStream w
        /\ (le = None <-> lastError = None
                          /\ Forall (fun x => writable x.2 = Some false) todo)).
Proof.
  revert i options lastError w.
  induction todo as [|[fs o] rest IH]; intros i options lastError w; simpl.
  { split; [by apply only_appends_same|]. intros le [= <-]. split; [done|]. by split; [|intros []]. }
  destruct (is_false (writable o)) eqn:Hr.
  { apply is_false_true in Hr. destruct (IH (S i) options lastError w) as [Ha Hf].
    split; [done|]. intros le Hle. destruct (Hf le Hle) as [? Hiff]. split; [done|].
    rewrite Hiff, Forall_cons. simpl. tauto. }
  assert (writable o <> Some false) as Hr'.
  { intros Hr'. apply is_false_true in Hr'. congruence. }
  unfold bind.
  destruct (createWriteStream_try_appends i fs path options w) as [Ha Hs].
  destruct (createWriteStream_try i fs path options w) as [[[stream|err] options'] w1];
    simpl in *.
  { mstep. split; [done|]. intros le Hle. discriminate Hle. }
  destruct (IH (S i) options' (Some err) w1) as [Ha' Hf].
  split; [by eapply only_appends_trans|].
  intros le Hle. destruct (Hf le Hle) as [-> Hiff]. split; [by eapply Hs|].
  rewrite Hiff, Forall_cons. simpl. split; [by intros [? _]|by intros [_ [? _]]].
Qed.

(** X13. The stream functions keep no chain of errors: they create error
    objects but never assign the [prev] of any, so the error objects that
    backends threw stay as they were.  When [createReadStream] fails, the
    stream class of the union is as before, and what it throws is [null]
    exactly when no entry is readable. *)
Theorem createReadStream_failure_links_nothing
    (fss : list entry) (path : string) (w : world) :
  only_appends w (createReadStream fss path w).2
  /\ (forall le, (createReadStream fss path w).1 = StreamThrow le ->
        ReadStream (createReadStream fss path w).2 = ReadStream w
        /\ (le = None <-> Forall (fun x => readable x.2 = Some false) fss)).
Proof.
  destruct (createReadStream_loop_failure path fss 0 None w) as [Ha Hf].
  split; [exact Ha|]. intros le Hle. destruct (Hf le Hle) as [? Hiff].
  split; [done|]. rewrite Hiff. tauto.
Qed.

Lemma createReadStream_failure_links_nothing_witness :
  ReadStream (createReadStream [(stream_backend None (Throw 0) JNull, readable_writable)]
                               "/f" sample_world).2
  = ReadStream sample_world
  /\ (Some 0 = None
      <-> Forall (fun x : entry => readable x.2 = Some false)
                 [(stream_backend None (Throw 0) JNull, readable_writable)]).
Proof.
  apply (proj2 (createReadStream_failure_links_nothing
                  [(stream_backend None (Throw 0) JNull, readable_writable)] "/f"
                  sample_world) (Some 0)).
  reflexivity.
Defined.

(** X14. The same for [createWriteStream]: error objects are only created,
    and when it fails the stream class of the union is as before, and what
    it throws is [null] exactly when no entry is writable. *)
Theorem createWriteStream_failure_links_nothing
    (fss : list entry) (path : string) (options : option options_obj) (w : world) :
  only_appends w (createWriteStream fss path options w).2
  /\ (forall le, (createWriteStream fss path options w).1.1 = StreamThrow le ->
        WriteStream (createWriteStream fss path options w).2 = WriteStream w
        /\ (le = None <-> Forall (fun x => writable x.2 = Some false) fss)).
Proof.
  unfold createWriteStream.
  destruct (createWriteStream_loop_failure path fss 0
              (default {| opt_fs := None; opt_rest := [] |} options) None w) as [Ha Hf].
  split; [exact Ha|]. intros le Hle. destruct (Hf le Hle) as [? Hiff].
  split; [done|]. rewrite Hiff. tauto.
Qed.

Lemma createWriteStream_failure_links_nothing_witness :
  WriteStream (createWriteStream [(stream_backend None (Throw 0) JNull, readable_writable)]
                                 "/f" None sample_world).2
  = WriteStream sample_world
  /\ (Some 0 = None
      <-> Forall (fun x : entry => writable x.2 = Some false)
                 [(stream_backend None (Throw 0) JNull, readable_writable)]).
Proof.
  apply (proj2 (createWriteStream_failure_links_nothing
                  [(stream_backend None (Throw 0) JNull, readable_writable)] "/f" None
                  sample_world) (Some 0)).
  reflexivity.
Defined.

(** ** existsSync *)

Section Exists.
Variable path : string.

Lemma existsSync_loop_result (todo : list entry) (i : nat) (w : world) :
  (existsSync_loop path todo i w).1 = existsb (answers_exists path) todo
  /\ only_appends w (existsSync_loop path todo i w).2.
Proof.
  revert i w. induction todo as [|[fs o] rest IH]; intros i w; simpl.
  { split; [done|by apply only_appends_same]. }
  unfold answers_exists at 1. simpl.
  destruct (is_false (readable o)); simpl; [apply IH|].
  destruct (fs_existsSync fs) as [f|]; mstep.
  - destruct (f path) as [v|e].
    + destruct (truthy v); mstep; [split; [done|by apply only_appends_same]|].
      match goal with |- context [existsSync_loop path rest ?j ?w1] =>
        destruct (IH j w1) as [? Ha] end.
      split; [done|]. eapply only_appends_trans; [|exact Ha]. by apply only_appends_same.
    + match goal with |- context [existsSync_loop path rest ?j ?w1] =>
        destruct (IH j w1) as [? Ha] end.
      split; [done|]. eapply only_appends_trans; [|exact Ha]. by apply only_appends_same.
  - match goal with |- context [existsSync_loop path rest ?j ?w1] =>
      destruct (IH j w1) as [? Ha] end.
    split; [done|]. eapply only_appends_trans; [|exact Ha]. by eapply only_appends_alloc.
Qed.

Lemma existsSync_loop_no_answer (todo : list entry) (i : nat) (w : world) :
  Forall (fun y => answers_exists path y = false) todo ->
  calls (existsSync_loop path todo i w).2
  = calls w ++ asked "existsSync" (fun fs => implements (fs_existsSync fs)) todo i.
Proof.
  intros H. revert i w.
  induction H as [|[fs o] rest Hx _ IH]; intros i w; simpl.
  { by rewrite app_nil_r. }
  unfold answers_exists in Hx. simpl in Hx.
  destruct (is_false (readable o)); simpl in *; [apply IH|].
  destruct (fs_existsSync fs) as [f|]; mstep; simpl; [|by rewrite IH].
  destruct (f path) as [v|e].
  - rewrite Hx. rewrite IH. simpl. by rewrite <- app_assoc.
  - rewrite IH. simpl. by rewrite <- app_assoc.
Qed.

Lemma existsSync_loop_answer (pre : list entry) (x : entry) (post : list entry)
    (i : nat) (w : world) :
  Forall (fun y => answers_exists path y = false) pre ->
  answers_exists path x = true ->
  calls (existsSync_loop path (pre ++ x :: post) i w).2
  = calls w ++ asked "existsSync" (fun fs => implements (fs_existsSync fs)) (pre ++ [x]) i.
Proof.
  intros H Hx. revert i w.
  induction H as [|[fs o] rest Hy _ IH]; intros i w; simpl.
  - destruct x as [fs o]. unfold answers_exists in Hx. simpl in *.
    destruct (is_false (readable o)); [done|]. simpl in *.
    destruct (fs_existsSync fs) as [f|]; [|done]. mstep.
    destruct (f path) as [v|e]; [|done]. by rewrite Hx.
  - unfold answers_exists in Hy. simpl in Hy.
    destruct (is_false (readable o)); simpl in *; [apply IH|].
    destruct (fs_existsSync fs) as [f|]; mstep; simpl; [|by rewrite IH].
    destruct (f path) as [v|e].
    + rewrite Hy. rewrite IH. simpl. by rewrite <- app_assoc.
    + rewrite IH. simpl. by rewrite <- app_assoc.
Qed.
End Exists.

(** X15. [existsSync] answers [true] exactly when some readable entry's
    [existsSync] returns a truthy value; an entry that throws or has no
    such method counts as a [false].  It asks the readable entries in
    ascending order of index up to the first that answers, and none after
    it; the errors it catches are dropped without a trace. *)
Theorem existsSync_first_answer (fss : list entry) (path : string) (w : world) :
  (existsSync fss path w).1 = existsb (answers_exists path) fss
  /\ only_appends w (existsSync fss path w).2
  /\ (forall pre x post,
        fss = pre ++ x :: post ->
        Forall (fun y => answers_exists path y = false) pre ->
        answers_exists path x = true ->
        calls (existsSync fss path w).2
        = calls w ++ asked "existsSync" (fun fs => implements (fs_existsSync fs))
                           (pre ++ [x]) 0)
  /\ (Forall (fun y => answers_exists path y = false) fss ->
      calls (existsSync fss path w).2
      = calls w ++ asked "existsSync" (fun fs => implements (fs_existsSync fs)) fss 0).
Proof.
  destruct (existsSync_loop_result path fss 0 w) as [Hr Ha].
  split; [exact Hr|]. split; [exact Ha|]. split.
  - intros pre x post -> Hpre Hx. by apply existsSync_loop_answer.
  - intros H. by apply existsSync_loop_no_answer.
Qed.

Lemma existsSync_first_answer_witness :
  calls (existsSync two_streams "/f" sample_world).2
  = calls sample_world ++ [Invoked 0 "existsSync"].
Proof.
  apply (proj1 (proj2 (proj2 (existsSync_first_answer two_streams "/f" sample_world)))
           [] _ _ eq_refl); [constructor|reflexivity].
Defined.

(** ** watch and watchFile *)

Section Watch.
Variable args : list jsval.

Lemma watch_loop_result (todo : list entry) (i : nat) (watchers : list jsval) (w : world) :
  (watch_loop args todo i watchers w).1 = watchers ++ omap (watcher_of args) todo
  /\ calls (watch_loop args todo i watchers w).2
     = calls w ++ asked "watch" (fun fs => implements (fs_method fs "watch")) todo i
  /\ only_appends w (watch_loop args todo i watchers w).2.
Proof.
  revert i watchers w. induction todo as [|[fs o] rest IH]; intros i watchers w; simpl.
  { rewrite !app_nil_r. split; [done|]. split; [done|by apply only_appends_same]. }
  unfold watcher_of at 1. simpl.
  destruct (is_false (readable o)); simpl; [apply IH|].
  destruct (fs_method fs "watch") as [f|]; mstep; simpl.
  - destruct (f args) as [watcher|e].
    + match goal with |- context [watch_loop args rest ?j ?ws ?w1] =>
        destruct (IH j ws w1) as (-> & -> & Ha) end.
      simpl. rewrite <- !app_assoc. split; [done|]. split; [done|].
      eapply only_appends_trans; [|exact Ha]. by apply only_appends_same.
    + match goal with |- context [watch_loop args rest ?j ?ws ?w1] =>
        destruct (IH j ws w1) as (-> & -> & Ha) end.
      simpl. rewrite <- !app_assoc. split; [done|]. split; [done|].
      eapply only_appends_trans; [|exact Ha]. by apply only_appends_same.
  - match goal with |- context [watch_loop args rest ?j ?ws ?w1] =>
      destruct (IH j ws w1) as (-> & -> & Ha) end.
    simpl. split; [done|]. split; [done|].
    eapply only_appends_trans; [|exact Ha]. by eapply only_appends_alloc.
Qed.

Lemma watchFile_loop_calls (todo : list entry) (i : nat) (w : world) :
  calls (watchFile_loop args todo i w).2
  = calls w ++ asked "watchFile" (fun fs => implements (fs_method fs "watchFile")) todo i
  /\ only_appends w (watchFile_loop args todo i w).2.
Proof.
  revert i w. induction todo as [|[fs o] rest IH]; intros i w; simpl.
  { rewrite !app_nil_r. split; [done|by apply only_appends_same]. }
  destruct (is_false (readable o)); simpl; [apply IH|].
  destruct (fs_method fs "watchFile") as [f|]; mstep; simpl.
  - destruct (f args) as [v|e].
    + match goal with |- context [watchFile_loop args rest ?j ?w1] =>
        destruct (IH j w1) as (-> & Ha) end.
      simpl. rewrite <- !app_assoc. split; [done|].
      eapply only_appends_trans; [|exact Ha]. by apply only_appends_same.
    + match goal with |- context [watchFile_loop args rest ?j ?w1] =>
        destruct (IH j w1) as (-> & Ha) end.
      simpl. rewrite <- !app_assoc. split; [done|].
      eapply only_appends_trans; [|exact Ha]. by apply only_appends_same.
  - match goal with |- context [watchFile_loop args rest ?j ?w1] =>
      destruct (IH j w1) as (-> & Ha) end.
    simpl. split; [done|].
    eapply only_appends_trans; [|exact Ha]. by eapply only_appends_alloc.
Qed.
End Watch.

(** X16. [watch] calls [watch] on every readable entry that has it, in
    ascending order of index, and hands to the proxy the watchers of those
    that returned one, in that order; an entry that throws is passed over
    and stops nothing.  [watchFile] makes the same calls on [watchFile].
    Neither of them fails or keeps any error. *)
Theorem watch_collects_every_readable_watcher
    (fss : list entry) (args : list jsval) (w : world) :
  (watch fss args w).1 = omap (watcher_of args) fss
  /\ calls (watch fss args w).2
     = calls w ++ asked "watch" (fun fs => implements (fs_method fs "watch")) fss 0
  /\ only_appends w (watch fss args w).2
  /\ calls (watchFile fss args w).2
     = calls w ++ asked "watchFile" (fun fs => implements (fs_method fs "watchFile")) fss 0
  /\ only_appends w (watchFile fss args w).2.
Proof.
  destruct (watch_loop_result args fss 0 [] w) as (Hr & Hc & Ha).
  destruct (watchFile_loop_calls args fss 0 w) as (Hc' & Ha').
  by repeat split.
Qed.

(** ** createFSProxy *)

Lemma default_last_cons {A} (d a : A) (l : list A) :
  default d (last (a :: l)) = default a (last l).
Proof.
  revert d a. induction l as [|b l IH]; intros d a; [done|].
  rewrite last_cons_cons, (IH d b), (IH a b). done.
Qed.

Section ProxyProperties.
Variable get : jsval -> string -> property_value.
Variable property : string.

Lemma get_loop_holders (watchers : list jsval)
    (funcCallers : list (jsval * (list jsval -> completion jsval)))
    (prop : property_value) :
  get_loop get property watchers funcCallers prop
  = (funcCallers ++ holders get watchers property,
     default prop (last ((fun watcher => get watcher property) <$> watchers))).
Proof.
  revert funcCallers prop.
  induction watchers as [|watcher rest IH]; intros funcCallers prop; simpl.
  { by rewrite app_nil_r. }
  rewrite IH, default_last_cons. unfold holders. simpl. f_equal.
  destruct (get watcher property); [by rewrite <- app_assoc|done].
Qed.
End ProxyProperties.

(** X17. A property read through the proxy: if some watcher has the
    property as a function, the result is a function over exactly the
    watchers that have it as a function, in the order of the array;
    otherwise it is the value that the last watcher has for the property,
    and [undefined] when there is no watcher. *)
Theorem proxy_get_broadcasts_to_function_holders
    (get : jsval -> string -> property_value) (watchers : list jsval) (property : string) :
  proxy_get get watchers property
  = match holders get watchers property with
    | [] => PReturn (default (PValue JUndefined)
                             (last ((fun watcher => get watcher property) <$> watchers)))
    | funcCallers => PBroadcast funcCallers
    end.
Proof.
  unfold proxy_get. rewrite get_loop_holders. simpl.
  by destruct (holders get watchers property).
Qed.

(** X18. The function that the proxy returns calls the watchers' functions
    in order and returns [undefined], whatever they return; it catches
    nothing, so the first function that throws ends the call with its
    error and the watchers after it are not called. *)
Theorem broadcast_stops_at_the_first_throw
    (funcCallers : list (jsval * (list jsval -> completion jsval))) (args : list jsval) :
  (Forall (fun fc => exists v, fc.2 args = Return v) funcCallers ->
   broadcast funcCallers args = (funcCallers.*1, Return JUndefined))
  /\ (forall pre watcher func post e,
        funcCallers = pre ++ (watcher, func) :: post ->
        Forall (fun fc => exists v, fc.2 args = Return v) pre ->
        func args = Throw e ->
        broadcast funcCallers args = (pre.*1 ++ [watcher], Throw e)).
Proof.
  split.
  - induction 1 as [|[watcher func] rest [v Hv] _ IH]; [done|].
    simpl in *. by rewrite Hv, IH.
  - intros pre watcher func post e -> Hpre He.
    induction Hpre as [|[watcher' func'] rest [v Hv] _ IH]; simpl in *.
    + by rewrite He.
    + by rewrite Hv, IH.
Qed.

Lemma broadcast_stops_at_the_first_throw_witness :
  broadcast [(JObj 1, fun _ => Return (JNum 5)); (JObj 2, fun _ => Throw 0);
             (JObj 3, fun _ => Return JNull)] [JStr "close"]
  = ([JObj 1; JObj 2], Throw 0).
Proof.
  apply (proj2 (broadcast_stops_at_the_first_throw
                  [(JObj 1, fun _ => Return (JNum 5)); (JObj 2, fun _ => Throw 0);
                   (JObj 3, fun _ => Return JNull)] [JStr "close"])
           [(JObj 1, fun _ => Return (JNum 5))] (JObj 2) (fun _ => Throw 0)
           [(JObj 3, fun _ => Return JNull)] 0 eq_refl);
    [|reflexivity].
  repeat constructor. by eexists.
Defined.

(** ** createFS *)

Section CreateFSProperties.
Variables fsSyncMethodsWrite fsSyncMethodsRead : list string.
Variables fsAsyncMethodsWrite fsAsyncMethodsRead : list string.
Variables fsPromiseMethodsWrite fsPromiseMethodsRead : list string.
Variable fs : IFS.
Variable o : VolOptions.
Variable method : string.

(** X19. Wrapping changes nothing for an entry that may be read and
    written: every member that the backend implements, whether a table
    names it or not, completes in the wrapped object as it does in the
    backend, in each of the three forms, and creates no error object. *)
Theorem createFS_is_transparent_without_restrictions :
  is_readable o = true -> is_writable o = true ->
  (forall f, fs_method fs method = Some f ->
     exists h, createFS_method fsSyncMethodsWrite fsSyncMethodsRead
                 fsAsyncMethodsWrite fsAsyncMethodsRead fs o method = Some h
               /\ forall args w, h args w = (f args, w))
  /\ (forall f, fs_async fs method = Some f ->
     exists h, createFS_async fsSyncMethodsWrite fsSyncMethodsRead
                 fsAsyncMethodsWrite fsAsyncMethodsRead fs o method = Some h
               /\ forall args w, h args w = (f args, w))
  /\ (forall f, raw_promise fs method = Some f ->
     exists h, createFS_promise fsPromiseMethodsWrite fsPromiseMethodsRead fs o method
               = Some h
               /\ forall args w, h args w = (f args, w)).
Proof.
  intros Hr Hw. split; [|split]; intros f Hf.
  - unfold createFS_method, createFS_table. rewrite Hr, Hw.
    repeat case_bool_decide; simpl; rewrite ?Hf; simpl;
      (eexists; split; [reflexivity|]); intros args w; unfold createFunc; by rewrite ?Hf.
  - unfold createFS_async, createFS_table. rewrite Hr, Hw.
    repeat case_bool_decide; simpl; rewrite ?Hf; simpl;
      (eexists; split; [reflexivity|]); intros args w; by rewrite ?Hf.
  - unfold createFS_promise. rewrite Hr, Hw.
    repeat case_bool_decide; simpl; rewrite ?Hf; simpl;
      (eexists; split; [reflexivity|]); intros args w; unfold promise_wrapper;
      by rewrite ?Hf.
Qed.

(** X20. A member that the options deny.  On an entry registered as not
    readable, a name of a read table that no table applied later names
    throws [Filesystem is not readable] in the blocking and the callback
    form without looking at the backend, which need not even have the
    method.  The promise form looks at the backend first: it reports the
    method as not supported when the backend lacks it, and the denial only
    otherwise. *)
Theorem createFS_denies_what_is_not_readable :
  readable o = Some false ->
  ((method ∉ fsAsyncMethodsWrite) ->
   method ∈ fsAsyncMethodsRead
   \/ ((method ∉ fsSyncMethodsWrite) /\ method ∈ fsSyncMethodsRead) ->
   (exists h, createFS_method fsSyncMethodsWrite fsSyncMethodsRead
                fsAsyncMethodsWrite fsAsyncMethodsRead fs o method = Some h
              /\ forall args w,
                   h args w = (Throw (length (errors w)),
                               thrown_new "Filesystem is not readable" w))
   /\ (exists h, createFS_async fsSyncMethodsWrite fsSyncMethodsRead
                   fsAsyncMethodsWrite fsAsyncMethodsRead fs o method = Some h
                 /\ forall args w,
                      h args w = (SyncThrow (length (errors w)),
                                  thrown_new "Filesystem is not readable" w)))
  /\ ((method ∉ fsPromiseMethodsWrite) ->
      method ∈ fsPromiseMethodsRead ->
      exists h, createFS_promise fsPromiseMethodsWrite fsPromiseMethodsRead fs o method
                = Some h
                /\ forall args w,
                     h args w
                     = (Throw (length (errors w)),
                        thrown_new (if implements (raw_promise fs method)
                                    then "Filesystem is not readable"
                                    else promise_not_supported method args) w)).
Proof.
  intros Hr. split.
  - intros Haw Hread.
    assert (createFS_table fsSyncMethodsWrite fsSyncMethodsRead fsAsyncMethodsWrite
              fsAsyncMethodsRead o method = Some ("readable", false)) as Ht.
    { unfold createFS_table, is_readable. rewrite Hr. simpl.
      rewrite (bool_decide_eq_false_2 _ Haw).
      destruct Hread as [Har|[Hsw Hsr]].
      - by rewrite (bool_decide_eq_true_2 _ Har).
      - case_bool_decide; [done|].
        by rewrite (bool_decide_eq_false_2 _ Hsw), (bool_decide_eq_true_2 _ Hsr). }
    unfold createFS_method, createFS_async. rewrite Ht.
    split; eexists; (split; [reflexivity|]); done.
  - intros Hpw Hpr. unfold createFS_promise.
    rewrite (bool_decide_eq_false_2 _ Hpw), (bool_decide_eq_true_2 _ Hpr).
    eexists. split; [reflexivity|]. intros args w.
    unfold promise_wrapper, is_readable. rewrite Hr. simpl.
    by destruct (raw_promise fs method).
Qed.
End CreateFSProperties.

Lemma createFS_is_transparent_without_restrictions_witness :
  exists h, createFS_method (sample_tables "syncWrite") (sample_tables "syncRead")
              (sample_tables "asyncWrite") (sample_tables "asyncRead")
              (file_backend (Return (JNum 7))) readable_writable "readFileSync" = Some h
            /\ forall args w, h args w = (Return (JNum 7), w).
Proof.
  apply (proj1 (createFS_is_transparent_without_restrictions
                  (sample_tables "syncWrite") (sample_tables "syncRead")
                  (sample_tables "asyncWrite") (sample_tables "asyncRead")
                  (sample_tables "promiseWrite") (sample_tables "promiseRead")
                  (file_backend (Return (JNum 7))) readable_writable "readFileSync"
                  eq_refl eq_refl) (fun _ => Return (JNum 7)) eq_refl).
Defined.

Lemma createFS_denies_what_is_not_readable_witness :
  exists h, createFS_promise (sample_tables "promiseWrite") (sample_tables "promiseRead")
              (stream_backend None (Return JNull) JNull) not_readable "readFile" = Some h
            /\ forall args w,
                 h args w = (Throw (length (errors w)),
                             thrown_new (promise_not_supported "readFile" args) w).
Proof.
  apply (proj2 (createFS_denies_what_is_not_readable
                  (sample_tables "syncWrite") (sample_tables "syncRead")
                  (sample_tables "asyncWrite") (sample_tables "asyncRead")
                  (sample_tables "promiseWrite") (sample_tables "promiseRead")
                  (stream_backend None (Return JNull) JNull) not_readable "readFile"
                  eq_refl)); apply (bool_decide_unpack _); vm_compute; exact I.
Defined.

(** ** open and openSync: the first eligible success *)

Section FirstEligible.
Variable flags : string.
Variable args : list jsval.
Variable fs : IFS.
Variable o : VolOptions.
Variable v : jsval.
Variable low : list entry.

Lemma openSync_loop_first_eligible (failing : list entry) (lastError : option addr)
    (w : world) (f : list jsval -> completion jsval) :
  args !! 1 = Some (JStr flags) ->
  mode_skips flags o = false ->
  fs_openSync fs = Some f -> f args = Return v ->
  Forall (fun x => mode_skips flags x.2 = true
                   \/ forall g u, fs_openSync x.1 = Some g -> g args <> Return u) failing ->
  exists w' evs,
    openSync_loop args (failing ++ (fs, o) :: low) lastError w = (Return v, w')
    /\ calls w' = calls w ++ evs
    /\ Forall (fun ev => length low <= event_index ev) evs
    /\ last evs = Some (Invoked (length low) "openSync").
Proof.
  intros Hfl Ho Hm Hf Hfail. apply flags_lookup in Hfl. revert lastError w.
  induction Hfail as [|[fs' o'] failing Hx _ IH]; intros lastError w; simpl; rewrite Hfl.
  - rewrite Ho, Hm. mstep. rewrite Hf.
    exists (with_calls (calls w ++ [Invoked (length low) "openSync"]) w),
           [Invoked (length low) "openSync"].
    repeat split. by repeat constructor.
  - assert (bool_decide (length (failing ++ (fs, o) :: low) = 0) = false) as Hi.
    { apply bool_decide_eq_false. rewrite length_app. simpl. lia. }
    simpl in Hx. destruct (mode_skips flags o') eqn:Ho'; [apply IH|].
    destruct Hx as [?|Hx]; [done|].
    destruct (fs_openSync fs') as [g|] eqn:Hg; mstep.
    + destruct (g args) as [u|e] eqn:Hga; [by destruct (Hx g u eq_refl)|].
      mstep. rewrite Hi.
      match goal with |- context [openSync_loop _ _ ?le ?w1] =>
        destruct (IH le w1) as (w' & evs & Heq & Hc & Hevs & Hlast) end.
      exists w', (Invoked (length (failing ++ (fs, o) :: low)) "openSync" :: evs).
      split; [exact Heq|]. split; [rewrite Hc; simpl; by rewrite <- app_assoc|].
      split; [|by apply last_cons_last].
      constructor; [|done]. simpl. rewrite length_app. simpl. lia.
    + rewrite Hi.
      match goal with |- context [openSync_loop _ _ ?le ?w1] =>
        destruct (IH le w1) as (w' & evs & Heq & Hc & Hevs & Hlast) end.
      exists w', evs. split; [exact Heq|]. split; [exact Hc|done].
Qed.

Lemma open_iterate_first_eligible (n : nat) (failing : list entry)
    (err lastError : option addr) (w : world) (f : list jsval -> async_outcome jsval) :
  mode_skips flags o = false ->
  fs_open fs = Some f -> f args = CbResult v ->
  Forall (fun x => mode_skips flags x.2 = true
                   \/ forall g u, fs_open x.1 = Some g -> g args <> CbResult u) failing ->
  exists w' evs,
    open_iterate n (JStr flags) args (failing ++ (fs, o) :: low) err lastError w
    = (Called (CbOk v), w')
    /\ calls w' = calls w ++ evs
    /\ Forall (fun ev => length low <= event_index ev) evs
    /\ last evs = Some (Invoked (length low) "open").
Proof.
  intros Ho Hm Hf Hfail. revert err lastError w.
  induction Hfail as [|[fs' o'] failing Hx _ IH]; intros err lastError w; simpl;
    unfold bind at 1; rewrite <- (note_error_calls err lastError w);
    destruct (note_error err lastError w) as [le' w1]; simpl; clear w; revert w1; intros w.
  - rewrite Ho, Hm. mstep. rewrite Hf.
    exists (with_calls (calls w ++ [Invoked (length low) "open"]) w),
           [Invoked (length low) "open"].
    repeat split. by repeat constructor.
  - simpl in Hx. destruct (mode_skips flags o') eqn:Ho'; [apply IH|].
    destruct Hx as [?|Hx]; [done|].
    destruct (fs_open fs') as [g|] eqn:Hg; mstep.
    + assert (forall e,
        exists w' evs,
          open_iterate n (JStr flags) args (failing ++ (fs, o) :: low) (Some e) le'
            (with_calls (calls w ++ [Invoked (length (failing ++ (fs, o) :: low)) "open"]) w)
          = (Called (CbOk v), w')
          /\ calls w' = calls w ++ evs
          /\ Forall (fun ev => length low <= event_index ev) evs
          /\ last evs = Some (Invoked (length low) "open")) as IH'.
      { intros e.
        match goal with |- context [open_iterate _ _ _ _ ?e0 ?le ?w1] =>
          destruct (IH e0 le w1) as (w' & evs & Heq & Hc & Hevs & Hlast) end.
        exists w', (Invoked (length (failing ++ (fs, o) :: low)) "open" :: evs).
        split; [exact Heq|]. split; [rewrite Hc; simpl; by rewrite <- app_assoc|].
        split; [|by apply last_cons_last].
        constructor; [|done]. simpl. rewrite length_app. simpl. lia. }
      destruct (g args) as [e|u|e] eqn:Hga; [apply IH'| |apply IH'].
      by destruct (Hx g u eq_refl).
    + match goal with |- context [open_iterate _ _ _ _ ?e0 ?le ?w1] =>
        destruct (IH e0 le w1) as (w' & evs & Heq & Hc & Hevs & Hlast) end.
      exists w', evs. split; [exact Heq|]. split; [exact Hc|done].
Qed.
End FirstEligible.

(** X21. [open] and [openSync] return the result of the entry of highest
    priority that the access mode does not exclude and that succeeds: when
    every entry registered after [(fs, o)] is excluded or fails, and
    [(fs, o)] is eligible and succeeds, its result is the outcome; the last
    backend invoked is that entry's and no entry registered before it is
    invoked. *)
Theorem open_first_eligible_success_wins
    (pre post : list entry) (fs : IFS) (o : VolOptions) (flags : string)
    (args : list jsval) (v : jsval) (w : world) :
  let fss := pre ++ (fs, o) :: post in
  args !! 1 = Some (JStr flags) ->
  mode_skips flags o = false ->
  ((exists f, fs_openSync fs = Some f /\ f args = Return v) ->
   Forall (fun x => mode_skips flags x.2 = true
                    \/ forall g u, fs_openSync x.1 = Some g -> g args <> Return u) post ->
   exists w' evs,
     openSync fss args w = (Return v, w')
     /\ calls w' = calls w ++ evs
     /\ Forall (fun ev => length pre <= event_index ev) evs
     /\ last evs = Some (Invoked (length pre) "openSync"))
  /\ ((exists f, fs_open fs = Some f /\ f args = CbResult v) ->
      Forall (fun x => mode_skips flags x.2 = true
                       \/ forall g u, fs_open x.1 = Some g -> g args <> CbResult u) post ->
      exists w' evs,
        open fss args w = (Called (CbOk v), w')
        /\ calls w' = calls w ++ evs
        /\ Forall (fun ev => length pre <= event_index ev) evs
        /\ last evs = Some (Invoked (length pre) "open")).
Proof.
  intros fss Hfl Ho. subst fss.
  assert (reverse (pre ++ (fs, o) :: post) = reverse post ++ (fs, o) :: reverse pre) as Hrev.
  { by rewrite reverse_app, reverse_cons, <- app_assoc. }
  split.
  - intros (f & Hm & Hf) Hfail. unfold openSync. rewrite Hrev.
    destruct (openSync_loop_first_eligible flags args fs o v (reverse pre) (reverse post)
                None w f Hfl Ho Hm Hf) as (w' & evs & ? & ? & Hevs & Hlast).
    { by apply Forall_reverse. }
    rewrite length_reverse in Hevs, Hlast. by exists w', evs.
  - intros (f & Hm & Hf) Hfail. unfold open. rewrite (open_flags_lookup _ _ Hfl), Hrev.
    destruct (open_iterate_first_eligible flags args fs o v (reverse pre)
                (length (pre ++ (fs, o) :: post)) (reverse post) None None w f Ho Hm Hf)
      as (w' & evs & ? & ? & Hevs & Hlast).
    { by apply Forall_reverse. }
    rewrite length_reverse in Hevs, Hlast. by exists w', evs.
Qed.

Lemma open_first_eligible_success_wins_witness :
  exists w' evs,
    openSync [(file_backend (Return (JNum 1)), readable_writable);
              (file_backend (Return (JNum 7)), readable_writable);
              (file_backend (Return (JNum 9)), not_readable)]
             [JStr "/f"; JStr "r"] sample_world = (Return (JNum 7), w')
    /\ calls w' = calls sample_world ++ evs
    /\ Forall (fun ev => 1 <= event_index ev) evs
    /\ last evs = Some (Invoked 1 "openSync").
Proof.
  apply (proj1 (open_first_eligible_success_wins
                  [(file_backend (Return (JNum 1)), readable_writable)]
                  [(file_backend (Return (JNum 9)), not_readable)]
                  (file_backend (Return (JNum 7))) readable_writable "r"
                  [JStr "/f"; JStr "r"] (JNum 7) sample_world eq_refl eq_refl)).
  - exists (fun _ => Return (JNum 7)). split; reflexivity.
  - repeat constructor.
Defined.

(** ** A result always comes from a backend *)

Section FromBackend.
Variable method : string.
Variable args : list jsval.

Lemma syncMethod_loop_from_backend (todo : list entry) (lastError : option addr)
    (w : world) (v : jsval) (w' : world) :
  todo <> [] ->
  syncMethod_loop method args todo lastError w = (Return v, w') ->
  exists x f, x ∈ todo /\ fs_method x.1 method = Some f /\ f args = Return v.
Proof.
  revert lastError w. induction todo as [|[fs o] rest IH]; intros lastError w Hne; [done|].
  simpl. clear Hne.
  assert (forall le w1,
    (if bool_decide (length rest = 0) then ret (Throw 0)
     else syncMethod_loop method args rest le) w1 = (Return v, w') ->
    exists x f, x ∈ (fs, o) :: rest /\ fs_method x.1 method = Some f /\ f args = Return v)
    as Hrec.
  { intros le w1. case_bool_decide as Hl; [done|]. intros Hrun.
    destruct (IH le w1) as (x & f & ? & ? & ?); [by destruct rest|done|].
    exists x, f. split; [by right|done]. }
  destruct (fs_method fs method) as [f|] eqn:Hm; mstep.
  - destruct (f args) as [u|e] eqn:Hf; mstep.
    + intros [= <- <-]. exists (fs, o), f. split; [by left|done].
    + intros Hrun. eapply Hrec. revert Hrun. case_bool_decide; [done|]. intros Hrun.
      exact Hrun.
  - intros Hrun. eapply Hrec. revert Hrun. case_bool_decide; [done|]. intros Hrun.
    exact Hrun.
Qed.

Lemma promiseMethod_loop_from_backend (todo : list entry) (lastError : option addr)
    (w : world) (v : jsval) (w' : world) :
  todo <> [] ->
  promiseMethod_loop method args todo lastError w = (Return v, w') ->
  exists x p f, x ∈ todo /\ fs_promises x.1 = Some p /\ p_method p method = Some f
                /\ f args = Return v.
Proof.
  revert lastError w. induction todo as [|[fs o] rest IH]; intros lastError w Hne; [done|].
  simpl. clear Hne.
  assert (forall le w1,
    (if bool_decide (length rest = 0) then ret (Throw 0)
     else promiseMethod_loop method args rest le) w1 = (Return v, w') ->
    exists x p f, x ∈ (fs, o) :: rest /\ fs_promises x.1 = Some p
                  /\ p_method p method = Some f /\ f args = Return v)
    as Hrec.
  { intros le w1. case_bool_decide as Hl; [done|]. intros Hrun.
    destruct (IH le w1) as (x & p & f & ? & ? & ? & ?); [by destruct rest|done|].
    exists x, p, f. split; [by right|done]. }
  destruct (fs_promises fs) as [p|] eqn:Hp;
    [destruct (p_method p method) as [f|] eqn:Hm|]; mstep.
  - destruct (f args) as [u|e] eqn:Hf; mstep.
    + intros [= <- <-]. exists (fs, o), p, f. split; [by left|done].
    + intros Hrun. eapply Hrec. revert Hrun. case_bool_decide; [done|]. intros Hrun.
      exact Hrun.
  - intros Hrun. eapply Hrec. revert Hrun. case_bool_decide; [done|]. intros Hrun.
    exact Hrun.
  - intros Hrun. eapply Hrec. revert Hrun. case_bool_decide; [done|]. intros Hrun.
    exact Hrun.
Qed.

Lemma asyncMethod_iterate_from_backend (n : nat) (todo : list entry)
    (err lastError : option addr) (w : world) (v : jsval) (w' : world) :
  asyncMethod_iterate n method args todo err lastError w = (CbOk v, w') ->
  exists x f, x ∈ todo /\ fs_async x.1 method = Some f /\ f args = CbResult v.
Proof.
  revert err lastError w. induction todo as [|[fs o] rest IH]; intros err lastError w; simpl.
  { destruct err; mstep; [done|]. by case_bool_decide. }
  assert (forall e le w1,
    asyncMethod_iterate n method args rest e le w1 = (CbOk v, w') ->
    exists x f, x ∈ (fs, o) :: rest /\ fs_async x.1 method = Some f /\ f args = CbResult v)
    as Hrec.
  { intros e le w1 Hrun. destruct (IH e le w1 Hrun) as (x & f & ? & ? & ?).
    exists x, f. split; [by right|done]. }
  unfold bind at 1. destruct (note_error err lastError w) as [le' w1]. simpl.
  destruct (fs_async fs method) as [f|] eqn:Hm; mstep; [|apply Hrec].
  destruct (f args) as [e|u|e] eqn:Hf; [apply Hrec| |apply Hrec].
  intros [= <- <-]. exists (fs, o), f. split; [by left|done].
Qed.
End FromBackend.

(** X22. The generic operations make up no result: a value that the
    blocking form returns or the callback form hands over is the value that
    the method of some registered backend produced for these arguments, and
    so is the value that the promise form resolves with on a registry that
    is not empty. *)
Theorem generic_result_comes_from_a_backend
    (fss : list entry) (method : string) (args : list jsval) (w : world) :
  (forall v w', syncMethod fss method args w = (Return v, w') ->
     exists x f, x ∈ fss /\ fs_method x.1 method = Some f /\ f args = Return v)
  /\ (forall v w', asyncMethod fss method args w = (CbOk v, w') ->
     exists x f, x ∈ fss /\ fs_async x.1 method = Some f /\ f args = CbResult v)
  /\ (fss <> [] ->
      forall v w', promiseMethod fss method args w = (Return v, w') ->
        exists x p f, x ∈ fss /\ fs_promises x.1 = Some p /\ p_method p method = Some f
                      /\ f args = Return v).
Proof.
  assert (fss <> [] -> reverse fss <> []) as Hr.
  { intros Hne Hr. apply Hne. by rewrite <- (reverse_involutive fss), Hr. }
  split; [|split].
  - intros v w'. unfold syncMethod. case_bool_decide as Hl; [done|]. intros Hrun.
    apply syncMethod_loop_from_backend in Hrun as (x & f & Hx & ? & ?);
      [|apply Hr; by destruct fss].
    exists x, f. by rewrite elem_of_reverse in Hx.
  - intros v w' Hrun. apply asyncMethod_iterate_from_backend in Hrun as (x & f & Hx & ? & ?).
    exists x, f. by rewrite elem_of_reverse in Hx.
  - intros Hne v w' Hrun.
    apply promiseMethod_loop_from_backend in Hrun as (x & p & f & Hx & ? & ? & ?);
      [|by apply Hr].
    exists x, p, f. by rewrite elem_of_reverse in Hx.
Qed.

Lemma generic_result_comes_from_a_backend_witness :
  exists x f, x ∈ [(file_backend (Return (JNum 7)), readable_writable)]
              /\ fs_method x.1 "statSync" = Some f /\ f [JStr "/f"] = Return (JNum 7).
Proof.
  apply (proj1 (generic_result_comes_from_a_backend
                  [(file_backend (Return (JNum 7)), readable_writable)] "statSync"
                  [JStr "/f"] sample_world) (JNum 7)
           (syncMethod [(file_backend (Return (JNum 7)), readable_writable)] "statSync"
                       [JStr "/f"] sample_world).2).
  reflexivity.
Defined.

(** X3. [asyncMethod] itself never calls the caller's callback without an
    error: the [undefined] alternative of its last call is never taken, on
    any registry, the empty one included.  So the callback is called either
    with an error, or by passing on the callback of a registered backend
    that reported no error, with what that backend reported. *)
Theorem asyncMethod_calls_back_with_error_or_backend_result
    (fss : list entry) (method : string) (args : list jsval) (w : world) :
  (asyncMethod fss method args w).1 <> CbUndefined
  /\ ((exists e, (asyncMethod fss method args w).1 = CbErr e)
      \/ (exists v x f,
            (asyncMethod fss method args w).1 = CbOk v
            /\ x ∈ fss /\ fs_async x.1 method = Some f /\ f args = CbResult v)).
Proof.
  assert ((asyncMethod fss method args w).1 <> CbUndefined) as Hdead.
  { unfold asyncMethod. apply asyncMethod_iterate_reports. right.
    destruct fss as [|x fss]; [by right|]. left.
    rewrite reverse_cons. by destruct (reverse fss). }
  split; [exact Hdead|].
  destruct (asyncMethod fss method args w) as [[e|v|] w'] eqn:Hrun; simpl in *.
  - left. by exists e.
  - right. apply asyncMethod_iterate_from_backend in Hrun as (x & f & Hx & ? & ?).
    exists v, x, f. by rewrite elem_of_reverse in Hx.
  - done.
Qed.

(** ** Gating of the generic operations *)

Section Gating.
Variables fsSyncMethodsWrite fsSyncMethodsRead : list string.
Variables fsAsyncMethodsWrite fsAsyncMethodsRead : list string.
Variable method : string.
Variable args : list jsval.

(** The definitions of the stored objects, at the tables of this section. *)
Local Abbreviation stored :=
  (fun x : entry => createFS_method fsSyncMethodsWrite fsSyncMethodsRead
                      fsAsyncMethodsWrite fsAsyncMethodsRead x.1 x.2).
Local Abbreviation table :=
  (createFS_table fsSyncMethodsWrite fsSyncMethodsRead
                  fsAsyncMethodsWrite fsAsyncMethodsRead).
Local Abbreviation denies :=
  (denial fsSyncMethodsWrite fsSyncMethodsRead fsAsyncMethodsWrite fsAsyncMethodsRead).
Local Abbreviation passed_over :=
  (denied_or_fails fsSyncMethodsWrite fsSyncMethodsRead fsAsyncMethodsWrite
                   fsAsyncMethodsRead).
Local Abbreviation registry :=
  (registered fsSyncMethodsWrite fsSyncMethodsRead fsAsyncMethodsWrite fsAsyncMethodsRead).

Lemma syncMethod_try_denied (i : nat) (fs : IFS) (o : VolOptions) (state : string)
    (w : world) :
  denies o method = Some state ->
  exists w1,
    syncMethod_try method args i (stored (fs, o)) w = (Throw (length (errors w)), w1)
    /\ errors w1
       = errors w ++ [Error_obj ("Filesystem is not " +:+ state) PrevUndefined].
Proof.
  unfold denial, syncMethod_try, createFS_method. simpl.
  destruct (createFS_table _ _ _ _ o method) as [[state' []]|]; [done| |done].
  intros [= ->]. mstep. by eexists.
Qed.

Lemma syncMethod_try_fails (i : nat) (x : entry) (w : world) :
  passed_over method args x ->
  exists e w1, syncMethod_try method args i (stored x) w = (Throw e, w1).
Proof.
  destruct x as [fs o]. intros [[state Hd]|Hx].
  { destruct (syncMethod_try_denied i fs o state w Hd) as (w1 & Heq & _). by do 2 eexists. }
  simpl in Hx. unfold syncMethod_try, createFS_method. simpl.
  destruct (createFS_table _ _ _ _ o method) as [[state' []]|]; mstep.
  - unfold createFunc. destruct (fs_method fs method) as [g|] eqn:Hg; mstep.
    + destruct (g args) as [u|e] eqn:Hga; [by destruct (Hx g u eq_refl)|by do 2 eexists].
    + by do 2 eexists.
  - unfold createErroringFn. mstep. by do 2 eexists.
  - destruct (fs_method fs method) as [g|] eqn:Hg; simpl; mstep.
    + destruct (g args) as [u|e] eqn:Hga; [by destruct (Hx g u eq_refl)|by do 2 eexists].
    + by do 2 eexists.
Qed.

Lemma syncMethod_try_succeeds (i : nat) (fs : IFS) (o : VolOptions)
    (f : list jsval -> completion jsval) (v : jsval) (w : world) :
  denies o method = None ->
  fs_method fs method = Some f -> f args = Return v ->
  exists w1, syncMethod_try method args i (stored (fs, o)) w = (Return v, w1).
Proof.
  unfold denial, syncMethod_try, createFS_method. simpl.
  intros Hd Hm Hf.
  destruct (createFS_table _ _ _ _ o method) as [[state' []]|]; [|done|]; mstep.
  - unfold createFunc. rewrite Hm. mstep. rewrite Hf. by eexists.
  - rewrite Hm. simpl. mstep. rewrite Hf. by eexists.
Qed.

Lemma syncMethod_stored_loop_allowed (failing : list entry) (fs : IFS) (o : VolOptions)
    (low : list entry) (f : list jsval -> completion jsval) (v : jsval)
    (lastError : option addr) (w : world) :
  Forall (passed_over method args) failing ->
  denies o method = None ->
  fs_method fs method = Some f -> f args = Return v ->
  exists w',
    syncMethod_stored_loop method args (registry (failing ++ (fs, o) :: low)) lastError w
    = (Return v, w').
Proof.
  intros Hfail Hd Hm Hf. revert lastError w.
  induction Hfail as [|x failing Hx _ IH]; intros lastError w;
    unfold registered; simpl; unfold bind.
  - match goal with |- context [syncMethod_try method args ?i _ w] =>
      destruct (syncMethod_try_succeeds i fs o f v w Hd Hm Hf) as (w1 & Heq) end.
    simpl in Heq. rewrite Heq. by eexists.
  - match goal with |- context [syncMethod_try method args ?i _ w] =>
      destruct (syncMethod_try_fails i x w Hx) as (e & w1 & Heq) end.
    simpl in Heq. rewrite Heq. mstep.
    rewrite bool_decide_eq_false_2 by (rewrite length_fmap, length_app; simpl; lia).
    apply IH.
Qed.

Lemma syncMethod_stored_loop_denied (failing : list entry) (fs : IFS) (o : VolOptions)
    (state : string) (lastError : option addr) (w : world) :
  Forall (passed_over method args) failing ->
  denies o method = Some state ->
  exists e w' ob,
    syncMethod_stored_loop method args (registry (failing ++ [(fs, o)])) lastError w
    = (Throw e, w')
    /\ errors w' !! e = Some ob
    /\ message ob = "Filesystem is not " +:+ state.
Proof.
  intros Hfail Hd. revert lastError w.
  induction Hfail as [|x failing Hx _ IH]; intros lastError w;
    unfold registered; simpl; unfold bind.
  - destruct (syncMethod_try_denied 0 fs o state w Hd) as (w1 & Heq & He).
    simpl in Heq. rewrite Heq. mstep.
    eexists _, _, _. split; [reflexivity|]. simpl. rewrite He.
    rewrite list_lookup_alter, decide_True by done.
    rewrite list_lookup_middle by done. done.
  - match goal with |- context [syncMethod_try method args ?i _ w] =>
      destruct (syncMethod_try_fails i x w Hx) as (e & w1 & Heq) end.
    simpl in Heq. rewrite Heq. mstep.
    rewrite bool_decide_eq_false_2 by (rewrite length_fmap, length_app; simpl; lia).
    apply IH.
Qed.

Lemma syncMethod_try_untabled (i : nat) (fs : IFS) (o : VolOptions) :
  table o method = None ->
  syncMethod_try method args i
    (createFS_method fsSyncMethodsWrite fsSyncMethodsRead
       fsAsyncMethodsWrite fsAsyncMethodsRead fs o)
  = match fs_method fs method with
    | None => e <- new_Error (not_supported method args) ;; ret (Throw e)
    | Some f => invoke i method ;;; ret (f args)
    end.
Proof.
  intros Hx. unfold syncMethod_try, createFS_method. rewrite Hx.
  by destruct (fs_method fs method).
Qed.

(** For a name that no table has, the stored object has the member of the
    backend as it is, and the loop is the loop over the backends. *)
Lemma syncMethod_stored_loop_untabled (todo : list entry) (lastError : option addr)
    (w : world) :
  Forall (fun x => table x.2 method = None) todo ->
  syncMethod_stored_loop method args (registry todo) lastError w
  = syncMethod_loop method args todo lastError w.
Proof.
  intros H. revert lastError w.
  induction H as [|[fs o] rest Hx _ IH]; intros lastError w; [done|].
  unfold registered. simpl in *. rewrite syncMethod_try_untabled by done.
  rewrite length_fmap.
  destruct (fs_method fs method) as [f|]; mstep.
  - destruct (f args) as [v|e]; mstep; [done|]. case_bool_decide; [done|apply IH].
  - case_bool_decide; [done|apply IH].
Qed.

(** X2. The options of an entry reach a generic operation through the
    object that [use] stores for it.  For a blocking operation over the
    stored objects: an entry whose options deny the method is passed over
    without its backend being consulted, so the operation returns the
    result of the entry of highest priority that is allowed and succeeds;
    when no entry succeeds and the entry registered first is denied, the
    operation throws [Filesystem is not readable] (or [writable]); and for
    a name that no table has, the stored objects behave as the backends. *)
Theorem generic_operation_is_gated_by_createFS (fss : list entry) (w : world) :
  (forall pre fs o post f v,
     fss = pre ++ (fs, o) :: post ->
     denies o method = None ->
     fs_method fs method = Some f -> f args = Return v ->
     Forall (passed_over method args) post ->
     exists w', syncMethod_stored (registry fss) method args w = (Return v, w'))
  /\ (forall fs o rest state,
        fss = (fs, o) :: rest ->
        denies o method = Some state ->
        Forall (passed_over method args) rest ->
        exists e w' ob,
          syncMethod_stored (registry fss) method args w = (Throw e, w')
          /\ errors w' !! e = Some ob
          /\ message ob = "Filesystem is not " +:+ state)
  /\ (Forall (fun x => table x.2 method = None) fss ->
      syncMethod_stored (registry fss) method args w = syncMethod fss method args w).
Proof.
  assert (forall l, reverse (registry l) = registry (reverse l)) as Hrev.
  { intros l. unfold registered. by rewrite fmap_reverse. }
  split; [|split].
  - intros pre fs o post f v -> Hd Hm Hf Hpost. unfold syncMethod_stored.
    rewrite bool_decide_eq_false_2
      by (unfold registered; rewrite length_fmap, length_app; simpl; lia).
    rewrite Hrev, reverse_app, reverse_cons, <- app_assoc.
    apply (syncMethod_stored_loop_allowed (reverse post) fs o (reverse pre) f v);
      [by apply Forall_reverse|done..].
  - intros fs o rest state -> Hd Hrest. unfold syncMethod_stored.
    rewrite bool_decide_eq_false_2 by done.
    rewrite Hrev, reverse_cons.
    apply syncMethod_stored_loop_denied; [by apply Forall_reverse|done].
  - intros H. unfold syncMethod_stored, syncMethod.
    assert (length (registry fss) = length fss) as -> by apply length_fmap.
    case_bool_decide; [done|]. rewrite Hrev.
    apply syncMethod_stored_loop_untabled. by apply Forall_reverse.
Qed.
End Gating.

Lemma generic_operation_is_gated_by_createFS_witness :
  exists e w' ob,
    syncMethod_stored
      (registered (sample_tables "syncWrite") (sample_tables "syncRead")
                  (sample_tables "asyncWrite") (sample_tables "asyncRead")
                  [(file_backend (Return (JNum 7)), not_readable)])
      "readFileSync" [JStr "/f"] sample_world = (Throw e, w')
    /\ errors w' !! e = Some ob
    /\ message ob = "Filesystem is not readable".
Proof.
  apply (proj1 (proj2 (generic_operation_is_gated_by_createFS
                         (sample_tables "syncWrite") (sample_tables "syncRead")
                         (sample_tables "asyncWrite") (sample_tables "asyncRead")
                         "readFileSync" [JStr "/f"]
                         [(file_backend (Return (JNum 7)), not_readable)] sample_world))
           (file_backend (Return (JNum 7))) not_readable [] "readable" eq_refl);
    [reflexivity|constructor].
Defined.
